(** * mfs: feature selection with information-theoretic measures

    A shallow embedding of [mfs/Selection.py] (classes [Metrics] and [MFS];
    [mfs/Metrics.py] repeats the discrete entropy family word for word) and
    the properties of its natural-language specification.

    Modelling choices.
    - A Python/numpy double is a value of [Float.float]: the IEEE-754
      special values NaN, +inf and -inf are kept, every finite double is
      idealised as a real number (no rounding, no overflow, one zero).
    - A numpy array of integer codes is an [np.ndarray]: a 1-D vector or a
      2-D matrix given by its rows.
    - Python exceptions are values of [exn]; a function that may raise
      returns a [result].  The methods of [MFS] run in the state-and-error
      monad [M] over the attributes of the object; a raised exception keeps
      the attributes as they were at that point.
    - [numpy.argsort] breaks ties in a way that depends on the sort kind; it
      is a parameter of the engine, constrained only where a proof needs it. *)

From Stdlib Require Import Reals Lra.
From stdpp Require Import base list sorting gmap strings.

(** * Part I: the program *)

(** ** Floating-point values *)

Module Float.

Inductive float : Type :=
  | NaN
  | PInf
  | NInf
  | Fin (r : R).

#[global] Instance Rlt_decision : RelDecision Rlt := Rlt_dec.
#[global] Instance Rle_decision : RelDecision Rle := Rle_dec.
#[global] Instance Req_decision : EqDecision R := Req_dec_T.

Definition of_nat (n : nat) : float := Fin (INR n).

Definition neg (x : float) : float :=
  match x with
  | NaN => NaN
  | PInf => NInf
  | NInf => PInf
  | Fin r => Fin (- r)
  end.

Definition add (x y : float) : float :=
  match x, y with
  | NaN, _ | _, NaN => NaN
  | PInf, NInf | NInf, PInf => NaN
  | PInf, _ | _, PInf => PInf
  | NInf, _ | _, NInf => NInf
  | Fin a, Fin b => Fin (a + b)
  end.

Definition sub (x y : float) : float := add x (neg y).

(** The infinity a non-zero finite factor turns +inf into; NaN for zero. *)
Definition inf_of_sign (r : R) : float :=
  if decide (0 < r)%R then PInf
  else if decide (r < 0)%R then NInf
  else NaN.

Definition mul (x y : float) : float :=
  match x, y with
  | NaN, _ | _, NaN => NaN
  | PInf, PInf | NInf, NInf => PInf
  | PInf, NInf | NInf, PInf => NInf
  | PInf, Fin r | Fin r, PInf => inf_of_sign r
  | NInf, Fin r | Fin r, NInf => inf_of_sign (- r)
  | Fin a, Fin b => Fin (a * b)
  end.

(** numpy's division of doubles: it never raises; x/0 is an infinity and
    0/0 is NaN. *)
Definition div (x y : float) : float :=
  match x, y with
  | NaN, _ | _, NaN => NaN
  | (PInf | NInf), (PInf | NInf) => NaN
  | PInf, Fin r => if decide (r < 0)%R then NInf else PInf
  | NInf, Fin r => if decide (r < 0)%R then PInf else NInf
  | Fin _, (PInf | NInf) => Fin 0
  | Fin a, Fin b => if decide (b = 0%R) then inf_of_sign a else Fin (a / b)
  end.

(** Comparisons: every comparison with NaN is false. *)
Definition ltb (x y : float) : bool :=
  match x, y with
  | NaN, _ | _, NaN => false
  | _, NInf => false
  | PInf, _ => false
  | NInf, _ => true
  | Fin _, PInf => true
  | Fin a, Fin b => bool_decide (a < b)%R
  end.

Definition eqb (x y : float) : bool :=
  match x, y with
  | PInf, PInf | NInf, NInf => true
  | Fin a, Fin b => bool_decide (a = b)
  | _, _ => false
  end.

Definition leb (x y : float) : bool := ltb x y || eqb x y.
Definition gtb (x y : float) : bool := ltb y x.
Definition geb (x y : float) : bool := leb y x.

Definition is_nan (x : float) : bool :=
  match x with NaN => true | _ => false end.

End Float.

Export Float (float, NaN, PInf, NInf, Fin).

Declare Scope pyfloat_scope.
Delimit Scope pyfloat_scope with fl.
Bind Scope pyfloat_scope with float.
Infix "+" := Float.add : pyfloat_scope.
Infix "-" := Float.sub : pyfloat_scope.
Infix "*" := Float.mul : pyfloat_scope.
Infix "/" := Float.div : pyfloat_scope.
Notation "- x" := (Float.neg x) : pyfloat_scope.
Infix "<?" := Float.ltb : pyfloat_scope.
Infix "<=?" := Float.leb : pyfloat_scope.
Infix ">?" := Float.gtb : pyfloat_scope.
Infix ">=?" := Float.geb : pyfloat_scope.
Infix "=?" := Float.eqb : pyfloat_scope.

(** ** Exceptions *)

Inductive exn : Type :=
  | ValueError (msg : string)
  | TypeError (msg : string)
  | IndexError (msg : string)
  | AttributeError (msg : string)
  | OutOfFuel.

Inductive result (A : Type) : Type :=
  | Ok (a : A)
  | Raise (e : exn).
Arguments Ok {A} a.
Arguments Raise {A} e.

#[global] Instance result_ret : MRet result := λ A a, Ok a.
#[global] Instance result_bind : MBind result := λ A B f m,
  match m with
  | Ok a => f a
  | Raise e => Raise e
  end.

(** ** The pieces of [math], [sys] and [numpy] the source uses *)

Module math.

(** [math.sqrt]: raises on a negative argument. *)
Definition sqrt (x : float) : result float :=
  match x with
  | NaN => Ok NaN
  | PInf => Ok PInf
  | NInf => Raise (ValueError "math domain error")
  | Fin r => if decide (r < 0)%R then Raise (ValueError "math domain error")
             else Ok (Fin (R_sqrt.sqrt r))
  end.

(** [math.log] of a finite number: raises unless it is positive. *)
Definition log (x : R) : result float :=
  if decide (0 < x)%R then Ok (Fin (ln x))
  else Raise (ValueError "math domain error").

End math.

Module float_info.

(** [sys.float_info.min], the least positive normal double, 2^-1022. *)
Definition min : float := Fin (/ 2 ^ 1022).

End float_info.

Module np.

(** A numpy array of integer codes: a 1-D vector, or a 2-D matrix with its
    number of columns and its rows. *)
Inductive ndarray : Type :=
  | Vec (v : list Z)
  | Mat (ncols : nat) (rows : list (list Z)).

(** [len(a)]: the size of the first axis. *)
Definition len (a : ndarray) : nat :=
  match a with
  | Vec v => length v
  | Mat _ rows => length rows
  end.

(** The entries along the first axis, each as a row. *)
Definition as_rows (a : ndarray) : list (list Z) :=
  match a with
  | Vec v => (λ z, [z]) <$> v
  | Mat _ rows => rows
  end.

Definition width (a : ndarray) : nat :=
  match a with
  | Vec _ => 1
  | Mat n _ => n
  end.

(** [a.shape[1]] *)
Definition shape1 (a : ndarray) : result nat :=
  match a with
  | Vec _ => Raise (IndexError "tuple index out of range")
  | Mat n _ => Ok n
  end.

(** [a[:, col]] *)
Definition column (a : ndarray) (col : nat) : result ndarray :=
  match a with
  | Vec _ => Raise (IndexError "too many indices for array")
  | Mat n rows =>
      if decide (col < n) then Ok (Vec ((λ r, nth col r 0%Z) <$> rows))
      else Raise (IndexError "index is out of bounds for axis 1")
  end.

(** [np.c_[x, y]]: the two arrays side by side, column-wise. *)
Definition c_ (x y : ndarray) : result ndarray :=
  if decide (len x = len y)
  then Ok (Mat (width x + width y) (zip_with app (as_rows x) (as_rows y)))
  else Raise (ValueError "all the input array dimensions except for the concatenation axis must match exactly").

(** Lexicographic order on rows, the order [np.unique] sorts by. *)
Fixpoint row_leb (r1 r2 : list Z) : bool :=
  match r1, r2 with
  | [], _ => true
  | _ :: _, [] => false
  | a :: t1, b :: t2 => (a <? b)%Z || ((a =? b)%Z && row_leb t1 t2)
  end.

Definition row_le : relation (list Z) := λ r1 r2, row_leb r1 r2 = true.

#[global] Instance row_le_dec : RelDecision row_le.
Proof. intros r1 r2. unfold row_le. apply _. Defined.

(** The run lengths of a list whose equal entries are adjacent. *)
Fixpoint run_lengths (l : list (list Z)) : list (list Z * nat) :=
  match l with
  | [] => []
  | r :: t =>
      match run_lengths t with
      | (r', c) :: g => if decide (r = r') then (r, S c) :: g
                        else (r, 1) :: (r', c) :: g
      | [] => [(r, 1)]
      end
  end.

(** [np.unique(a, return_counts=True, axis=0)]: the distinct entries in
    sorted order, each with the number of times it occurs. *)
Definition unique (a : ndarray) : list (list Z) * list nat :=
  let g := run_lengths (merge_sort row_le (as_rows a)) in
  (g.*1, g.*2).

(** [np.sum] of a vector of doubles. *)
Definition sum (l : list float) : float := foldl Float.add (Fin 0) l.

(** [np.log] on one double: never raises. *)
Definition log (x : float) : float :=
  match x with
  | NaN => NaN
  | PInf => PInf
  | NInf => NaN
  | Fin r => if decide (0 < r)%R then Fin (ln r)
             else if decide (r = 0%R) then NInf
             else NaN
  end.

(** [np.zeros(n)] *)
Definition zeros (n : nat) : list float := replicate n (Fin 0).

(** The order [np.argsort] sorts doubles by: ascending, NaN last. *)
Definition key_le (x y : float) : bool := Float.is_nan y || (x <=? y)%fl.

(** One [np.argsort]: the indices of [keys], sorted by key with a stable
    insertion sort (numpy's default sort differs from it at most in the
    order of indices with equal keys). *)
Fixpoint insert_index (keys : list float) (i : nat) (order : list nat)
    : list nat :=
  match order with
  | [] => [i]
  | j :: order' =>
      if key_le (default NaN (keys !! i)) (default NaN (keys !! j))
      then i :: j :: order'
      else j :: insert_index keys i order'
  end.

Definition argsort (keys : list float) : list nat :=
  foldr (insert_index keys) [] (seq 0 (length keys)).

End np.

Export np (ndarray, Vec, Mat).

(** [itertools.combinations(l, 2)] *)
Fixpoint combinations2 {A} (l : list A) : list (A * A) :=
  match l with
  | [] => []
  | x :: t => (pair x <$> t) ++ combinations2 t
  end.

(** ** class Metrics *)

Module Metrics.

(** [Metrics.entropy(y, base)] *)
Definition entropy (y : ndarray) (base : R) : result float :=
  let count := (np.unique y).2 in
  let proba := (λ c, Float.of_nat c / Float.of_nat (np.len y))%fl <$> count in
  let proba := List.filter (λ p, p >? Fin 0)%fl proba in
  let total := np.sum ((λ p, p * np.log (Fin 1 / p))%fl <$> proba) in
  lb ← math.log base;
  Ok (total / lb)%fl.

(** [Metrics.conditional_entropy(x, y, base)] *)
Definition conditional_entropy (x y : ndarray) (base : R) : result float :=
  xy ← np.c_ x y;
  hxy ← entropy xy base;
  hx ← entropy x base;
  Ok (hxy - hx)%fl.

(** [Metrics.information_gain(x, y, base)] *)
Definition information_gain (x y : ndarray) (base : R) : result float :=
  hy ← entropy y base;
  hyx ← conditional_entropy x y base;
  Ok (hy - hyx)%fl.

(** [Metrics.symmetrical_uncertainty(x, y)], with the default base 2 *)
Definition symmetrical_uncertainty (x y : ndarray) : result float :=
  ig ← information_gain x y 2;
  hx ← entropy x 2;
  hy ← entropy y 2;
  Ok (Fin 2 * ig / (hx + hy))%fl.

End Metrics.

(** ** class MFS *)

Module MFS.

(** The attributes of an [MFS] object.  [X_] and [y_] do not exist until
    [cfs] or [fcbs] assigns them. *)
Record t : Type := mk {
  _result : option (list nat);
  _scores : list float;
  _su_labels : option (list float);
  _su_features : gmap (nat * nat) float;
  X_ : option ndarray;
  y_ : option ndarray;
}.

(** A method body: it reads and writes the attributes of [self], and
    returns a value or raises. *)
Definition M (A : Type) : Type := t → result A * t.

#[global] Instance M_ret : MRet M := λ A a self, (Ok a, self).
#[global] Instance M_bind : MBind M := λ A B f m self,
  match m self with
  | (Ok a, self') => f a self'
  | (Raise e, self') => (Raise e, self')
  end.

Definition raise {A} (e : exn) : M A := λ self, (Raise e, self).
Definition lift {A} (r : result A) : M A := λ self, (r, self).
Definition get : M t := λ self, (Ok self, self).
Definition put (self' : t) : M () := λ _, (Ok (), self').

(** Attribute assignments. *)
Definition set_result (v : option (list nat)) : M () :=
  self ← get;
  put (mk v (_scores self) (_su_labels self) (_su_features self) (X_ self) (y_ self)).
Definition set_scores (v : list float) : M () :=
  self ← get;
  put (mk (_result self) v (_su_labels self) (_su_features self) (X_ self) (y_ self)).
Definition set_su_labels (v : option (list float)) : M () :=
  self ← get;
  put (mk (_result self) (_scores self) v (_su_features self) (X_ self) (y_ self)).
Definition set_su_features (v : gmap (nat * nat) float) : M () :=
  self ← get;
  put (mk (_result self) (_scores self) (_su_labels self) v (X_ self) (y_ self)).
Definition set_X_ (v : ndarray) : M () :=
  self ← get;
  put (mk (_result self) (_scores self) (_su_labels self) (_su_features self) (Some v) (y_ self)).
Definition set_y_ (v : ndarray) : M () :=
  self ← get;
  put (mk (_result self) (_scores self) (_su_labels self) (_su_features self) (X_ self) (Some v)).

(** Attribute reads that can fail. *)
Definition get_X_ : M ndarray :=
  self ← get;
  match X_ self with
  | Some X => mret X
  | None => raise (AttributeError "'MFS' object has no attribute 'X_'")
  end.
Definition get_y_ : M ndarray :=
  self ← get;
  match y_ self with
  | Some y => mret y
  | None => raise (AttributeError "'MFS' object has no attribute 'y_'")
  end.

(** The array object held in [self._su_labels]. *)
Definition su_labels_array : M (list float) :=
  self ← get;
  match _su_labels self with
  | Some l => mret l
  | None => raise (TypeError "'NoneType' object is not subscriptable")
  end.

(** [l[i]] on a Python list or a 1-D array, for an index that is not
    negative. *)
Definition getitem {A} (l : list A) (i : nat) : result A :=
  match l !! i with
  | Some a => Ok a
  | None => Raise (IndexError "index out of range")
  end.

(** [self._su_labels[i]] *)
Definition su_labels_getitem (i : nat) : M float :=
  l ← su_labels_array;
  lift (getitem l i).

(** [self._su_labels[i] = v]: the array is updated in place. *)
Definition su_labels_setitem (i : nat) (v : float) : M () :=
  l ← su_labels_array;
  if decide (i < length l) then set_su_labels (Some (<[i:=v]> l))
  else raise (IndexError "index out of range").

(** [self._scores.append(v)] *)
Definition scores_append (v : float) : M () :=
  self ← get;
  set_scores (_scores self ++ [v]).

(** [self._result.append(i)] *)
Definition result_append (i : nat) : M () :=
  self ← get;
  match _result self with
  | Some r => set_result (Some (r ++ [i]))
  | None => raise (AttributeError "'NoneType' object has no attribute 'append'")
  end.

(** [for i in range(n): body(i)] *)
Fixpoint for_range (n : nat) (body : nat → M ()) : M () :=
  match n with
  | 0 => mret ()
  | S n' => for_range n' body;; body n'
  end.

(** [MFS._initialize] *)
Definition _initialize : M () :=
  set_result None;;
  set_scores [];;
  set_su_labels None;;
  set_su_features ∅.

(** [MFS.__init__]: a fresh object, after its [_initialize]. *)
Definition __init__ : t := mk None [] None ∅ None None.

(** [MFS._compute_su_labels].  The array it returns is the one stored in
    [self._su_labels], not a copy. *)
Definition _compute_su_labels : M (list float) :=
  self ← get;
  match _su_labels self with
  | None =>
      X ← get_X_;
      num_features ← lift (np.shape1 X);
      set_su_labels (Some (np.zeros num_features));;
      for_range num_features (λ col,
        X ← get_X_;
        x ← lift (np.column X col);
        y ← get_y_;
        su ← lift (Metrics.symmetrical_uncertainty x y);
        su_labels_setitem col su)
  | Some _ => mret ()
  end;;
  su_labels_array.

(** [MFS._compute_su_features(feature_a, feature_b)] *)
Definition _compute_su_features (feature_a feature_b : nat) : M float :=
  self ← get;
  match _su_features self !! (feature_a, feature_b) with
  | Some su => mret su
  | None =>
      X ← get_X_;
      xa ← lift (np.column X feature_a);
      xb ← lift (np.column X feature_b);
      su ← lift (Metrics.symmetrical_uncertainty xa xb);
      self ← get;
      set_su_features (<[(feature_a, feature_b) := su]> (_su_features self));;
      mret su
  end.

(** The loop of [_compute_merit] over the pairs: [rff += ...]. *)
Fixpoint merit_rff (rff : float) (pairs : list (nat * nat)) : M float :=
  match pairs with
  | [] => mret rff
  | (a, b) :: pairs' =>
      su ← _compute_su_features a b;
      merit_rff (rff + su)%fl pairs'
  end.

(** [MFS._compute_merit(features)] *)
Definition _compute_merit (features : list nat) : M float :=
  l ← su_labels_array;
  sel ← lift (mapM (getitem l) features);
  let rcf := np.sum sel in
  let k := length features in
  rff ← merit_rff (Fin 0) (combinations2 features);
  d ← lift (math.sqrt (Float.of_nat k + Float.of_nat (k ^ 2 - k) * rff)%fl);
  mret (rcf / d)%fl.

(** The [for idx, feature in enumerate(feature_order)] loop of [cfs]:
    every remaining feature is appended to the candidates in turn, and the
    first one with the greatest merit above [merit] is recorded. *)
Fixpoint cfs_expand (candidates feature_order : list nat) (idx : nat)
    (merit : float) (id_selected : option nat) : M (float * option nat) :=
  match feature_order with
  | [] => mret (merit, id_selected)
  | feature :: feature_order' =>
      merit_new ← _compute_merit (candidates ++ [feature]);
      if (merit_new >? merit)%fl
      then cfs_expand candidates feature_order' (S idx) merit_new (Some idx)
      else cfs_expand candidates feature_order' (S idx) merit id_selected
  end.

(** The [for item in self._scores[-5:]] loop of [cfs]; [true] when it runs
    to its end without [break], which is when the [else] branch is taken. *)
Fixpoint stagnation_scan (item_ant : float) (items : list float) : bool :=
  match items with
  | [] => true
  | item :: items' =>
      let item_ant := if (item_ant =? Fin (-1))%fl then item else item_ant in
      if (item >? item_ant)%fl then false
      else stagnation_scan item items'
  end.

(** One pass through the body of the [while] loop of [cfs]; it returns
    [continue_condition] and the two lists the loop updates. *)
Definition cfs_iteration (candidates feature_order : list nat)
    : M (bool * list nat * list nat) :=
  '(merit, id_selected) ← cfs_expand candidates feature_order 0 float_info.min None;
  match id_selected with
  | None => raise (TypeError "list indices must be integers or slices, not NoneType")
  | Some id_selected =>
      feature ← lift (getitem feature_order id_selected);
      let candidates := candidates ++ [feature] in
      scores_append merit;;
      let feature_order := delete id_selected feature_order in
      let continue_condition := true in
      let continue_condition :=
        if decide (length feature_order = 0) then false
        else continue_condition in
      self ← get;
      let continue_condition :=
        if decide (5 ≤ length (_scores self)) then
          if stagnation_scan (Fin (-1)) (drop (length (_scores self) - 5) (_scores self))
          then false
          else continue_condition
        else continue_condition in
      mret (continue_condition, candidates, feature_order)
  end.

(** The [while continue_condition] loop of [cfs].  Each pass removes one
    feature from [feature_order], so [length feature_order] passes after the
    first are enough; [OutOfFuel] marks a budget that was too small. *)
Fixpoint cfs_while (fuel : nat) (candidates feature_order : list nat)
    : M (list nat) :=
  '(continue_condition, candidates, feature_order) ← cfs_iteration candidates feature_order;
  if continue_condition : bool then
    match fuel with
    | 0 => raise OutOfFuel
    | S fuel' => cfs_while fuel' candidates feature_order
    end
  else mret candidates.

(** The inner loop of [fcbs]: [for index_q in feature_dup]. *)
Fixpoint fcbs_dominance (index_p : nat) (feature_dup : list nat) : M () :=
  match feature_dup with
  | [] => mret ()
  | index_q :: feature_dup' =>
      su_pq ← _compute_su_features index_p index_q;
      s_q ← su_labels_getitem index_q;
      (if (su_pq >=? s_q)%fl then su_labels_setitem index_q (Fin 0)
       else mret ());;
      fcbs_dominance index_p feature_dup'
  end.

(** The outer loop of [fcbs]: [for index_p in feature_order].  [s_list] is
    the array object of [self._su_labels], so it is read and written
    through that attribute. *)
Fixpoint fcbs_loop (threshold : float) (feature_order feature_dup : list nat)
    : M () :=
  match feature_order with
  | [] => mret ()
  | index_p :: feature_order' =>
      match feature_dup with
      | [] => raise (IndexError "pop from empty list")
      | _ :: feature_dup' =>
          s_p ← su_labels_getitem index_p;
          if (s_p =? Fin 0)%fl then fcbs_loop threshold feature_order' feature_dup'
          else
            s_p ← su_labels_getitem index_p;
            if (s_p <? threshold)%fl then mret ()
            else
              fcbs_dominance index_p feature_dup';;
              result_append index_p;;
              s_p ← su_labels_getitem index_p;
              scores_append s_p;;
              fcbs_loop threshold feature_order' feature_dup'
      end
  end.

Section search.

(** [numpy.argsort] on a vector of doubles. *)
Variable argsort : list float → list nat.

(** [MFS.cfs(X, y)] *)
Definition cfs (X y : ndarray) : M () :=
  _initialize;;
  set_X_ X;;
  set_y_ y;;
  s_list ← _compute_su_labels;
  let feature_order := argsort (Float.neg <$> s_list) in
  match feature_order with
  | [] => raise (IndexError "pop from empty list")
  | first_candidate :: feature_order =>
      let candidates := [first_candidate] in
      s_first ← su_labels_getitem first_candidate;
      scores_append s_first;;
      candidates ← cfs_while (length feature_order) candidates feature_order;
      set_result (Some candidates)
  end.

(** [MFS.fcbs(X, y, threshold)] *)
Definition fcbs (X y : ndarray) (threshold : float) : M () :=
  if (threshold <? Fin (1 / 10000))%fl
  then raise (ValueError "Threshold cannot be less than 1e-4")
  else
    _initialize;;
    set_X_ X;;
    set_y_ y;;
    s_list ← _compute_su_labels;
    let feature_order := argsort (Float.neg <$> s_list) in
    let feature_dup := feature_order in
    set_result (Some []);;
    fcbs_loop threshold feature_order feature_dup.

End search.

(** [MFS.get_results] and [MFS.get_scores] *)
Definition get_results (self : t) : option (list nat) := _result self.
Definition get_scores (self : t) : list float := _scores self.

End MFS.

(** ** Vocabulary of the specification

    The predicates and the small data sets the properties of Part II are
    stated with. *)

Module Spec.

Import MFS.

(** The key of index [i], and the order of indices by key. *)
Definition key_of (keys : list float) (i : nat) : float :=
  default NaN (keys !! i).

Definition key_rel (keys : list float) : relation nat :=
  λ a b, np.key_le (key_of keys a) (key_of keys b) = true.

(** A finite double that is not negative. *)
Definition fin_nonneg (x : float) : Prop := ∃ r, x = Fin r ∧ (0 <= r)%R.

(** The sum [entropy] divides by the logarithm of the base. *)
Definition entropy_total (y : ndarray) : float :=
  np.sum ((λ p, p * np.log (Fin 1 / p))%fl <$>
    List.filter (λ p, p >? Fin 0)%fl
      ((λ c, Float.of_nat c / Float.of_nat (np.len y))%fl <$> (np.unique y).2)).

(** The entropy in closed form: the sum over the counts [c] of
    [c/n * ln (1 / (c/n))], divided by the logarithm of the base. *)
Definition entropy_sum (counts : list nat) (n : nat) : R :=
  foldl (λ acc c, acc + INR c / INR n * ln (1 / (INR c / INR n)))%R 0%R counts.

(** The attributes after the first three statements of [cfs] and [fcbs]. *)
Definition start (X y : ndarray) : t := mk None [] None ∅ (Some X) (Some y).

(** The error [fcbs] raises for a threshold below 1e-4. *)
Definition threshold_error : exn :=
  ValueError "Threshold cannot be less than 1e-4".

(** [s'] differs from [s] at most in the pairwise cache. *)
Definition frame (s s' : t) : Prop :=
  _result s' = _result s ∧ _scores s' = _scores s ∧
  _su_labels s' = _su_labels s ∧ X_ s' = X_ s ∧ y_ s' = y_ s.

(** The two errors that only the guard of [fcbs] and the fuel of the loop
    of [cfs] raise. *)
Definition foreign (e : exn) : Prop := e = threshold_error ∨ e = OutOfFuel.

(** [r] is a value, or an error other than those two. *)
Definition benign {A} (r : result A) : Prop := ∀ e, r = Raise e → ¬ foreign e.

(** [m] relates the attributes before and after by [R], and raises neither
    of those two errors. *)
Definition preserves {A} (R : relation t) (m : M A) : Prop :=
  ∀ s r s', m s = (r, s') → R s s' ∧ benign r.

(** The symmetrical uncertainty of two features of [X], and of a feature
    and the labels. *)
Definition su_features_of (X : ndarray) (a b : nat) : result float :=
  xa ← np.column X a; xb ← np.column X b;
  Metrics.symmetrical_uncertainty xa xb.

Definition su_label_of (X y : ndarray) (col : nat) : result float :=
  x ← np.column X col; Metrics.symmetrical_uncertainty x y.

(** Every entry of the pairwise cache is the symmetrical uncertainty of its
    pair of features. *)
Definition cache_ok (X : ndarray) (c : gmap (nat * nat) float) : Prop :=
  ∀ a b v, c !! (a, b) = Some v → su_features_of X a b = Ok v.

(** [s'] differs from [s] at most in [_su_labels]. *)
Definition same_but_labels (s s' : t) : Prop :=
  _result s' = _result s ∧ _scores s' = _scores s ∧
  _su_features s' = _su_features s ∧ X_ s' = X_ s ∧ y_ s' = y_ s.

(** The body of the loop of [_compute_su_labels]. *)
Definition su_labels_body (col : nat) : M () :=
  X ← get_X_;
  x ← lift (np.column X col);
  y ← get_y_;
  su ← lift (Metrics.symmetrical_uncertainty x y);
  su_labels_setitem col su.

(** [l] is [l0] with some entries overwritten by 0.0. *)
Definition zeroed (l0 l : list float) : Prop :=
  Forall2 (λ v0 v, v = v0 ∨ v = Fin 0) l0 l.

(** [s'] differs from [s] at most in [_su_labels] and in the pairwise
    cache. *)
Definition fcbs_frame (s s' : t) : Prop :=
  _result s' = _result s ∧ _scores s' = _scores s ∧
  X_ s' = X_ s ∧ y_ s' = y_ s.

(** The attributes that let the loops of [fcbs] run: the matrix is there,
    the label-correlation vector has an entry for each of its [n] columns,
    and a result list has been started. *)
Definition fcbs_ready (n : nat) (s : t) : Prop :=
  (∃ rows, X_ s = Some (Mat n rows)) ∧
  (∃ l, _su_labels s = Some l ∧ length l = n) ∧
  is_Some (_result s).

(** [m] is the merit of [candidates] extended by a feature of [pool], as
    [_compute_merit] computes it from the label-correlation vector [l]. *)
Definition merit_of (l : list float) (candidates pool : list nat) (m : float)
    : Prop :=
  ∃ f sel x d, f ∈ pool ∧ mapM (getitem l) (candidates ++ [f]) = Ok sel ∧
    math.sqrt x = Ok d ∧ m = (np.sum sel / d)%fl.

(** [continue_condition] at the end of a pass of the [while] loop, from the
    remaining pool and the score trace. *)
Definition continue_after (feature_order : list nat) (scores : list float)
    : bool :=
  let continue_condition := true in
  let continue_condition :=
    if decide (length feature_order = 0) then false else continue_condition in
  if decide (5 ≤ length scores) then
    if stagnation_scan (Fin (-1)) (drop (length scores - 5) scores) then false
    else continue_condition
  else continue_condition.

(** "No two consecutive entries show a strict increase." *)
Definition non_increasing (w : list float) : Prop :=
  ∀ i a b, w !! i = Some a → w !! S i = Some b → (b >? a)%fl = false.

(** The score trace has at least 5 entries and its last 5 entries are
    non-increasing. *)
Definition stagnant (scores : list float) : Prop :=
  5 ≤ length scores ∧ non_increasing (drop (length scores - 5) scores).

(** The stopping rule, looked at when the score trace had [j] entries, for
    [n] features in all: the pool is exhausted, or the trace is stagnant. *)
Definition stop_at (n : nat) (scores : list float) (j : nat) : Prop :=
  j = n ∨ stagnant (take j scores).

(** A score that is not the sentinel -1 of the stagnation check. *)
Definition not_sentinel (x : float) : Prop := (x =? Fin (-1))%fl = false.

(** [argsort] returns a permutation of the indices of its argument. *)
Definition argsort_permutes (argsort : list float → list nat) : Prop :=
  ∀ keys, argsort keys ≡ₚ seq 0 (length keys).

(** [argsort] returns the indices in ascending order of key, NaN last. *)
Definition argsort_sorts (argsort : list float → list nat) : Prop :=
  ∀ keys i j a b ka kb,
    i < j → argsort keys !! i = Some a → argsort keys !! j = Some b →
    keys !! a = Some ka → keys !! b = Some kb → np.key_le ka kb = true.

(** The relation that holds between any two states. *)
Definition any_state : relation t := λ _ _, True.

(** Two copies of one binary feature, and its values as labels. *)
Definition X_twins : ndarray := Mat 2 [[0; 0]; [1; 1]]%Z.

Definition y_binary : ndarray := Vec [0; 1]%Z.

(** One constant feature with constant labels. *)
Definition X_constant : ndarray := Mat 1 [[0]; [0]]%Z.

Definition y_constant : ndarray := Vec [0; 0]%Z.

(** The attributes of an object whose label-correlation vector has been
    computed for the twin features, with an empty pairwise cache. *)
Definition twins_ready : t :=
  mk None [] (Some [Fin 1; Fin 1]) ∅ (Some X_twins) (Some y_binary).

(** The number of times the row [r] occurs in [l]. *)
Definition occ (r : list Z) (l : list (list Z)) : nat :=
  count_occ (λ a b, decide (a = b)) l r.

(** The sum of a list of reals. *)
Definition Rsum (l : list R) : R := foldr Rplus 0%R l.

(** The information, in nats, of a symbol seen [c] times among [n]. *)
Definition surprise (n c : nat) : R := ln (INR n / INR c).

(** The entropy in nats as the mean surprise of the samples. *)
Definition sample_entropy (l : list (list Z)) : R :=
  Rsum ((λ r, surprise (length l) (occ r l) / INR (length l))%R <$> l).

(** The rows [np.c_] builds from the rows of two arrays. *)
Definition joint (lx ly : list (list Z)) : list (list Z) := zip_with app lx ly.

(** Every row of [l] has [k] entries. *)
Definition uniform (k : nat) (l : list (list Z)) : Prop :=
  Forall (λ r, length r = k) l.

(** The product of the numbers of occurrences of the two halves of a joint
    row, the first half having [k] entries. *)
Definition pair_weight (k : nat) (lx ly : list (list Z)) (j : list Z) : R :=
  (INR (occ (take k j) lx) * INR (occ (drop k j) ly))%R.

(** The joint rows that the distinct rows of two arrays can form. *)
Definition row_product (lx ly : list (list Z)) : list (list Z) :=
  rx ← remove_dups lx; app rx <$> remove_dups ly.

(** All the entries of [a] along the first axis are equal. *)
Definition constant (a : ndarray) : Prop :=
  ∀ r r', r ∈ np.as_rows a → r' ∈ np.as_rows a → r' = r.

(** The entropy of the rows [l] in units of [ln base]. *)
Definition Hrows (base : R) (l : list (list Z)) : R :=
  (sample_entropy l / ln base)%R.

(** The error [np.c_] raises for arrays of different lengths. *)
Definition length_error : exn :=
  ValueError "all the input array dimensions except for the concatenation axis must match exactly".

(** The error [math.log] raises for a base that is not positive. *)
Definition domain_error : exn := ValueError "math domain error".

(** A double that is NaN or a number between 0 and 1. *)
Definition unit_or_nan (v : float) : Prop :=
  v = NaN ∨ ∃ r, v = Fin r ∧ (0 <= r <= 1)%R.

(** The attributes with [_su_labels] replaced. *)
Definition with_labels (s : t) (l : list float) : t :=
  mk (_result s) (_scores s) (Some l) (_su_features s) (X_ s) (y_ s).

(** The error of [feature_order[id_selected]] with nothing selected. *)
Definition none_index_error : exn :=
  TypeError "list indices must be integers or slices, not NoneType".

(** The error of [feature_order.pop(0)] on an empty list. *)
Definition pop_error : exn := IndexError "pop from empty list".

(** A double that is NaN or a number that is not negative. *)
Definition nonneg_or_nan (v : float) : Prop :=
  v = NaN ∨ ∃ r, v = Fin r ∧ (0 <= r)%R.

(** The attributes the loop of [cfs] runs with: the matrix, the
    label-correlation vector with an entry for each column, and a pairwise
    cache that holds symmetrical uncertainties of the matrix only. *)
Definition cfs_ready (n : nat) (rows : list (list Z)) (l : list float)
    (s : t) : Prop :=
  X_ s = Some (Mat n rows) ∧ _su_labels s = Some l ∧ length l = n ∧
  cache_ok (Mat n rows) (_su_features s).

(** The merit of a list of features, from the matrix and the
    label-correlation vector alone. *)
Definition merit_value (X : ndarray) (l : list float) (features : list nat)
    : result float :=
  sel ← mapM (getitem l) features;
  vals ← mapM (λ p, su_features_of X p.1 p.2) (combinations2 features);
  let k := length features in
  d ← math.sqrt (Float.of_nat k + Float.of_nat (k ^ 2 - k) * np.sum vals)%fl;
  Ok (np.sum sel / d)%fl.

(** The scan of [cfs_expand] over the merits of the pool. *)
Fixpoint best (idx : nat) (merit : float) (id_selected : option nat)
    (merits : list float) : float * option nat :=
  match merits with
  | [] => (merit, id_selected)
  | merit_new :: merits' =>
      if (merit_new >? merit)%fl then best (S idx) merit_new (Some idx) merits'
      else best (S idx) merit id_selected merits'
  end.

(** The merits of the candidates as they grow by the features of [picked],
    one at a time. *)
Fixpoint merit_trace (X : ndarray) (l : list float) (c picked : list nat)
    : list (result float) :=
  match picked with
  | [] => []
  | f :: picked' =>
      merit_value X l (c ++ [f]) :: merit_trace X l (c ++ [f]) picked'
  end.

(** Why the feature [f], ranked [j]-th in [order] with score [v], is not
    in the result [r]: its score is 0.0; or a feature of the result ranked
    before it has a symmetrical uncertainty with it that reaches [v]; or
    the loop stopped at a feature ranked no later, whose score is not 0.0
    and is below the threshold. *)
Definition left_out (X : ndarray) (threshold : float) (l : list float)
    (order r : list nat) (j f : nat) (v : float) : Prop :=
  (v =? Fin 0)%fl = true ∨
  (∃ i p su, i < j ∧ order !! i = Some p ∧ p ∈ r ∧
     su_features_of X p f = Ok su ∧ (su >=? v)%fl = true) ∨
  (∃ k g vg, k ≤ j ∧ order !! k = Some g ∧ l !! g = Some vg ∧
     (vg =? Fin 0)%fl = false ∧ (vg <? threshold)%fl = true).

(** Two independent binary features, and labels that tell the four rows
    apart. *)
Definition X_pair : ndarray := Mat 2 [[0; 0]; [0; 1]; [1; 0]; [1; 1]]%Z.

Definition y_four : ndarray := Vec [0; 1; 2; 3]%Z.

(** Two constant features. *)
Definition X_flat : ndarray := Mat 2 [[0; 0]; [0; 0]]%Z.

(** One binary feature. *)
Definition X_single : ndarray := Mat 1 [[0]; [1]]%Z.

(** One binary feature and two constant ones. *)
Definition X_three : ndarray := Mat 3 [[0; 0; 0]; [1; 0; 0]]%Z.

(** Six copies of one binary feature. *)
Definition X_six : ndarray :=
  Mat 6 [[0; 0; 0; 0; 0; 0]; [1; 1; 1; 1; 1; 1]]%Z.

End Spec.

(** * Part II: properties *)

(** ** Doubles *)

Module FloatFacts.

Import Spec.

Lemma ltb_Fin (a b : R) : (Fin a <? Fin b)%fl = bool_decide (a < b)%R.
Proof. reflexivity. Qed.

Lemma ltb_irrefl (x : float) : (x <? x)%fl = false.
Proof.
  destruct x; simpl; try reflexivity.
  apply bool_decide_eq_false. lra.
Qed.

Lemma ltb_trans (x y z : float) :
  (x <? y)%fl = true → (y <? z)%fl = true → (x <? z)%fl = true.
Proof.
  destruct x, y, z; simpl; try congruence.
  rewrite !bool_decide_eq_true. lra.
Qed.

Lemma gtb_trans (x y z : float) :
  (x >? y)%fl = true → (y >? z)%fl = true → (x >? z)%fl = true.
Proof. unfold Float.gtb. intros H1 H2. exact (ltb_trans _ _ _ H2 H1). Qed.

Lemma add_Fin_0_l (x : float) : (Fin 0 + x)%fl = x.
Proof. destruct x; simpl; try reflexivity. f_equal. lra. Qed.

Lemma div_Fin_1_r (x : float) : (x / Fin 1)%fl = x.
Proof.
  destruct x; simpl; try reflexivity.
  - rewrite decide_False by lra. reflexivity.
  - rewrite decide_False by lra. reflexivity.
  - rewrite decide_False by lra. f_equal. lra.
Qed.

Lemma min_pos : (0 < / 2 ^ 1022)%R.
Proof. apply Rinv_0_lt_compat, pow_lt. lra. Qed.

(** A value above [float_info.min] is +inf or a positive real. *)
Lemma gtb_min_pos (x : float) :
  (x >? float_info.min)%fl = true → x = PInf ∨ ∃ r, x = Fin r ∧ (0 < r)%R.
Proof.
  unfold Float.gtb, float_info.min. destruct x; simpl; try congruence.
  - auto.
  - rewrite bool_decide_eq_true. intros H. right. exists r. split; [done|].
    pose proof min_pos. lra.
Qed.

Lemma gtb_min_Fin (r : R) :
  (1 / 2 <= r)%R → (Fin r >? float_info.min)%fl = true.
Proof.
  intros Hr. unfold Float.gtb, float_info.min. simpl.
  apply bool_decide_eq_true.
  assert (/ 2 ^ 1022 <= / 2 ^ 1)%R as H.
  { apply Rinv_le_contravar; [apply pow_lt; lra|]. apply Rle_pow; [lra|lia]. }
  assert (/ 2 ^ 1 < 1 / 2 + 1 / 4)%R as H' by (simpl; lra).
  assert (/ 2 ^ 1 = 1 / 2)%R as H'' by (simpl; lra).
  lra.
Qed.

Lemma geb_not_ltb (x y : float) : (x >=? y)%fl = true → (x <? y)%fl = false.
Proof.
  unfold Float.geb, Float.leb. destruct x, y; simpl; try done.
  rewrite orb_true_iff, !bool_decide_eq_true. intros H.
  apply bool_decide_eq_false. lra.
Qed.

(** "Not below" is "at least", except for NaN. *)
Lemma not_ltb_geb (x y : float) :
  (x <? y)%fl = false → Float.is_nan y = false →
  x = NaN ∨ (x >=? y)%fl = true.
Proof.
  unfold Float.geb, Float.leb. destruct x, y; simpl; try done; auto.
  rewrite bool_decide_eq_false. intros H _. right.
  apply orb_true_iff. rewrite !bool_decide_eq_true. lra.
Qed.

Lemma geb_not_nan (x y : float) : (x >=? y)%fl = true → Float.is_nan x = false.
Proof. by destruct x, y. Qed.

Lemma sqrt_range (x d : float) :
  math.sqrt x = Ok d → d = NaN ∨ d = PInf ∨ ∃ q, d = Fin q ∧ (0 <= q)%R.
Proof.
  unfold math.sqrt. destruct x; try (intros [= <-]; auto); try done.
  case_decide; [done|]. intros [= <-]. right. right.
  eexists. split; [done|]. apply sqrt_pos.
Qed.

(** A quotient by a square root lies above [float_info.min] only when the
    numerator is positive. *)
Lemma div_sqrt_gtb_min (a x d : float) :
  math.sqrt x = Ok d → (a / d >? float_info.min)%fl = true →
  a = PInf ∨ ∃ r, a = Fin r ∧ (0 < r)%R.
Proof.
  intros Hd Hgt. apply gtb_min_pos in Hgt.
  apply sqrt_range in Hd as [->|[->|(q & -> & Hq)]].
  - destruct a; simpl in Hgt; destruct Hgt as [?|(? & ? & ?)]; done.
  - destruct a; simpl in Hgt; destruct Hgt as [?|(? & [= <-] & ?)]; try done. lra.
  - destruct a as [| | |r]; simpl in Hgt.
    + destruct Hgt as [?|(? & ? & ?)]; done.
    + by left.
    + rewrite decide_False in Hgt by lra. destruct Hgt as [?|(? & ? & ?)]; done.
    + right. exists r. split; [done|]. destruct (decide (q = 0%R)) as [->|Hne].
      * unfold Float.inf_of_sign in Hgt. destruct (decide (0 < r)%R); [done|].
        destruct (decide (r < 0)%R); destruct Hgt as [?|(? & ? & ?)]; done.
      * destruct Hgt as [?|(r' & [= <-] & Hr')]; [done|].
        assert (0 < q)%R as Hq' by lra.
        assert (r = r / q * q)%R as -> by (field; lra).
        by apply Rmult_lt_0_compat.
Qed.

End FloatFacts.

(** ** The numpy pieces *)

Module npFacts.

Import Spec.

Lemma row_leb_refl (r : list Z) : np.row_leb r r = true.
Proof.
  induction r as [|a r IH]; simpl; [done|].
  rewrite Z.eqb_refl, IH. apply orb_true_r.
Qed.

Lemma row_leb_total (r1 r2 : list Z) :
  np.row_leb r1 r2 = true ∨ np.row_leb r2 r1 = true.
Proof.
  revert r2. induction r1 as [|a r1 IH]; intros [|b r2]; simpl; auto.
  destruct (Z.ltb_spec a b), (Z.ltb_spec b a); simpl; auto; try lia.
  assert (a = b) as -> by lia. rewrite Z.eqb_refl. simpl. apply IH.
Qed.

Lemma row_leb_trans (r1 r2 r3 : list Z) :
  np.row_leb r1 r2 = true → np.row_leb r2 r3 = true → np.row_leb r1 r3 = true.
Proof.
  revert r2 r3. induction r1 as [|a r1 IH]; intros [|b r2] [|c r3]; simpl; try done.
  intros H1 H2.
  apply orb_true_iff in H1 as [H1|H1]; apply orb_true_iff in H2 as [H2|H2];
    rewrite ?andb_true_iff in *; apply orb_true_iff.
  - left. apply Z.ltb_lt. apply Z.ltb_lt in H1, H2. lia.
  - left. destruct H2 as [H2 _]. apply Z.ltb_lt. apply Z.ltb_lt in H1.
    apply Z.eqb_eq in H2. lia.
  - left. destruct H1 as [H1 _]. apply Z.ltb_lt. apply Z.ltb_lt in H2.
    apply Z.eqb_eq in H1. lia.
  - right. destruct H1 as [H1 H1'], H2 as [H2 H2'].
    apply Z.eqb_eq in H1, H2. subst. rewrite Z.eqb_refl. simpl.
    eapply IH; eauto.
Qed.

Lemma row_leb_antisym (r1 r2 : list Z) :
  np.row_leb r1 r2 = true → np.row_leb r2 r1 = true → r1 = r2.
Proof.
  revert r2. induction r1 as [|a r1 IH]; intros [|b r2]; simpl; try done.
  intros H1 H2.
  apply orb_true_iff in H1 as [H1|H1]; apply orb_true_iff in H2 as [H2|H2];
    rewrite ?andb_true_iff in *.
  - apply Z.ltb_lt in H1, H2. lia.
  - destruct H2 as [H2 _]. apply Z.ltb_lt in H1. apply Z.eqb_eq in H2. lia.
  - destruct H1 as [H1 _]. apply Z.ltb_lt in H2. apply Z.eqb_eq in H1. lia.
  - destruct H1 as [H1 H1'], H2 as [H2 H2']. apply Z.eqb_eq in H1. subst.
    f_equal. by apply IH.
Qed.

#[global] Instance row_le_total : Total np.row_le.
Proof. intros r1 r2. apply row_leb_total. Qed.
#[global] Instance row_le_trans : Transitive np.row_le.
Proof. intros r1 r2 r3. apply row_leb_trans. Qed.
#[global] Instance row_le_antisym : AntiSymm (=) np.row_le.
Proof. intros r1 r2. apply row_leb_antisym. Qed.

(** Sorting forgets the order of the input. *)
Lemma merge_sort_perm (l1 l2 : list (list Z)) :
  l1 ≡ₚ l2 → merge_sort np.row_le l1 = merge_sort np.row_le l2.
Proof.
  intros Hp. apply (Sorted_unique np.row_le).
  - apply Sorted_merge_sort, _.
  - apply Sorted_merge_sort, _.
  - by rewrite !merge_sort_Permutation.
Qed.

Lemma len_as_rows (a : ndarray) : length (np.as_rows a) = np.len a.
Proof. destruct a; simpl; [apply length_fmap | done]. Qed.

Lemma unique_perm (a1 a2 : ndarray) :
  np.as_rows a1 ≡ₚ np.as_rows a2 → np.unique a1 = np.unique a2.
Proof. intros Hp. unfold np.unique. by rewrite (merge_sort_perm _ _ Hp). Qed.

Lemma run_lengths_pos (l : list (list Z)) :
  Forall (λ c, 1 ≤ c) (np.run_lengths l).*2.
Proof.
  induction l as [|r l IH]; simpl; [constructor|].
  destruct (np.run_lengths l) as [|[r' c] g]; simpl in *.
  - repeat constructor.
  - inversion_clear IH. case_decide; simpl; repeat constructor; auto; lia.
Qed.

Lemma run_lengths_sum (l : list (list Z)) :
  sum_list (np.run_lengths l).*2 = length l.
Proof.
  induction l as [|r l IH]; simpl; [done|].
  destruct (np.run_lengths l) as [|[r' c] g]; simpl in *.
  - by rewrite <- IH.
  - case_decide; simpl; lia.
Qed.

Lemma elem_le_sum_list (l : list nat) (c : nat) : c ∈ l → c ≤ sum_list l.
Proof.
  induction 1; simpl; lia.
Qed.

(** Every count of [np.unique] is at least 1 and at most [len]. *)
Lemma unique_counts_bounds (a : ndarray) :
  Forall (λ c, 1 ≤ c ≤ np.len a) (np.unique a).2.
Proof.
  unfold np.unique. simpl.
  set (s := merge_sort np.row_le (np.as_rows a)).
  assert (length s = np.len a) as Hlen.
  { unfold s. rewrite <- len_as_rows.
    apply Permutation_length, merge_sort_Permutation. }
  pose proof (run_lengths_pos s) as Hpos.
  pose proof (run_lengths_sum s) as Hsum.
  rewrite Forall_forall in Hpos. apply Forall_forall. intros c Hc.
  split; [by apply Hpos|]. rewrite <- Hlen, <- Hsum. by apply elem_le_sum_list.
Qed.

(** [np.argsort], the stable one *)

Lemma leb_total (x y : float) :
  Float.is_nan x = false → Float.is_nan y = false →
  (x <=? y)%fl = true ∨ (y <=? x)%fl = true.
Proof.
  unfold Float.leb. destruct x, y; simpl; try done; auto.
  intros _ _. rewrite !orb_true_iff, !bool_decide_eq_true.
  destruct (Rtotal_order r r0) as [?|[?|?]]; auto.
Qed.

Lemma leb_trans (x y z : float) :
  (x <=? y)%fl = true → (y <=? z)%fl = true → (x <=? z)%fl = true.
Proof.
  unfold Float.leb. destruct x, y, z; simpl; try done.
  rewrite !orb_true_iff, !bool_decide_eq_true. lra.
Qed.

Lemma leb_not_nan (x y : float) :
  (x <=? y)%fl = true → Float.is_nan x = false ∧ Float.is_nan y = false.
Proof. by destruct x, y. Qed.

Lemma key_le_total (x y : float) :
  np.key_le x y = true ∨ np.key_le y x = true.
Proof.
  unfold np.key_le. destruct (Float.is_nan y) eqn:Hy; [by left|].
  destruct (Float.is_nan x) eqn:Hx; [by right|]. simpl.
  by apply leb_total.
Qed.

Lemma key_le_trans (x y z : float) :
  np.key_le x y = true → np.key_le y z = true → np.key_le x z = true.
Proof.
  unfold np.key_le. destruct (Float.is_nan z) eqn:Hz; [done|]. simpl.
  intros Hxy Hyz. destruct (leb_not_nan _ _ Hyz) as [Hy _].
  rewrite Hy in Hxy. simpl in Hxy. by eapply leb_trans.
Qed.

Section argsort.

Variable keys : list float.

#[local] Abbreviation key_of := (Spec.key_of keys).
#[local] Abbreviation key_rel := (Spec.key_rel keys).

#[global] Instance key_rel_trans : Transitive key_rel.
Proof. intros a b c. apply key_le_trans. Qed.

Lemma insert_index_perm (i : nat) (order : list nat) :
  np.insert_index keys i order ≡ₚ i :: order.
Proof.
  induction order as [|j order IH]; simpl; [done|].
  destruct (np.key_le _ _); [done|]. rewrite IH. apply Permutation_swap.
Qed.

Lemma insert_index_hd (i j : nat) (order : list nat) :
  key_rel j i → HdRel key_rel j order →
  HdRel key_rel j (np.insert_index keys i order).
Proof.
  intros Hji Hhd. destruct order as [|k order]; simpl; [by constructor|].
  destruct (np.key_le _ _); constructor; [done|]. by inversion Hhd.
Qed.

Lemma insert_index_sorted (i : nat) (order : list nat) :
  Sorted key_rel order → Sorted key_rel (np.insert_index keys i order).
Proof.
  induction 1 as [|j order Hs IH Hhd]; simpl; [by repeat constructor|].
  destruct (np.key_le _ _) eqn:Hle.
  - constructor; [by constructor|]. by constructor.
  - constructor; [done|]. apply insert_index_hd; [|done].
    destruct (key_le_total (key_of i) (key_of j)) as [H|H]; [|done].
    unfold Spec.key_rel, Spec.key_of in *. congruence.
Qed.

Lemma foldr_insert_perm (l : list nat) :
  foldr (np.insert_index keys) [] l ≡ₚ l.
Proof.
  induction l as [|i l IH]; simpl; [done|].
  by rewrite insert_index_perm, IH.
Qed.

Lemma foldr_insert_sorted (l : list nat) :
  Sorted key_rel (foldr (np.insert_index keys) [] l).
Proof.
  induction l as [|i l IH]; simpl; [constructor|]. by apply insert_index_sorted.
Qed.

End argsort.

Lemma StronglySorted_lookup {A} (R : relation A) (l : list A) (i j : nat) (a b : A) :
  StronglySorted R l → i < j → l !! i = Some a → l !! j = Some b → R a b.
Proof.
  intros Hs. revert i j. induction Hs as [|x l Hs IH Hx]; intros i j Hij Ha Hb;
    [done|].
  destruct j as [|j]; [lia|]. simpl in Hb. destruct i as [|i]; simpl in Ha.
  - injection Ha as <-. rewrite Forall_forall in Hx. apply Hx.
    by eapply list_elem_of_lookup_2.
  - apply (IH i j); [lia|done..].
Qed.

Lemma argsort_perm (keys : list float) :
  np.argsort keys ≡ₚ seq 0 (length keys).
Proof. apply foldr_insert_perm. Qed.

Lemma argsort_sorted (keys : list float) (i j a b : nat) (ka kb : float) :
  i < j → np.argsort keys !! i = Some a → np.argsort keys !! j = Some b →
  keys !! a = Some ka → keys !! b = Some kb → np.key_le ka kb = true.
Proof.
  intros Hij Ha Hb Hka Hkb.
  pose proof (foldr_insert_sorted keys (seq 0 (length keys))) as Hs.
  apply (Sorted_StronglySorted (key_rel keys)) in Hs.
  pose proof (StronglySorted_lookup _ _ i j a b Hs Hij Ha Hb) as H.
  unfold Spec.key_rel, Spec.key_of in H. by rewrite Hka, Hkb in H.
Qed.

Lemma sum_fin_nonneg (l : list float) :
  Forall fin_nonneg l → fin_nonneg (np.sum l).
Proof.
  unfold np.sum. assert (fin_nonneg (Fin 0)) as H0 by (exists 0%R; split; [done|lra]).
  revert H0. generalize (Fin 0). induction l as [|x l IH]; intros acc Hacc Hl; simpl; [done|].
  inversion_clear Hl as [|?? Hx Hl']. apply IH; [|done].
  destruct Hacc as (a & -> & Ha), Hx as (b & -> & Hb). exists (a + b)%R.
  split; [done|lra].
Qed.

End npFacts.


(** ** Metrics *)

Lemma result_bind_Ok {A B} (a : A) (f : A → result B) : (Ok a ≫= f) = f a.
Proof. reflexivity. Qed.

Lemma result_bind_Raise {A B} (e : exn) (f : A → result B) :
  (Raise e ≫= f) = Raise e.
Proof. reflexivity. Qed.

Module MetricsFacts.

Import Spec npFacts.

Lemma entropy_unfold (y : ndarray) (base : R) :
  Metrics.entropy y base = lb ← math.log base; Ok (entropy_total y / lb)%fl.
Proof. reflexivity. Qed.

Lemma proba_term_nonneg (c n : nat) :
  1 ≤ c ≤ n →
  let p := (Float.of_nat c / Float.of_nat n)%fl in
  fin_nonneg (p * np.log (Fin 1 / p))%fl.
Proof.
  intros [Hc Hn]. simpl. unfold Float.of_nat.
  assert (1 <= INR c)%R as Hc' by (replace 1%R with (INR 1) by done; by apply le_INR).
  assert (INR c <= INR n)%R as Hn' by by apply le_INR.
  assert (0 < INR c / INR n)%R as Hp by (apply Rdiv_lt_0_compat; lra).
  assert (INR c / INR n <= 1)%R as Hp1.
  { unfold Rdiv. apply (Rmult_le_reg_r (INR n)); [lra|].
    rewrite Rmult_assoc, Rinv_l by lra. lra. }
  simpl. rewrite decide_False by lra. simpl.
  rewrite decide_False by lra. simpl.
  assert (1 <= 1 / (INR c / INR n))%R as Hinv.
  { unfold Rdiv at 1. rewrite Rmult_1_l. rewrite <- Rinv_1 at 1.
    apply Rinv_le_contravar; lra. }
  rewrite decide_True by lra.
  eexists. split; [reflexivity|].
  apply Rmult_le_pos; [lra|].
  rewrite <- ln_1. destruct Hinv as [Hlt|Heq].
  - left. apply ln_increasing; lra.
  - rewrite <- Heq. lra.
Qed.

Lemma entropy_total_nonneg (y : ndarray) : fin_nonneg (entropy_total y).
Proof.
  apply sum_fin_nonneg. apply Forall_fmap.
  apply List.Forall_forall. intros p Hp. apply List.filter_In in Hp as [Hp _].
  apply List.in_map_iff in Hp as (c & <- & Hc).
  pose proof (unique_counts_bounds y) as Hb. rewrite List.Forall_forall in Hb.
  apply (proba_term_nonneg c (np.len y)). by apply Hb.
Qed.

(** [entropy] returns whenever the base is positive. *)
Lemma entropy_ok (y : ndarray) (base : R) :
  (0 < base)%R → ∃ h, Metrics.entropy y base = Ok h.
Proof.
  intros Hb. rewrite entropy_unfold. unfold math.log.
  rewrite decide_True by done. simpl. eauto.
Qed.

Lemma entropy_empty_total (y : ndarray) : np.len y = 0 → entropy_total y = Fin 0.
Proof.
  intros Hlen. unfold entropy_total, np.unique.
  rewrite <- len_as_rows in Hlen. apply length_zero_iff_nil in Hlen.
  rewrite Hlen. reflexivity.
Qed.

(** C6.  For arrays [x] and [y] of the same length and a positive base,
    [entropy], [conditional_entropy] and [information_gain] all return;
    the conditional entropy is the entropy of the joint variable
    [np.c_[x, y]] minus the entropy of [x], and the information gain is
    the entropy of [y] minus the conditional entropy. *)
Theorem information_gain_identity (x y : ndarray) (base : R) :
  np.len x = np.len y → (0 < base)%R →
  ∃ xy hy hx hxy hyx,
    np.c_ x y = Ok xy ∧
    Metrics.entropy y base = Ok hy ∧
    Metrics.entropy x base = Ok hx ∧
    Metrics.entropy xy base = Ok hxy ∧
    Metrics.conditional_entropy x y base = Ok hyx ∧
    hyx = (hxy - hx)%fl ∧
    Metrics.information_gain x y base = Ok (hy - hyx)%fl.
Proof.
  intros Hlen Hb.
  assert (∃ xy, np.c_ x y = Ok xy) as [xy Hxy].
  { unfold np.c_. rewrite decide_True by done. eauto. }
  destruct (entropy_ok y base Hb) as [hy Hy].
  destruct (entropy_ok x base Hb) as [hx Hx].
  destruct (entropy_ok xy base Hb) as [hxy Hxy'].
  assert (Metrics.conditional_entropy x y base = Ok (hxy - hx)%fl) as Hc.
  { unfold Metrics.conditional_entropy. rewrite Hxy. simpl.
    rewrite Hxy'. simpl. rewrite Hx. reflexivity. }
  exists xy, hy, hx, hxy, (hxy - hx)%fl. repeat split; try done.
  unfold Metrics.information_gain. rewrite Hy. simpl. rewrite Hc. reflexivity.
Qed.

Lemma information_gain_identity_witness :
  ∃ xy hy hx hxy hyx,
    np.c_ (Vec [1; 1; 2; 2; 2]%Z) (Vec [0; 0; 0; 2; 2]%Z) = Ok xy ∧
    Metrics.entropy (Vec [0; 0; 0; 2; 2]%Z) 2 = Ok hy ∧
    Metrics.entropy (Vec [1; 1; 2; 2; 2]%Z) 2 = Ok hx ∧
    Metrics.entropy xy 2 = Ok hxy ∧
    Metrics.conditional_entropy (Vec [1; 1; 2; 2; 2]%Z) (Vec [0; 0; 0; 2; 2]%Z) 2 = Ok hyx ∧
    hyx = (hxy - hx)%fl ∧
    Metrics.information_gain (Vec [1; 1; 2; 2; 2]%Z) (Vec [0; 0; 0; 2; 2]%Z) 2 = Ok (hy - hyx)%fl.
Proof.
  apply (information_gain_identity (Vec [1; 1; 2; 2; 2]%Z) (Vec [0; 0; 0; 2; 2]%Z) 2).
  - reflexivity.
  - lra.
Defined.

(** C7.  For a base greater than 1 the entropy of any array is a finite
    number that is not negative, and it does not change when the entries
    of the array are permuted. *)
Theorem entropy_nonneg_perm (y y' : ndarray) (base : R) :
  (1 < base)%R → np.as_rows y ≡ₚ np.as_rows y' →
  (∃ h, Metrics.entropy y base = Ok (Fin h) ∧ (0 <= h)%R) ∧
  Metrics.entropy y' base = Metrics.entropy y base.
Proof.
  intros Hb Hp. split.
  - rewrite entropy_unfold. unfold math.log. rewrite decide_True by lra. simpl.
    destruct (entropy_total_nonneg y) as (t & -> & Ht).
    assert (0 < ln base)%R as Hln by (rewrite <- ln_1; apply ln_increasing; lra).
    simpl. rewrite decide_False by lra.
    eexists. split; [reflexivity|].
    apply Rmult_le_pos; [done|]. left. by apply Rinv_0_lt_compat.
  - rewrite !entropy_unfold. unfold entropy_total.
    rewrite (unique_perm y y' Hp).
    rewrite <- (len_as_rows y), <- (len_as_rows y').
    by rewrite (Permutation_length Hp).
Qed.

Lemma entropy_nonneg_perm_witness :
  (∃ h, Metrics.entropy (Vec [1; 1; 1; 5; 2; 2; 3; 3; 3]%Z) 4 = Ok (Fin h) ∧ (0 <= h)%R) ∧
  Metrics.entropy (Vec [1; 1; 1; 2; 2; 3; 3; 3; 5]%Z) 4 =
  Metrics.entropy (Vec [1; 1; 1; 5; 2; 2; 3; 3; 3]%Z) 4.
Proof.
  apply (entropy_nonneg_perm (Vec [1; 1; 1; 5; 2; 2; 3; 3; 3]%Z)
           (Vec [1; 1; 1; 2; 2; 3; 3; 3; 5]%Z) 4).
  - lra.
  - simpl. apply (bool_decide_unpack _). vm_compute. reflexivity.
Defined.

(** Against C8 as it is written: on the empty vector, [entropy] with
    base 2 raises nothing and returns 0.0. *)
Lemma entropy_empty_returns :
  Metrics.entropy (Vec []) 2 = Ok (Fin 0) ∧
  ¬ ∃ e, Metrics.entropy (Vec []) 2 = Raise e.
Proof.
  assert (Metrics.entropy (Vec []) 2 = Ok (Fin 0)) as H.
  { rewrite entropy_unfold, entropy_empty_total by done.
    unfold math.log. rewrite decide_True by lra. simpl.
    assert (0 < ln 2)%R by (rewrite <- ln_1; apply ln_increasing; lra).
    rewrite decide_False by lra. do 2 f_equal. apply Rmult_0_l. }
  split; [done|]. intros [e He]. congruence.
Qed.

(** C8.  On an array of length 0 and for every positive base, [entropy]
    raises no error: it returns 0.0, or NaN (0/0) when the base is 1. *)
Theorem entropy_empty_silent (y : ndarray) (base : R) :
  np.len y = 0 → (0 < base)%R →
  Metrics.entropy y base = Ok (if decide (base = 1%R) then NaN else Fin 0).
Proof.
  intros Hlen Hb. rewrite entropy_unfold, entropy_empty_total by done.
  unfold math.log. rewrite decide_True by done. simpl. destruct (decide (base = 1%R)) as [->|Hne].
  - rewrite decide_True by apply ln_1. unfold Float.inf_of_sign.
    rewrite !decide_False by lra. reflexivity.
  - rewrite decide_False.
    + do 2 f_equal. apply Rmult_0_l.
    + intros Hln. apply Hne. apply ln_inv; [done|lra|]. by rewrite ln_1.
Qed.

Lemma entropy_empty_silent_witness :
  Metrics.entropy (Vec []) 2 = Ok (if decide (2 = 1)%R then NaN else Fin 0).
Proof.
  apply (entropy_empty_silent (Vec []) 2).
  - reflexivity.
  - lra.
Defined.

Lemma proba_eval (c n : nat) :
  1 ≤ c ≤ n →
  (Float.of_nat c / Float.of_nat n)%fl = Fin (INR c / INR n) ∧
  (0 < INR c / INR n)%R.
Proof.
  intros [Hc Hn]. unfold Float.of_nat.
  assert (1 <= INR c)%R as Hc' by (replace 1%R with (INR 1) by done; by apply le_INR).
  assert (INR c <= INR n)%R as Hn' by by apply le_INR.
  simpl. rewrite decide_False by lra. split; [done|].
  apply Rdiv_lt_0_compat; lra.
Qed.

Lemma term_eval (p : R) :
  (0 < p)%R → (Fin p * np.log (Fin 1 / Fin p))%fl = Fin (p * ln (1 / p)).
Proof.
  intros Hp. simpl. rewrite decide_False by lra. simpl.
  assert (0 < 1 / p)%R by (apply Rdiv_lt_0_compat; lra).
  by rewrite decide_True.
Qed.

Lemma filter_cons_true {A} (f : A → bool) (x : A) (l : list A) :
  f x = true → List.filter f (x :: l) = x :: List.filter f l.
Proof. intros H. simpl. by rewrite H. Qed.

Lemma entropy_fold (n : nat) (counts : list nat) (acc : R) :
  Forall (λ c, 1 ≤ c ≤ n) counts →
  foldl Float.add (Fin acc)
    ((λ p, p * np.log (Fin 1 / p))%fl <$>
     List.filter (λ p, p >? Fin 0)%fl
       ((λ c, Float.of_nat c / Float.of_nat n)%fl <$> counts)) =
  Fin (foldl (λ acc c, acc + INR c / INR n * ln (1 / (INR c / INR n)))%R
         acc counts).
Proof.
  intros Hb. revert acc. induction Hb as [|c counts Hc Hb IH]; intros acc; [done|].
  destruct (proba_eval c n Hc) as [Hp Hpos].
  rewrite fmap_cons, Hp, filter_cons_true by by apply bool_decide_eq_true.
  rewrite fmap_cons, term_eval by done. apply IH.
Qed.

Lemma entropy_total_value (y : ndarray) :
  entropy_total y = Fin (entropy_sum (np.unique y).2 (np.len y)).
Proof. apply entropy_fold, unique_counts_bounds. Qed.

Lemma entropy_value (y : ndarray) (base : R) :
  (0 < base)%R → base ≠ 1%R →
  Metrics.entropy y base =
  Ok (Fin (entropy_sum (np.unique y).2 (np.len y) / ln base)).
Proof.
  intros Hb Hne. rewrite entropy_unfold, entropy_total_value.
  unfold math.log. rewrite decide_True by done. simpl.
  rewrite decide_False; [done|].
  intros Hln. apply Hne. apply ln_inv; [done|lra|]. by rewrite ln_1.
Qed.

Lemma ln_2_pos : (0 < ln 2)%R.
Proof. rewrite <- ln_1. apply ln_increasing; lra. Qed.

(** Two symbols, once each: one bit. *)
Lemma entropy_two_symbols (y : ndarray) :
  (np.unique y).2 = [1; 1] → np.len y = 2 → Metrics.entropy y 2 = Ok (Fin 1).
Proof.
  intros Hc Hn. rewrite entropy_value by lra. rewrite Hc, Hn.
  unfold entropy_sum. simpl. do 2 f_equal.
  replace (1 / (1 / (1 + 1)))%R with 2%R by lra.
  pose proof ln_2_pos. field. lra.
Qed.

(** One symbol, twice: no uncertainty. *)
Lemma entropy_one_symbol (y : ndarray) :
  (np.unique y).2 = [2] → np.len y = 2 → Metrics.entropy y 2 = Ok (Fin 0).
Proof.
  intros Hc Hn. rewrite entropy_value by lra. rewrite Hc, Hn.
  unfold entropy_sum. simpl. do 2 f_equal.
  replace (1 / ((1 + 1) / (1 + 1)))%R with 1%R by lra.
  rewrite ln_1. pose proof ln_2_pos. field. lra.
Qed.

(** A binary feature against itself: symmetrical uncertainty 1. *)
Lemma su_binary_same :
  Metrics.symmetrical_uncertainty (Vec [0; 1]%Z) (Vec [0; 1]%Z) = Ok (Fin 1).
Proof.
  unfold Metrics.symmetrical_uncertainty, Metrics.information_gain,
    Metrics.conditional_entropy.
  rewrite (entropy_two_symbols (Vec [0; 1]%Z)) by reflexivity.
  change (np.c_ (Vec [0; 1]%Z) (Vec [0; 1]%Z))
    with (Ok (Mat 2 [[0; 0]; [1; 1]]%Z)).
  rewrite !result_bind_Ok.
  rewrite (entropy_two_symbols (Mat 2 [[0; 0]; [1; 1]]%Z)) by reflexivity.
  rewrite !result_bind_Ok. simpl. rewrite decide_False by lra.
  do 2 f_equal. lra.
Qed.

(** A constant feature against constant labels: 0/0. *)
Lemma su_constant_constant :
  Metrics.symmetrical_uncertainty (Vec [0; 0]%Z) (Vec [0; 0]%Z) = Ok NaN.
Proof.
  unfold Metrics.symmetrical_uncertainty, Metrics.information_gain,
    Metrics.conditional_entropy.
  rewrite (entropy_one_symbol (Vec [0; 0]%Z)) by reflexivity.
  change (np.c_ (Vec [0; 0]%Z) (Vec [0; 0]%Z))
    with (Ok (Mat 2 [[0; 0]; [0; 0]]%Z)).
  rewrite !result_bind_Ok.
  rewrite (entropy_one_symbol (Mat 2 [[0; 0]; [0; 0]]%Z)) by reflexivity.
  rewrite !result_bind_Ok. simpl. rewrite decide_True by lra.
  unfold Float.inf_of_sign. rewrite !decide_False by lra. done.
Qed.

(** [symmetrical_uncertainty] raises only when [np.c_] does, that is when
    the two arrays differ in length. *)
Lemma symmetrical_uncertainty_cases (x y : ndarray) :
  (np.len x = np.len y ∧ ∃ v, Metrics.symmetrical_uncertainty x y = Ok v) ∨
  (np.len x ≠ np.len y ∧ ∃ msg,
     Metrics.symmetrical_uncertainty x y = Raise (ValueError msg) ∧
     msg ≠ "Threshold cannot be less than 1e-4").
Proof.
  assert (0 < 2)%R as H2 by lra.
  destruct (entropy_ok y 2 H2) as [hy Hy], (entropy_ok x 2 H2) as [hx Hx].
  unfold Metrics.symmetrical_uncertainty, Metrics.information_gain,
    Metrics.conditional_entropy.
  rewrite Hy, result_bind_Ok. unfold np.c_.
  destruct (decide (np.len x = np.len y)) as [He|Hne].
  - left. split; [done|]. rewrite result_bind_Ok.
    match goal with |- context [Metrics.entropy (Mat ?n ?r) 2] =>
      destruct (entropy_ok (Mat n r) 2 H2) as [hxy ->] end.
    rewrite Hx, !result_bind_Ok. eauto.
  - right. split; [done|]. rewrite !result_bind_Raise.
    eexists. split; [reflexivity|]. discriminate.
Qed.

End MetricsFacts.


(** ** MFS: the search engine *)

Module MFSFacts.

Import MFS Spec npFacts MetricsFacts.

#[local] Arguments Metrics.symmetrical_uncertainty : simpl never.
#[local] Arguments np.column : simpl never.
#[local] Arguments float_info.min : simpl never.

Lemma bind_unfold {A B} (m : M A) (f : A → M B) (s : t) :
  (m ≫= f) s =
  match m s with
  | (Ok a, s') => f a s'
  | (Raise e, s') => (Raise e, s')
  end.
Proof. reflexivity. Qed.

Lemma bind_ok_inv {A B} (m : M A) (f : A → M B) (s s' : t) (b : B) :
  (m ≫= f) s = (Ok b, s') → ∃ a s1, m s = (Ok a, s1) ∧ f a s1 = (Ok b, s').
Proof.
  rewrite bind_unfold. destruct (m s) as [[a|e] s1]; [eauto|congruence].
Qed.

Lemma frame_refl (s : t) : frame s s.
Proof. done. Qed.

Lemma frame_trans (s1 s2 s3 : t) : frame s1 s2 → frame s2 s3 → frame s1 s3.
Proof. unfold frame. intros (?&?&?&?&?) (?&?&?&?&?). repeat split; congruence. Qed.

Lemma benign_Ok {A} (a : A) : benign (Ok a).
Proof. by intros e. Qed.

Lemma benign_su (x y : ndarray) : benign (Metrics.symmetrical_uncertainty x y).
Proof.
  destruct (symmetrical_uncertainty_cases x y) as [(_ & v & ->)|(_ & msg & -> & Hm)];
    [apply benign_Ok|].
  intros e [= <-] [[= ->]|[=]]. done.
Qed.

Lemma benign_column (X : ndarray) (col : nat) : benign (np.column X col).
Proof.
  unfold np.column. destruct X; [by intros e [= <-] [?|?]|].
  case_decide; [apply benign_Ok|]. by intros e [= <-] [?|?].
Qed.

Section preserves.

Context (R : relation t) `{!Reflexive R, !Transitive R}.

Lemma preserves_ret {A} (a : A) : preserves R (mret a).
Proof. intros s r s' [= <- <-]. done. Qed.

Lemma preserves_bind {A B} (m : M A) (f : A → M B) :
  preserves R m → (∀ a, preserves R (f a)) → preserves R (m ≫= f).
Proof.
  intros Hm Hf s r s'. rewrite bind_unfold.
  destruct (m s) as [[a|e] s1] eqn:E; apply Hm in E as [HR Hb].
  - intros H. apply Hf in H as [HR' Hb']. split; [by etrans|done].
  - intros [= <- <-]. split; [done|]. intros e' [= <-]. by apply (Hb e).
Qed.

Lemma preserves_raise {A} (e : exn) :
  ¬ foreign e → preserves R (raise (A:=A) e).
Proof. intros He s r s' [= <- <-]. split; [done|]. by intros e' [= <-]. Qed.

Lemma preserves_lift {A} (r : result A) : benign r → preserves R (lift r).
Proof. intros Hr s r' s' [= <- <-]. done. Qed.

Lemma preserves_get : preserves R get.
Proof. intros s r s' [= <- <-]. done. Qed.

Lemma preserves_if {A} (b : bool) (m1 m2 : M A) :
  preserves R m1 → preserves R m2 → preserves R (if b then m1 else m2).
Proof. by destruct b. Qed.

End preserves.

Lemma benign_getitem {A} (l : list A) (i : nat) : benign (getitem l i).
Proof. unfold getitem. destruct (l !! i); [apply benign_Ok|]. by intros e [= <-] [?|?]. Qed.

Lemma benign_mapM_getitem {A} (l : list A) (idxs : list nat) :
  benign (mapM (getitem l) idxs).
Proof.
  induction idxs as [|i idxs IH]; [apply benign_Ok|].
  change (mapM (getitem l) (i :: idxs)) with
    (v ← getitem l i; sel ← mapM (getitem l) idxs; Ok (v :: sel)).
  pose proof (benign_getitem l i) as Hi.
  destruct (getitem l i) as [a|e]; simpl.
  - destruct (mapM (getitem l) idxs); simpl; [apply benign_Ok|].
    intros e' [= <-]. by apply IH.
  - intros e' [= <-]. by apply Hi.
Qed.

Lemma benign_sqrt (x : float) : benign (math.sqrt x).
Proof.
  unfold math.sqrt. destruct x; try apply benign_Ok; try by intros e [= <-] [?|?].
  case_decide; [by intros e [= <-] [?|?]|apply benign_Ok].
Qed.

Create HintDb mfs.
#[local] Hint Resolve benign_su benign_column benign_getitem
  benign_mapM_getitem benign_sqrt frame_refl : mfs.

#[local] Instance frame_reflexive : Reflexive frame := frame_refl.
#[local] Instance frame_transitive : Transitive frame := frame_trans.

Ltac preserves_step :=
  first
    [ apply preserves_ret; apply _
    | apply preserves_get; apply _
    | apply preserves_raise; [apply _ | by intros [?|?]]
    | apply preserves_lift; [apply _ | solve [auto with mfs]]
    | apply preserves_bind; [apply _ | | intros ?]
    | apply preserves_if
    | match goal with
      | |- preserves _ (match ?x with _ => _ end) => destruct x
      end ].

Lemma preserves_get_X_ R `{!Reflexive R, !Transitive R} : preserves R get_X_.
Proof. unfold get_X_. repeat preserves_step. Qed.

Lemma preserves_get_y_ R `{!Reflexive R, !Transitive R} : preserves R get_y_.
Proof. unfold get_y_. repeat preserves_step. Qed.

Lemma preserves_su_labels_array R `{!Reflexive R, !Transitive R} :
  preserves R su_labels_array.
Proof. unfold su_labels_array. repeat preserves_step. Qed.

Lemma preserves_set_su_features (c : gmap (nat * nat) float) :
  preserves frame (set_su_features c).
Proof. intros s r s' [= <- <-]. done. Qed.

Lemma compute_su_features_frame (a b : nat) :
  preserves frame (_compute_su_features a b).
Proof.
  unfold _compute_su_features.
  repeat first [ apply preserves_get_X_; apply _
               | apply preserves_set_su_features
               | preserves_step ].
Qed.

Lemma merit_rff_frame (pairs : list (nat * nat)) (rff : float) :
  preserves frame (merit_rff rff pairs).
Proof.
  revert rff. induction pairs as [|[a b] pairs IH]; intros rff; simpl.
  - apply preserves_ret. apply _.
  - apply preserves_bind; [apply _|apply compute_su_features_frame|].
    intros su. apply IH.
Qed.

Lemma compute_merit_frame (features : list nat) :
  preserves frame (_compute_merit features).
Proof.
  unfold _compute_merit.
  repeat first [ apply preserves_su_labels_array; apply _
               | apply merit_rff_frame
               | preserves_step ].
Qed.

(** *** The merit function *)

Lemma cache_ok_empty (X : ndarray) : cache_ok X ∅.
Proof. intros a b v. by rewrite lookup_empty. Qed.

Lemma su_features_of_ok (n : nat) (rows : list (list Z)) (a b : nat) :
  a < n → b < n → ∃ v, su_features_of (Mat n rows) a b = Ok v.
Proof.
  intros Ha Hb. unfold su_features_of, np.column.
  rewrite !decide_True by done. rewrite !result_bind_Ok.
  match goal with |- context [Metrics.symmetrical_uncertainty ?x ?y] =>
    destruct (symmetrical_uncertainty_cases x y) as [(_ & v & ->)|(Hne & _)] end;
    [eauto|].
  exfalso. apply Hne. simpl. by rewrite !length_fmap.
Qed.

Lemma compute_su_features_spec (X : ndarray) (a b : nat) (v : float) (s : t) :
  X_ s = Some X → cache_ok X (_su_features s) →
  su_features_of X a b = Ok v →
  ∃ s', _compute_su_features a b s = (Ok v, s') ∧ frame s s' ∧
        cache_ok X (_su_features s').
Proof.
  intros HX Hc Hv. unfold _compute_su_features. rewrite bind_unfold. simpl.
  destruct (_su_features s !! (a, b)) as [v'|] eqn:Hl.
  - apply Hc in Hl. rewrite Hv in Hl. injection Hl as <-. eauto with mfs.
  - unfold get_X_. rewrite !bind_unfold. simpl. rewrite HX. simpl.
    unfold su_features_of in Hv.
    destruct (np.column X a) as [xa|] eqn:Ha; [|done].
    destruct (np.column X b) as [xb|] eqn:Hb; [|done].
    rewrite !result_bind_Ok in Hv.
    rewrite bind_unfold. unfold lift at 1. rewrite bind_unfold. unfold lift at 1.
    rewrite Hv. simpl. eexists. split; [reflexivity|]. split; [done|]. simpl.
    intros a' b' v'. destruct (decide ((a, b) = (a', b'))) as [[= <- <-]|Hne].
    + rewrite lookup_insert_eq. intros [= <-]. unfold su_features_of.
      by rewrite Ha, Hb.
    + rewrite lookup_insert_ne by done. apply Hc.
Qed.

Lemma merit_rff_spec (X : ndarray) (pairs : list (nat * nat))
    (vals : list float) (rff : float) (s : t) :
  X_ s = Some X → cache_ok X (_su_features s) →
  Forall2 (λ p v, su_features_of X p.1 p.2 = Ok v) pairs vals →
  ∃ s', merit_rff rff pairs s = (Ok (foldl Float.add rff vals), s') ∧
        frame s s' ∧ cache_ok X (_su_features s').
Proof.
  intros HX Hc Hp. revert rff s HX Hc.
  induction Hp as [|[a b] v pairs vals Hv Hp IH]; intros rff s HX Hc.
  - simpl. eauto with mfs.
  - simpl. rewrite bind_unfold.
    destruct (compute_su_features_spec X a b v s HX Hc Hv) as (s1 & -> & Hf & Hc1).
    destruct (IH (rff + v)%fl s1) as (s' & -> & Hf' & Hc'); [|done|].
    { destruct Hf as (_ & _ & _ & -> & _). done. }
    eexists. split; [reflexivity|]. split; [by etrans|done].
Qed.

Lemma mapM_getitem_cons {A} (l : list A) (i : nat) (idxs : list nat) :
  mapM (getitem l) (i :: idxs) =
  match l !! i with
  | Some v => match mapM (getitem l) idxs with
              | Ok sel => Ok (v :: sel)
              | Raise e => Raise e
              end
  | None => Raise (IndexError "index out of range")
  end.
Proof.
  change (mapM (getitem l) (i :: idxs)) with
    (v ← getitem l i; sel ← mapM (getitem l) idxs; Ok (v :: sel)).
  destruct (l !! i) as [v|] eqn:Hi.
  - assert (getitem l i = Ok v) as -> by (unfold getitem; by rewrite Hi).
    rewrite result_bind_Ok. destruct (mapM (getitem l) idxs); reflexivity.
  - assert (getitem l i = Raise (IndexError "index out of range")) as ->
      by (unfold getitem; by rewrite Hi).
    reflexivity.
Qed.

Lemma mapM_getitem_spec {A} (l : list A) (idxs : list nat) (sel : list A) :
  Forall2 (λ i v, l !! i = Some v) idxs sel → mapM (getitem l) idxs = Ok sel.
Proof.
  induction 1 as [|i v idxs sel Hi _ IH]; [done|].
  by rewrite mapM_getitem_cons, Hi, IH.
Qed.

Lemma mapM_getitem_inv {A} (l : list A) (idxs : list nat) (sel : list A) :
  mapM (getitem l) idxs = Ok sel → Forall2 (λ i v, l !! i = Some v) idxs sel.
Proof.
  revert sel. induction idxs as [|i idxs IH]; intros sel.
  - intros [= <-]. constructor.
  - rewrite mapM_getitem_cons. destruct (l !! i) as [v|] eqn:Hi; [|done].
    destruct (mapM (getitem l) idxs) as [sel'|]; [|done].
    intros [= <-]. constructor; [done|]. by apply IH.
Qed.

Lemma lookups_exist {A} (l : list A) (idxs : list nat) :
  Forall (λ i, i < length l) idxs →
  ∃ sel, Forall2 (λ i v, l !! i = Some v) idxs sel.
Proof.
  induction 1 as [|i idxs Hi _ [sel IH]]; [by exists []|].
  destruct (lookup_lt_is_Some_2 l i Hi) as [v Hv].
  exists (v :: sel). by constructor.
Qed.

Lemma combinations2_in {A} (l : list A) (a b : A) :
  (a, b) ∈ combinations2 l → a ∈ l ∧ b ∈ l.
Proof.
  induction l as [|x l IH]; simpl; [by intros ?%elem_of_nil|].
  rewrite elem_of_app, list_elem_of_fmap. intros [(y & [= -> ->] & Hy)|H].
  - split; [left|by right].
  - destruct (IH H). split; by right.
Qed.

Lemma pair_values_exist (n : nat) (rows : list (list Z)) (pairs : list (nat * nat)) :
  Forall (λ p, p.1 < n ∧ p.2 < n) pairs →
  ∃ vals, Forall2 (λ p v, su_features_of (Mat n rows) p.1 p.2 = Ok v) pairs vals.
Proof.
  induction 1 as [|[a b] pairs [Ha Hb] _ [vals IH]]; [by exists []|].
  destruct (su_features_of_ok n rows a b Ha Hb) as [v Hv].
  exists (v :: vals). by constructor.
Qed.

(** What [_compute_merit] returns, read off its text. *)
Lemma compute_merit_inv (features : list nat) (s s' : t) (v : float) :
  _compute_merit features s = (Ok v, s') →
  ∃ l sel x d, _su_labels s = Some l ∧ mapM (getitem l) features = Ok sel ∧
    math.sqrt x = Ok d ∧ v = (np.sum sel / d)%fl.
Proof.
  unfold _compute_merit. intros H.
  apply bind_ok_inv in H as (l & s1 & Hl & H).
  apply bind_ok_inv in H as (sel & s2 & Hsel & H).
  apply bind_ok_inv in H as (rff & s3 & Hrff & H).
  apply bind_ok_inv in H as (d & s4 & Hd & H).
  injection H as <- <-.
  unfold su_labels_array in Hl. rewrite bind_unfold in Hl. simpl in Hl.
  destruct (_su_labels s) as [l'|]; [|done]. injection Hl as <- <-.
  injection Hsel as Hsel <-. injection Hd as Hd <-.
  eauto 10.
Qed.

(** C1.  With the feature matrix and the label-correlation vector in
    place, a pairwise cache whose entries are right, and features that are
    in range, [_compute_merit] returns the sum of the label correlations
    of the features divided by sqrt(k + (k^2 - k) * the sum of the
    symmetrical uncertainties of all pairs of features), raising only when
    [math.sqrt] does; it changes nothing but the cache.  For a single
    feature it returns the label correlation of that feature and changes
    nothing. *)
Theorem compute_merit_formula (s : t) (n : nat) (rows : list (list Z))
    (l : list float) (features : list nat) :
  X_ s = Some (Mat n rows) → _su_labels s = Some l →
  cache_ok (Mat n rows) (_su_features s) →
  Forall (λ f, f < n ∧ f < length l) features →
  (∃ sel vals s',
     Forall2 (λ f v, l !! f = Some v) features sel ∧
     Forall2 (λ p v, su_features_of (Mat n rows) p.1 p.2 = Ok v)
       (combinations2 features) vals ∧
     let k := length features in
     _compute_merit features s =
       (d ← math.sqrt (Float.of_nat k + Float.of_nat (k ^ 2 - k) * np.sum vals)%fl;
        Ok (np.sum sel / d)%fl, s') ∧
     frame s s' ∧ cache_ok (Mat n rows) (_su_features s')) ∧
  (∀ f v, l !! f = Some v → _compute_merit [f] s = (Ok v, s)).
Proof.
  intros HX Hl Hc Hf. split.
  - destruct (lookups_exist l features) as [sel Hsel].
    { eapply Forall_impl; [exact Hf|]. by intros f [_ ?]. }
    destruct (pair_values_exist n rows (combinations2 features)) as [vals Hvals].
    { apply Forall_forall. intros [a b] Hab. apply combinations2_in in Hab as [Ha Hb].
      rewrite Forall_forall in Hf. simpl. split; [by apply (Hf a)|by apply (Hf b)]. }
    destruct (merit_rff_spec (Mat n rows) _ vals (Fin 0) s HX Hc Hvals)
      as (s' & Hrff & Hfr & Hc').
    exists sel, vals, s'. split; [done|]. split; [done|]. simpl.
    split; [|done].
    unfold _compute_merit. rewrite bind_unfold. unfold su_labels_array.
    rewrite bind_unfold. simpl. rewrite Hl. simpl.
    rewrite bind_unfold. unfold lift at 1.
    rewrite (mapM_getitem_spec _ _ _ Hsel).
    rewrite bind_unfold, Hrff. fold (np.sum vals).
    rewrite bind_unfold. unfold lift at 1.
    destruct (math.sqrt _) as [d|e]; reflexivity.
  - intros f v Hv. unfold _compute_merit. rewrite bind_unfold.
    unfold su_labels_array. rewrite bind_unfold. simpl. rewrite Hl. simpl.
    unfold getitem. rewrite Hv. simpl.
    rewrite bind_unfold. simpl. rewrite bind_unfold. simpl.
    rewrite bind_unfold. unfold lift, math.sqrt. rewrite decide_False by lra.
    replace (1 + 0 * 0)%R with 1%R by lra. rewrite sqrt_1.
    rewrite FloatFacts.div_Fin_1_r.
    change (np.sum [v]) with (Fin 0 + v)%fl.
    by rewrite FloatFacts.add_Fin_0_l.
Qed.

(** *** The label-correlation vector *)

Lemma compute_su_labels_unfold (s : t) :
  _compute_su_labels s =
  (match _su_labels s with
   | None =>
       X ← get_X_;
       num_features ← lift (np.shape1 X);
       set_su_labels (Some (np.zeros num_features));;
       for_range num_features su_labels_body
   | Some _ => mret ()
   end;; su_labels_array) s.
Proof. reflexivity. Qed.

Lemma su_labels_body_inv (X y : ndarray) (col : nat) (s s' : t) (l : list float) :
  X_ s = Some X → y_ s = Some y → _su_labels s = Some l →
  su_labels_body col s = (Ok (), s') →
  ∃ v, su_label_of X y col = Ok v ∧ col < length l ∧
       s' = mk (_result s) (_scores s) (Some (<[col:=v]> l)) (_su_features s)
              (X_ s) (y_ s).
Proof.
  intros HX Hy Hl. unfold su_labels_body, get_X_, get_y_, su_label_of.
  rewrite !bind_unfold. simpl. rewrite HX. simpl.
  rewrite bind_unfold. unfold lift at 1.
  destruct (np.column X col) as [x|]; [|done]. rewrite result_bind_Ok.
  rewrite !bind_unfold. simpl. rewrite Hy. simpl.
  rewrite bind_unfold. unfold lift at 1.
  destruct (Metrics.symmetrical_uncertainty x y) as [v|]; [|done].
  unfold su_labels_setitem, su_labels_array. rewrite !bind_unfold. simpl.
  rewrite Hl. simpl. case_decide; [|done].
  intros [= <-]. exists v. rewrite HX, Hy. by repeat split.
Qed.

Lemma for_labels_inv (X y : ndarray) (k : nat) (s s' : t) (l : list float) :
  X_ s = Some X → y_ s = Some y → _su_labels s = Some l →
  for_range k su_labels_body s = (Ok (), s') →
  same_but_labels s s' ∧
  ∃ l', _su_labels s' = Some l' ∧ length l' = length l ∧
        (∀ col, col < k → ∃ v, su_label_of X y col = Ok v ∧ l' !! col = Some v) ∧
        (∀ col, k ≤ col → l' !! col = l !! col).
Proof.
  intros HX Hy Hl. revert s'. induction k as [|k IH]; intros s'.
  - simpl. intros [= <-]. split; [done|]. exists l.
    split; [done|]. split; [done|]. split; [intros; lia|done].
  - simpl. intros H. apply bind_ok_inv in H as ([] & s1 & H1 & H).
    apply IH in H1 as ((Hr & Hsc & Hf & HX1 & Hy1) & l1 & Hl1 & Hlen & Hlow & Hhigh).
    apply (su_labels_body_inv X y k s1 s' l1) in H as (v & Hv & Hk & ->);
      [|congruence..|done].
    split; [repeat split; simpl; congruence|].
    exists (<[k:=v]> l1). simpl. split; [done|]. split; [by rewrite length_insert|].
    split.
    + intros col Hcol. destruct (decide (col = k)) as [->|Hne].
      * exists v. split; [done|]. by apply list_lookup_insert_eq.
      * destruct (Hlow col) as (v' & ? & ?); [lia|].
        exists v'. split; [done|]. by rewrite list_lookup_insert_ne.
    + intros col Hcol. rewrite list_lookup_insert_ne by lia. apply Hhigh. lia.
Qed.

(** From attributes without a label-correlation vector, a call of
    [_compute_su_labels] that returns has stored, for every feature, its
    symmetrical uncertainty with the labels. *)
Lemma compute_su_labels_inv (X y : ndarray) (s s' : t) (l : list float) :
  X_ s = Some X → y_ s = Some y → _su_labels s = None →
  _compute_su_labels s = (Ok l, s') →
  same_but_labels s s' ∧ _su_labels s' = Some l ∧
  np.shape1 X = Ok (length l) ∧
  ∀ col, col < length l → ∃ v, su_label_of X y col = Ok v ∧ l !! col = Some v.
Proof.
  intros HX Hy Hl. rewrite compute_su_labels_unfold, Hl. intros H.
  apply bind_ok_inv in H as ([] & s1 & H1 & H).
  unfold get_X_ in H1. rewrite !bind_unfold in H1. simpl in H1.
  rewrite HX in H1. simpl in H1. rewrite bind_unfold in H1. unfold lift at 1 in H1.
  destruct (np.shape1 X) as [n|] eqn:Hn; [|done].
  rewrite bind_unfold in H1. simpl in H1.
  apply for_labels_inv with (X := X) (y := y) (l := np.zeros n) in H1
    as ((Hr & Hsc & Hf & HX1 & Hy1) & l1 & Hl1 & Hlen & Hlow & _); [|done..].
  unfold su_labels_array in H. rewrite bind_unfold in H. simpl in H.
  rewrite Hl1 in H. injection H as <- <-.
  unfold np.zeros in Hlen. rewrite length_replicate in Hlen.
  split; [done|]. split; [done|]. split; [by rewrite Hlen|].
  intros col Hcol. apply Hlow. lia.
Qed.

Lemma for_labels_exact (X y : ndarray) (vs : list float) (k : nat) (s : t) :
  X_ s = Some X → y_ s = Some y →
  _su_labels s = Some (np.zeros (length vs)) →
  (∀ col v, vs !! col = Some v → su_label_of X y col = Ok v) →
  k ≤ length vs →
  for_range k su_labels_body s =
  (Ok (), mk (_result s) (_scores s)
             (Some (take k vs ++ replicate (length vs - k) (Fin 0)))
             (_su_features s) (X_ s) (y_ s)).
Proof.
  intros HX Hy Hl Hvs. induction k as [|k IH]; intros Hk.
  - simpl. rewrite Nat.sub_0_r. destruct s; simpl in *. by rewrite Hl.
  - simpl. rewrite bind_unfold, IH by lia.
    destruct (lookup_lt_is_Some_2 vs k) as [v Hv]; [lia|].
    specialize (Hvs k v Hv). unfold su_label_of in Hvs.
    unfold su_labels_body, get_X_, get_y_. rewrite !bind_unfold. simpl.
    rewrite HX. simpl. rewrite bind_unfold. unfold lift at 1.
    destruct (np.column X k) as [x|]; [|done]. rewrite result_bind_Ok in Hvs.
    rewrite !bind_unfold. simpl. rewrite Hy. simpl.
    rewrite bind_unfold. unfold lift at 1. rewrite Hvs.
    unfold su_labels_setitem, su_labels_array. rewrite !bind_unfold. simpl.
    rewrite decide_True.
    2:{ rewrite length_app, length_take, length_replicate. lia. }
    simpl. do 3 f_equal.
    rewrite (take_S_r vs k v Hv).
    rewrite insert_app_r_alt by (rewrite length_take; lia).
    rewrite length_take, Nat.min_l by lia. rewrite Nat.sub_diag.
    replace (length vs - k) with (S (length vs - S k)) by lia.
    simpl. by rewrite <- app_assoc.
Qed.

(** The converse: when every feature has a symmetrical uncertainty with
    the labels, [_compute_su_labels] stores and returns their vector. *)
Lemma compute_su_labels_exact (n : nat) (rows : list (list Z)) (y : ndarray)
    (vs : list float) (s : t) :
  X_ s = Some (Mat n rows) → y_ s = Some y → _su_labels s = None →
  length vs = n →
  (∀ col v, vs !! col = Some v → su_label_of (Mat n rows) y col = Ok v) →
  _compute_su_labels s =
  (Ok vs, mk (_result s) (_scores s) (Some vs) (_su_features s) (X_ s) (y_ s)).
Proof.
  intros HX Hy Hl Hlen Hvs. rewrite compute_su_labels_unfold, Hl.
  rewrite bind_unfold. unfold get_X_. rewrite !bind_unfold. simpl.
  rewrite HX. simpl. rewrite !bind_unfold. simpl. rewrite bind_unfold. simpl.
  rewrite (for_labels_exact (Mat n rows) y vs n); simpl;
    [|done|done|by rewrite Hlen|done|lia].
  rewrite <- Hlen, Nat.sub_diag, firstn_all. simpl. rewrite app_nil_r.
  unfold su_labels_array. rewrite bind_unfold. simpl.
  rewrite Hlen, <- HX. reflexivity.
Qed.


(** *** The threshold filter [fcbs] *)

Lemma zeroed_refl (l : list float) : zeroed l l.
Proof. apply Forall2_same_length_lookup. split; [done|]. intros; left; congruence. Qed.

Lemma zeroed_length (l0 l : list float) : zeroed l0 l → length l = length l0.
Proof. intros H. symmetry. by eapply Forall2_length. Qed.

Lemma zeroed_insert (l0 l : list float) (i : nat) :
  zeroed l0 l → zeroed l0 (<[i:=Fin 0]> l).
Proof.
  intros H. destruct (decide (i < length l0)) as [Hi|Hi].
  - destruct (lookup_lt_is_Some_2 l0 i Hi) as [v0 Hv0].
    rewrite <- (list_insert_id l0 i v0 Hv0).
    apply Forall2_insert; [done|by right].
  - rewrite list_insert_ge; [done|]. rewrite (zeroed_length l0 l H). lia.
Qed.

Lemma zeroed_lookup (l0 l : list float) (i : nat) (v : float) :
  zeroed l0 l → l !! i = Some v → (v =? Fin 0)%fl = false → l0 !! i = Some v.
Proof.
  intros H Hv Hnz.
  destruct (Forall2_lookup_r _ _ _ _ _ H Hv) as (v0 & Hv0 & [->| ->]); [done|].
  simpl in Hnz. rewrite bool_decide_eq_false in Hnz. done.
Qed.

Lemma su_labels_getitem_inv (i : nat) (s s' : t) (v : float) :
  su_labels_getitem i s = (Ok v, s') →
  s' = s ∧ ∃ l, _su_labels s = Some l ∧ l !! i = Some v.
Proof.
  unfold su_labels_getitem, su_labels_array. rewrite !bind_unfold. simpl.
  destruct (_su_labels s) as [l|]; simpl; [|done].
  unfold lift, getitem. destruct (l !! i) as [v'|] eqn:Hv; [|done].
  intros [= <- <-]. eauto.
Qed.

Lemma su_labels_setitem_inv (i : nat) (v : float) (s s' : t) :
  su_labels_setitem i v s = (Ok (), s') →
  ∃ l, _su_labels s = Some l ∧
       s' = mk (_result s) (_scores s) (Some (<[i:=v]> l)) (_su_features s)
              (X_ s) (y_ s).
Proof.
  unfold su_labels_setitem, su_labels_array. rewrite !bind_unfold. simpl.
  destruct (_su_labels s) as [l|]; simpl; [|done].
  case_decide; [|done]. intros [= <-]. eauto.
Qed.

Lemma fcbs_dominance_inv (l0 : list float) (index_p : nat)
    (feature_dup : list nat) (s s' : t) (l : list float) :
  _su_labels s = Some l → zeroed l0 l →
  fcbs_dominance index_p feature_dup s = (Ok (), s') →
  fcbs_frame s s' ∧
  ∃ l', _su_labels s' = Some l' ∧ zeroed l0 l' ∧
        ∀ i, i ∉ feature_dup → l' !! i = l !! i.
Proof.
  revert s l. induction feature_dup as [|q dup IH]; intros s l Hl Hz; simpl.
  - intros [= <-]. split; [done|]. eauto.
  - intros H. apply bind_ok_inv in H as (su & s1 & H1 & H).
    apply compute_su_features_frame in H1 as [(Hr & Hsc & Hl1 & HX & Hy) _].
    apply bind_ok_inv in H as (sq & s2 & H2 & H).
    apply su_labels_getitem_inv in H2 as (-> & l1 & Hl1' & Hq).
    assert (l1 = l) as -> by congruence.
    apply bind_ok_inv in H as ([] & s3 & H3 & H).
    destruct (su >=? sq)%fl.
    + apply su_labels_setitem_inv in H3 as (l1 & Hl3 & ->).
      assert (l1 = l) as -> by congruence.
      eapply IH in H as ((Hr' & Hsc' & HX' & Hy') & l' & Hl' & Hz' & Hun);
        [|reflexivity|by apply zeroed_insert].
      simpl in *. split; [repeat split; congruence|].
      exists l'. split; [done|]. split; [done|].
      intros i Hi. rewrite not_elem_of_cons in Hi. destruct Hi as [Hne Hi].
      rewrite Hun by done. by rewrite list_lookup_insert_ne.
    + injection H3 as <-.
      eapply IH in H as ((Hr' & Hsc' & HX' & Hy') & l' & Hl' & Hz' & Hun);
        [|exact Hl1'|done].
      split; [repeat split; congruence|].
      exists l'. split; [done|]. split; [done|].
      intros i Hi. rewrite not_elem_of_cons in Hi. destruct Hi as [Hne Hi].
      by apply Hun.
Qed.

Lemma result_append_inv (i : nat) (s s' : t) :
  result_append i s = (Ok (), s') →
  ∃ r, _result s = Some r ∧
       s' = mk (Some (r ++ [i])) (_scores s) (_su_labels s) (_su_features s)
              (X_ s) (y_ s).
Proof.
  unfold result_append. rewrite bind_unfold. simpl.
  destruct (_result s) as [r|]; [|done]. intros [= <-]. eauto.
Qed.

(** The outer loop of [fcbs], started on [feature_order] and its copy: every
    feature it appends to the result had, when it was accepted, a non-zero
    entry of [l0] that is not below the threshold; the entries of the
    label-correlation vector are only ever zeroed; and when no index occurs
    twice in [feature_order], the entries of the accepted features are
    left as they were. *)
Lemma fcbs_loop_inv (l0 : list float) (threshold : float)
    (feature_order : list nat) (s s' : t) (l : list float) (r : list nat) :
  _su_labels s = Some l → zeroed l0 l → _result s = Some r →
  fcbs_loop threshold feature_order feature_order s = (Ok (), s') →
  X_ s' = X_ s ∧ y_ s' = y_ s ∧
  ∃ l' r', _su_labels s' = Some l' ∧ zeroed l0 l' ∧
    _result s' = Some (r ++ r') ∧
    (∀ f, f ∈ r' → f ∈ feature_order ∧
       ∃ v, l0 !! f = Some v ∧ (v =? Fin 0)%fl = false ∧
            (v <? threshold)%fl = false) ∧
    (NoDup feature_order →
       (∀ f, f ∈ r' → l' !! f = l0 !! f) ∧
       (∀ i, i ∉ feature_order → l' !! i = l !! i)).
Proof.
  revert s l r. induction feature_order as [|p fo IH]; intros s l r Hl Hz Hr; simpl.
  - intros [= <-]. split; [done|]. split; [done|]. exists l, [].
    rewrite app_nil_r. split; [done|]. split; [done|]. split; [done|].
    split; [by intros ? ?%elem_of_nil|]. intros _.
    split; [by intros ? ?%elem_of_nil|done].
  - intros H. apply bind_ok_inv in H as (sp & s1 & H1 & H).
    apply su_labels_getitem_inv in H1 as (-> & l1 & Hl1 & Hp).
    assert (l1 = l) as -> by congruence.
    destruct (sp =? Fin 0)%fl eqn:Hz0.
    { eapply IH in H as (HX & Hy & l' & r' & Hl' & Hz' & Hr' & Hacc & Hkeep); [|done..].
      split; [done|]. split; [done|]. exists l', r'.
      split; [done|]. split; [done|]. split; [done|]. split.
      - intros f Hf. destruct (Hacc f Hf) as [Hin Hv]. split; [by right|done].
      - intros [Hnp Hnd]%NoDup_cons. destruct (Hkeep Hnd) as [Hk1 Hk2].
        split; [done|]. intros i [Hne Hi]%not_elem_of_cons. by apply Hk2. }
    apply bind_ok_inv in H as (sp' & s1 & H1 & H).
    apply su_labels_getitem_inv in H1 as (-> & l1 & Hl1' & Hp').
    assert (l1 = l) as -> by congruence.
    assert (sp' = sp) as -> by congruence.
    destruct (sp <? threshold)%fl eqn:Hlt.
    { injection H as <-. split; [done|]. split; [done|]. exists l, [].
      rewrite app_nil_r. split; [done|]. split; [done|]. split; [done|].
      split; [by intros ? ?%elem_of_nil|]. intros _.
      split; [by intros ? ?%elem_of_nil|done]. }
    apply bind_ok_inv in H as ([] & s1 & H1 & H).
    eapply fcbs_dominance_inv in H1 as ((Hr1 & Hsc1 & HX1 & Hy1) & l1 & Hd1 & Hz1 & Hun1);
      [|exact Hl|exact Hz].
    apply bind_ok_inv in H as ([] & s2 & H2 & H).
    apply result_append_inv in H2 as (r1 & Hr1' & ->).
    assert (r1 = r) as -> by congruence.
    apply bind_ok_inv in H as (sp2 & s3 & H3 & H).
    apply su_labels_getitem_inv in H3 as (-> & l2 & Hl2 & Hp2).
    simpl in Hl2. assert (l2 = l1) as -> by congruence.
    apply bind_ok_inv in H as ([] & s4 & H4 & H).
    injection H4 as <-.
    eapply IH in H as (HX & Hy & l' & r' & Hl' & Hz' & Hr' & Hacc & Hkeep);
      [|exact Hd1|exact Hz1|reflexivity].
    simpl in HX, Hy. split; [congruence|]. split; [congruence|].
    exists l', (p :: r'). split; [done|]. split; [done|].
    split; [by rewrite Hr', <- app_assoc|].
    pose proof (zeroed_lookup l0 l p sp Hz Hp Hz0) as Hp0.
    split.
    + intros f [->|Hf]%elem_of_cons.
      * split; [by left|]. eauto.
      * destruct (Hacc f Hf) as [Hin Hv]. split; [by right|done].
    + intros [Hnp Hnd]%NoDup_cons. destruct (Hkeep Hnd) as [Hk1 Hk2]. split.
      * intros f [->|Hf]%elem_of_cons; [|by apply Hk1].
        rewrite Hk2, Hun1 by done. congruence.
      * intros i [Hne Hi]%not_elem_of_cons. rewrite Hk2 by done. by apply Hun1.
Qed.

(** **** [fcbs] returns on well-shaped data *)

Lemma compute_su_features_returns (n : nat) (rows : list (list Z)) (a b : nat)
    (s : t) :
  X_ s = Some (Mat n rows) → a < n → b < n →
  ∃ v s', _compute_su_features a b s = (Ok v, s') ∧ frame s s'.
Proof.
  intros HX Ha Hb.
  destruct (_compute_su_features a b s) as [[v|e] s'] eqn:E.
  { exists v, s'. split; [done|]. by apply compute_su_features_frame in E as [? _]. }
  exfalso. revert E. unfold _compute_su_features. rewrite bind_unfold. simpl.
  destruct (_su_features s !! (a, b)); [done|].
  unfold get_X_. rewrite !bind_unfold. simpl. rewrite HX. simpl.
  destruct (su_features_of_ok n rows a b Ha Hb) as [v Hv].
  unfold su_features_of in Hv.
  destruct (np.column (Mat n rows) a) as [xa|]; [|done].
  destruct (np.column (Mat n rows) b) as [xb|]; [|done].
  rewrite !result_bind_Ok in Hv.
  rewrite bind_unfold. unfold lift at 1. rewrite bind_unfold. unfold lift at 1.
  by rewrite Hv.
Qed.

Lemma su_labels_getitem_returns (i : nat) (s : t) (l : list float) :
  _su_labels s = Some l → i < length l →
  ∃ v, su_labels_getitem i s = (Ok v, s).
Proof.
  intros Hl Hi. destruct (lookup_lt_is_Some_2 l i Hi) as [v Hv]. exists v.
  unfold su_labels_getitem, su_labels_array. rewrite !bind_unfold. simpl.
  rewrite Hl. simpl. unfold lift, getitem. by rewrite Hv.
Qed.

Lemma fcbs_dominance_returns (n : nat) (p : nat) (dup : list nat) (s : t) :
  fcbs_ready n s → p < n → Forall (λ q, q < n) dup →
  ∃ s', fcbs_dominance p dup s = (Ok (), s') ∧ fcbs_ready n s'.
Proof.
  intros Hs Hp Hdup. revert s Hs.
  induction Hdup as [|q dup Hq _ IH]; intros s Hs; simpl; [eauto|].
  destruct Hs as ([rows HX] & (l & Hl & Hlen) & Hr).
  destruct (compute_su_features_returns n rows p q s HX Hp Hq)
    as (su & s1 & Hcf & Hr1 & Hsc1 & Hl1 & HX1 & Hy1).
  rewrite bind_unfold, Hcf.
  destruct (su_labels_getitem_returns q s1 l) as [sq Hsq]; [congruence|lia|].
  rewrite bind_unfold, Hsq.
  assert (fcbs_ready n s1) as Hs1.
  { split; [exists rows; congruence|]. split; [exists l; split; congruence|].
    by rewrite Hr1. }
  destruct (su >=? sq)%fl.
  - rewrite bind_unfold. unfold su_labels_setitem, su_labels_array.
    rewrite !bind_unfold. simpl. rewrite Hl1, Hl. simpl.
    rewrite decide_True by lia. simpl. apply IH.
    split; [exists rows; simpl; congruence|].
    split; [eexists; split; [done|by rewrite length_insert]|].
    simpl. by rewrite Hr1.
  - rewrite bind_unfold. simpl. by apply IH.
Qed.

Lemma fcbs_loop_returns (n : nat) (threshold : float) (fo : list nat) (s : t) :
  fcbs_ready n s → Forall (λ q, q < n) fo →
  ∃ s', fcbs_loop threshold fo fo s = (Ok (), s').
Proof.
  intros Hs Hfo. revert s Hs.
  induction Hfo as [|p fo Hp Hfo IH]; intros s Hs; simpl; [eauto|].
  pose proof Hs as ([rows HX] & (l & Hl & Hlen) & Hr).
  destruct (su_labels_getitem_returns p s l) as [sp Hsp]; [done|lia|].
  rewrite bind_unfold, Hsp.
  destruct (sp =? Fin 0)%fl; [by apply IH|].
  rewrite bind_unfold, Hsp.
  destruct (sp <? threshold)%fl; [eauto|].
  destruct (fcbs_dominance_returns n p fo s Hs Hp Hfo)
    as (s1 & Hd & ([rows1 HX1] & (l1 & Hl1 & Hlen1) & [r1 Hr1])).
  rewrite bind_unfold, Hd. rewrite bind_unfold.
  unfold result_append at 1. rewrite bind_unfold. simpl. rewrite Hr1. simpl.
  rewrite bind_unfold.
  match goal with |- context [su_labels_getitem p ?st] =>
    destruct (su_labels_getitem_returns p st l1) as [sp1 Hsp1]; [done|simpl; lia|];
    rewrite Hsp1 end.
  rewrite bind_unfold. simpl. apply IH.
  split; [by exists rows1|]. split; [by exists l1|]. simpl. eauto.
Qed.

(** A list with a prescribed entry at every index. *)
Lemma list_of_values {A} (P : nat → A → Prop) (n : nat) :
  (∀ i, i < n → ∃ v, P i v) →
  ∃ vs, length vs = n ∧ ∀ i v, vs !! i = Some v → P i v.
Proof.
  induction n as [|n IH]; intros H.
  - exists []. split; [done|]. intros i v. by rewrite lookup_nil.
  - destruct IH as (vs & Hlen & Hvs); [intros i Hi; apply H; lia|].
    destruct (H n) as [v Hv]; [lia|].
    exists (vs ++ [v]). split; [rewrite length_app; simpl; lia|].
    intros i w Hw. apply lookup_app_Some in Hw as [Hw|[Hge Hw]]; [by apply Hvs|].
    rewrite Hlen in Hw, Hge. apply list_lookup_singleton_Some in Hw as [Hi <-].
    assert (i = n) as -> by lia. done.
Qed.

Lemma su_label_of_ok (n : nat) (rows : list (list Z)) (y : ndarray) (col : nat) :
  np.len y = length rows → col < n →
  ∃ v, su_label_of (Mat n rows) y col = Ok v.
Proof.
  intros Hlen Hcol. unfold su_label_of, np.column.
  rewrite decide_True by done. rewrite result_bind_Ok.
  match goal with |- context [Metrics.symmetrical_uncertainty ?x ?y] =>
    destruct (symmetrical_uncertainty_cases x y) as [(_ & v & ->)|(Hne & _)] end;
    [eauto|].
  exfalso. apply Hne. simpl. by rewrite length_fmap.
Qed.


(** *** The forward search [cfs] *)

Lemma merit_of_cons (l : list float) (c pool : list nat) (f : nat) (m : float) :
  merit_of l c pool m → merit_of l c (f :: pool) m.
Proof.
  intros (f' & sel & x & d & Hf & ?). exists f', sel, x, d.
  split; [by right|done].
Qed.

Lemma cfs_expand_inv (l : list float) (c fo : list nat) (idx : nat)
    (m : float) (sel : option nat) (s s' : t) (m' : float) (sel' : option nat) :
  _su_labels s = Some l →
  cfs_expand c fo idx m sel s = (Ok (m', sel'), s') →
  frame s s' ∧
  ((m' = m ∧ sel' = sel) ∨
   (∃ i, sel' = Some i ∧ idx ≤ i < idx + length fo ∧
         (m' >? m)%fl = true ∧ merit_of l c fo m')).
Proof.
  revert idx m sel s. induction fo as [|f fo IH]; intros idx m sel s Hl; simpl.
  - intros [= <- <- <-]. split; [done|]. by left.
  - intros H. apply bind_ok_inv in H as (mn & s1 & H1 & H).
    pose proof (compute_merit_frame _ _ _ _ H1) as [Hfr _].
    apply compute_merit_inv in H1 as (l1 & sl & x & d & Hl1 & Hsl & Hd & Hmn).
    assert (l1 = l) as -> by congruence.
    assert (merit_of l c (f :: fo) mn) as Hof.
    { exists f, sl, x, d. split; [by left|done]. }
    assert (_su_labels s1 = Some l) as Hl1'.
    { destruct Hfr as (_ & _ & -> & _). done. }
    destruct (mn >? m)%fl eqn:Hgt.
    + apply IH in H as [Hfr' [[-> ->]|(i & -> & Hi & Hgt' & Hof')]]; [| |done].
      * split; [by etrans|]. right. exists idx. split; [done|].
        split; [simpl; lia|]. done.
      * split; [by etrans|]. right. exists i. split; [done|].
        split; [simpl; lia|]. split; [by eapply FloatFacts.gtb_trans|].
        by apply merit_of_cons.
    + apply IH in H as [Hfr' [[-> ->]|(i & -> & Hi & Hgt' & Hof')]]; [| |done].
      * split; [by etrans|]. by left.
      * split; [by etrans|]. right. exists i. split; [done|].
        split; [simpl; lia|]. split; [done|]. by apply merit_of_cons.
Qed.

Lemma cfs_iteration_inv (l : list float) (c fo : list nat) (s s' : t)
    (cont : bool) (c' fo' : list nat) :
  _su_labels s = Some l →
  cfs_iteration c fo s = (Ok (cont, c', fo'), s') →
  ∃ m i f, fo !! i = Some f ∧ c' = c ++ [f] ∧ fo' = delete i fo ∧
    (m >? float_info.min)%fl = true ∧ merit_of l c fo m ∧
    _scores s' = _scores s ++ [m] ∧ _su_labels s' = Some l ∧
    _result s' = _result s ∧ X_ s' = X_ s ∧ y_ s' = y_ s ∧
    cont = continue_after fo' (_scores s').
Proof.
  intros Hl. unfold cfs_iteration. intros H.
  apply bind_ok_inv in H as ([m sel] & s1 & H1 & H).
  apply (cfs_expand_inv l) in H1 as [(Hr & Hsc & Hl1 & HX & Hy) Hsel]; [|done].
  destruct Hsel as [[-> ->]|(i & -> & Hi & Hgt & Hof)]; [done|].
  apply bind_ok_inv in H as (f & s2 & H2 & H).
  unfold lift, getitem in H2. destruct (fo !! i) as [f'|] eqn:Hf; [|done].
  injection H2 as -> <-.
  apply bind_ok_inv in H as ([] & s2 & H2 & H).
  injection H2 as <-. rewrite bind_unfold in H. simpl in H.
  injection H as <- <- <- <-. simpl.
  exists m, i, f. rewrite Hsc, Hl1, Hr, HX, Hy. by repeat split.
Qed.

Lemma non_increasing_cons (a b : float) (w : list float) :
  non_increasing (a :: b :: w) ↔ (b >? a)%fl = false ∧ non_increasing (b :: w).
Proof.
  split.
  - intros H. split; [by apply (H 0)|]. intros i x y Hx Hy. by apply (H (S i)).
  - intros [Hab H] [|i] x y; simpl; [by intros [= <-] [= <-]|]. apply H.
Qed.

Lemma non_increasing_short (w : list float) : length w ≤ 1 → non_increasing w.
Proof.
  intros Hlen i a b Ha Hb. apply lookup_lt_Some in Hb. lia.
Qed.

Lemma stagnation_scan_prev (a : float) (w : list float) :
  not_sentinel a → Forall not_sentinel w →
  stagnation_scan a w = true ↔ non_increasing (a :: w).
Proof.
  intros Ha Hw. revert a Ha. induction Hw as [|b w Hb Hw IH]; intros a Ha.
  - simpl. split; [|done]. intros _. apply non_increasing_short. simpl. lia.
  - simpl. unfold not_sentinel in Ha. rewrite Ha, non_increasing_cons.
    destruct (b >? a)%fl.
    + split; [done|]. by intros [? _].
    + rewrite IH by done. by split; [|intros [_ ?]].
Qed.

(** On scores that differ from the sentinel, the scan of [cfs] answers
    whether the window is non-increasing. *)
Lemma stagnation_scan_spec (w : list float) :
  Forall not_sentinel w →
  stagnation_scan (Fin (-1)) w = true ↔ non_increasing w.
Proof.
  intros Hw. destruct Hw as [|a w Ha Hw].
  - simpl. split; [|done]. intros _. apply non_increasing_short. simpl. lia.
  - simpl. rewrite bool_decide_true by done.
    unfold Float.gtb. rewrite FloatFacts.ltb_irrefl.
    by apply stagnation_scan_prev.
Qed.

Lemma continue_after_false (N : nat) (fo : list nat) (scores : list float) :
  Forall not_sentinel scores → length scores + length fo = N →
  continue_after fo scores = false ↔ stop_at N scores (length scores).
Proof.
  intros HP Hlen. unfold continue_after, stop_at, stagnant.
  rewrite firstn_all.
  assert (Forall not_sentinel (drop (length scores - 5) scores)) as HP'
    by by apply Forall_drop.
  pose proof (stagnation_scan_spec _ HP') as Hscan.
  destruct (decide (5 ≤ length scores)) as [H5|H5];
    destruct (decide (length fo = 0)) as [H0|H0];
    destruct (stagnation_scan _ _); split; try done; try (intros _; left; lia);
    try (intros _; right; split; [done|by apply Hscan]).
  - intros [?|[_ Hn]]; [lia|]. apply Hscan in Hn. done.
  - intros [?|[? _]]; [lia|done].
  - intros [?|[? _]]; [lia|done].
Qed.

Lemma cfs_while_unfold (fuel : nat) (c fo : list nat) :
  cfs_while fuel c fo =
  ('(continue_condition, c', fo') ← cfs_iteration c fo;
   if continue_condition : bool then
     match fuel with
     | 0 => raise OutOfFuel
     | S fuel' => cfs_while fuel' c' fo'
     end
   else mret c').
Proof. by destruct fuel. Qed.

Lemma gtb_min_not_sentinel (m : float) :
  (m >? float_info.min)%fl = true → not_sentinel m.
Proof.
  intros [->|(r & -> & Hr)]%FloatFacts.gtb_min_pos; [done|].
  unfold not_sentinel. simpl. apply bool_decide_eq_false. lra.
Qed.

(** The [while] loop of [cfs], entered with a score trace free of the
    sentinel: it appends at least one score, it ends at the first length of
    the trace at which the stopping rule holds, and its fuel never runs
    out when it is at least the size of the pool. *)
Lemma cfs_while_inv (N : nat) (l : list float) (fuel : nat) (c fo : list nat)
    (s s' : t) (c' : list nat) :
  _su_labels s = Some l → Forall not_sentinel (_scores s) →
  length (_scores s) + length fo = N →
  cfs_while fuel c fo s = (Ok c', s') →
  ∃ ms, ms ≠ [] ∧ _scores s' = _scores s ++ ms ∧
    length c' = length c + length ms ∧ _result s' = _result s ∧
    length (_scores s') ≤ N ∧
    stop_at N (_scores s') (length (_scores s')) ∧
    ∀ j, length (_scores s) < j < length (_scores s') →
         ¬ stop_at N (_scores s') j.
Proof.
  revert c fo s. induction fuel as [|fuel IH]; intros c fo s Hl HP Hlen;
    rewrite cfs_while_unfold; intros H;
    apply bind_ok_inv in H as ([[cont c1] fo1] & s1 & H1 & H);
    apply (cfs_iteration_inv l) in H1
      as (m & i & f & Hf & -> & -> & Hgt & Hof & Hsc & Hl1 & Hr & HX & Hy & ->);
      try done;
    (assert (Forall not_sentinel (_scores s1)) as HP1
       by (rewrite Hsc; apply Forall_app; split; [done|];
           by apply Forall_singleton, gtb_min_not_sentinel));
    (assert (length (_scores s1) + length (delete i fo) = N) as Hlen1
       by (rewrite Hsc, length_app, length_delete by eauto; simpl;
           apply lookup_lt_Some in Hf; lia));
    pose proof (continue_after_false N _ _ HP1 Hlen1) as Hstop;
    destruct (continue_after (delete i fo) (_scores s1)) eqn:Hcont.
  - done.
  - injection H as <- <-. exists [m]. split; [done|]. split; [done|].
    rewrite length_app. split; [done|]. split; [done|]. split; [lia|].
    split; [by apply Hstop|]. intros j. rewrite Hsc, length_app. simpl. lia.
  - apply IH in H as (ms & Hms & Hsc' & Hc' & Hr' & HN & Hend & Hmid); try done.
    exists (m :: ms). split; [done|].
    split; [by rewrite Hsc', Hsc, <- app_assoc|].
    split; [rewrite Hc', length_app; simpl; lia|].
    split; [congruence|]. split; [done|]. split; [done|].
    intros j Hj. destruct (decide (j = length (_scores s1))) as [->|Hne].
    + intros Hs. assert (true = false) as Habs; [|done].
      apply Hstop. destruct Hs as [HjN|Hst]; [by left|right].
      rewrite Hsc', take_app_length in Hst. by rewrite firstn_all.
    + apply Hmid. rewrite Hsc, length_app in Hne |- *. simpl in *. lia.
  - injection H as <- <-. exists [m]. split; [done|]. split; [done|].
    rewrite length_app. split; [done|]. split; [done|]. split; [lia|].
    split; [by apply Hstop|]. intros j. rewrite Hsc, length_app. simpl. lia.
Qed.


(** *** [np.argsort] as the engine needs it *)

(** The first score of [cfs] is not the sentinel -1 once an expansion has
    been accepted: were the best label correlation -1, no sum of two label
    correlations could be positive. *)
Lemma first_score_not_sentinel (argsort : list float → list nat)
    (l : list float) (first : nat) (fo : list nat) (s0 m : float) :
  argsort_sorts argsort →
  argsort (Float.neg <$> l) = first :: fo → l !! first = Some s0 →
  merit_of l [first] fo m → (m >? float_info.min)%fl = true →
  not_sentinel s0.
Proof.
  intros Hsorted Hargs Hs0 (f & sel & x & d & Hf & Hsel & Hd & ->) Hgt.
  apply mapM_getitem_inv in Hsel.
  apply Forall2_cons_inv_l in Hsel as (s0' & sel1 & Hs0' & Hsel & ->).
  apply Forall2_cons_inv_l in Hsel as (sf & sel2 & Hsf & Hsel & ->).
  apply Forall2_nil_inv_l in Hsel as ->.
  assert (s0' = s0) as -> by congruence.
  apply (FloatFacts.div_sqrt_gtb_min _ _ _ Hd) in Hgt.
  apply list_elem_of_lookup in Hf as [j Hj].
  assert (np.key_le (Float.neg s0) (Float.neg sf) = true) as Hle.
  { apply (Hsorted (Float.neg <$> l) 0 (S j) first f).
    - lia.
    - by rewrite Hargs.
    - by rewrite Hargs.
    - by rewrite list_lookup_fmap, Hs0.
    - by rewrite list_lookup_fmap, Hsf. }
  unfold not_sentinel. destruct s0 as [| | |r0]; try done.
  simpl. apply bool_decide_eq_false. intros ->.
  unfold np.sum in Hgt. simpl in Hgt.
  unfold np.key_le, Float.leb in Hle.
  destruct sf as [| | |rf]; simpl in Hgt, Hle.
  - destruct Hgt as [?|(? & ? & ?)]; done.
  - done.
  - destruct Hgt as [?|(? & ? & ?)]; done.
  - destruct Hgt as [?|(r & [= <-] & Hr)]; [done|].
    apply orb_true_iff in Hle. rewrite !bool_decide_eq_true in Hle. lra.
Qed.

(** *** What the calls raise *)

#[local] Instance any_state_reflexive : Reflexive any_state.
Proof. done. Qed.
#[local] Instance any_state_transitive : Transitive any_state.
Proof. done. Qed.

Lemma preserves_weaken {A} (R : relation t) (m : M A) :
  preserves R m → preserves any_state m.
Proof. intros H s r s' E. apply H in E as [_ ?]. done. Qed.

Lemma preserves_put (s0 : t) : preserves any_state (put s0).
Proof. intros s r s' [= <- <-]. done. Qed.

Ltac benign_step :=
  first
    [ apply preserves_put
    | apply (preserves_get_X_ any_state)
    | apply (preserves_get_y_ any_state)
    | apply (preserves_su_labels_array any_state)
    | apply (preserves_weaken frame), compute_su_features_frame
    | preserves_step ].

Lemma benign_su_labels_getitem (i : nat) :
  preserves any_state (su_labels_getitem i).
Proof. unfold su_labels_getitem. repeat benign_step. Qed.

Lemma benign_su_labels_setitem (i : nat) (v : float) :
  preserves any_state (su_labels_setitem i v).
Proof.
  unfold su_labels_setitem, set_su_labels. repeat benign_step.
Qed.

Lemma benign_scores_append (v : float) : preserves any_state (scores_append v).
Proof. unfold scores_append, set_scores. repeat benign_step. Qed.

Lemma benign_result_append (i : nat) : preserves any_state (result_append i).
Proof. unfold result_append, set_result. repeat benign_step. Qed.

Lemma benign_for_range (n : nat) (body : nat → M ()) :
  (∀ i, preserves any_state (body i)) → preserves any_state (for_range n body).
Proof.
  intros Hb. induction n as [|n IH]; simpl; repeat benign_step; auto.
Qed.

Lemma benign_shape1 (X : ndarray) : benign (np.shape1 X).
Proof. destruct X; [by intros e [= <-] [?|?]|apply benign_Ok]. Qed.

Lemma benign_compute_su_labels : preserves any_state _compute_su_labels.
Proof.
  unfold _compute_su_labels.
  apply preserves_bind; [apply _|apply preserves_get; apply _|intros self].
  apply preserves_bind; [apply _| |intros ?; apply (preserves_su_labels_array any_state)].
  destruct (_su_labels self); [repeat benign_step|].
  apply preserves_bind; [apply _|apply (preserves_get_X_ any_state)|intros X].
  apply preserves_bind; [apply _|apply preserves_lift; [apply _|apply benign_shape1]|intros n].
  apply preserves_bind; [apply _|unfold set_su_labels; repeat benign_step|intros ?].
  apply benign_for_range. intros col.
  repeat first [apply benign_su_labels_setitem | benign_step].
Qed.

Lemma benign_fcbs_dominance (p : nat) (dup : list nat) :
  preserves any_state (fcbs_dominance p dup).
Proof.
  induction dup as [|q dup IH]; simpl;
    repeat first [ apply IH | apply benign_su_labels_getitem
                 | apply benign_su_labels_setitem | benign_step ].
Qed.

Lemma benign_fcbs_loop (threshold : float) (fo dup : list nat) :
  preserves any_state (fcbs_loop threshold fo dup).
Proof.
  revert dup. induction fo as [|p fo IH]; intros dup; simpl; [repeat benign_step|].
  destruct dup as [|q dup]; [repeat benign_step|].
  repeat first [ apply IH | apply benign_su_labels_getitem
               | apply benign_fcbs_dominance | apply benign_result_append
               | apply benign_scores_append | benign_step ].
Qed.

Lemma benign_cfs_expand (c fo : list nat) (idx : nat) (m : float)
    (sel : option nat) :
  preserves any_state (cfs_expand c fo idx m sel).
Proof.
  revert idx m sel. induction fo as [|f fo IH]; intros idx m sel; simpl;
    repeat first [ apply IH | apply (preserves_weaken frame), compute_merit_frame
                 | benign_step ].
Qed.

Lemma benign_cfs_iteration (c fo : list nat) :
  preserves any_state (cfs_iteration c fo).
Proof.
  unfold cfs_iteration.
  apply preserves_bind; [apply _|apply benign_cfs_expand|intros [m [i|]]];
    repeat first [ apply benign_scores_append | benign_step ].
Qed.

Lemma continue_after_true (fo : list nat) (scores : list float) :
  continue_after fo scores = true → length fo ≠ 0.
Proof.
  unfold continue_after. repeat case_decide; try done;
    by destruct (stagnation_scan _ _).
Qed.

(** The loop of [cfs] does not run out of fuel when its fuel is at least
    the size of the pool less one. *)
Lemma cfs_while_benign (l : list float) (fuel : nat) (c fo : list nat)
    (s s' : t) (r : result (list nat)) :
  _su_labels s = Some l → length fo ≤ S fuel →
  cfs_while fuel c fo s = (r, s') → benign r.
Proof.
  revert c fo s. induction fuel as [|fuel IH]; intros c fo s Hl Hlen;
    rewrite cfs_while_unfold, bind_unfold;
    destruct (cfs_iteration c fo s) as [[[[cont c1] fo1]|e] s1] eqn:E.
  - apply (cfs_iteration_inv l) in E
      as (m & i & f & Hf & -> & -> & Hgt & Hof & Hsc & Hl1 & Hr & HX & Hy & ->);
      [|done].
    apply lookup_lt_Some in Hf.
    destruct (continue_after _ _) eqn:Hc; [|intros [= <- <-]; apply benign_Ok].
    apply continue_after_true in Hc. rewrite length_delete in Hc
      by eauto using lookup_lt_is_Some_2. lia.
  - intros [= <- <-]. apply benign_cfs_iteration in E as [_ E].
    intros e' [= <-]. by apply (E e).
  - apply (cfs_iteration_inv l) in E
      as (m & i & f & Hf & -> & -> & Hgt & Hof & Hsc & Hl1 & Hr & HX & Hy & ->);
      [|done].
    apply lookup_lt_Some in Hf.
    destruct (continue_after _ _) eqn:Hc; [|intros [= <- <-]; apply benign_Ok].
    apply IH; [done|]. rewrite length_delete by eauto using lookup_lt_is_Some_2. lia.
  - intros [= <- <-]. apply benign_cfs_iteration in E as [_ E].
    intros e' [= <-]. by apply (E e).
Qed.


(** *** The two calls *)

Section search.

Variable argsort : list float → list nat.

Lemma cfs_unfold (X y : ndarray) (s : t) :
  cfs argsort X y s =
  (s_list ← _compute_su_labels;
   match argsort (Float.neg <$> s_list) with
   | [] => raise (IndexError "pop from empty list")
   | first_candidate :: feature_order =>
       s_first ← su_labels_getitem first_candidate;
       scores_append s_first;;
       candidates ← cfs_while (length feature_order) [first_candidate] feature_order;
       set_result (Some candidates)
   end) (start X y).
Proof. reflexivity. Qed.

Lemma fcbs_unfold (X y : ndarray) (threshold : float) (s : t) :
  (threshold <? Fin (1 / 10000))%fl = false →
  fcbs argsort X y threshold s =
  (s_list ← _compute_su_labels;
   set_result (Some []);;
   fcbs_loop threshold (argsort (Float.neg <$> s_list))
     (argsort (Float.neg <$> s_list))) (start X y).
Proof. intros H. unfold fcbs. rewrite H. reflexivity. Qed.

(** What a call of [fcbs] that returns leaves behind: [l0] is the vector
    of the symmetrical uncertainties of the features with the labels. *)
Lemma fcbs_inv (X y : ndarray) (threshold : float) (s s' : t) :
  fcbs argsort X y threshold s = (Ok (), s') →
  (threshold <? Fin (1 / 10000))%fl = false ∧
  ∃ l0 l' r,
    np.shape1 X = Ok (length l0) ∧
    (∀ col, col < length l0 → ∃ v, su_label_of X y col = Ok v ∧ l0 !! col = Some v) ∧
    _su_labels s' = Some l' ∧ zeroed l0 l' ∧ _result s' = Some r ∧
    (∀ f, f ∈ r → f ∈ argsort (Float.neg <$> l0) ∧
       ∃ v, l0 !! f = Some v ∧ (v =? Fin 0)%fl = false ∧
            (v <? threshold)%fl = false) ∧
    (NoDup (argsort (Float.neg <$> l0)) → ∀ f, f ∈ r → l' !! f = l0 !! f).
Proof.
  intros H. destruct (threshold <? Fin (1 / 10000))%fl eqn:Ht.
  { unfold fcbs in H. rewrite Ht in H. done. }
  split; [done|]. rewrite fcbs_unfold in H by done.
  apply bind_ok_inv in H as (l0 & s1 & H1 & H).
  apply (compute_su_labels_inv X y) in H1 as ((Hr & Hsc & Hf & HX & Hy) & Hl & Hn & Hvs);
    [|done..].
  apply bind_ok_inv in H as ([] & s2 & H2 & H). injection H2 as <-.
  apply (fcbs_loop_inv l0) with (l := l0) (r := []) in H
    as (_ & _ & l' & r & Hl' & Hz & Hr' & Hacc & Hkeep);
    [|done|apply zeroed_refl|done].
  exists l0, l', r. repeat split; try done.
  - by apply Hacc.
  - by apply Hacc.
  - intros Hnd. by apply Hkeep.
Qed.

(** On a matrix and labels of the same length, and for a threshold that
    passes the check, [fcbs] returns. *)
Lemma fcbs_returns (n : nat) (rows : list (list Z)) (y : ndarray)
    (threshold : float) (s : t) :
  argsort_permutes argsort → np.len y = length rows →
  (threshold <? Fin (1 / 10000))%fl = false →
  ∃ s', fcbs argsort (Mat n rows) y threshold s = (Ok (), s').
Proof.
  intros Hperm Hlen Ht. rewrite fcbs_unfold by done.
  destruct (list_of_values (λ col v, su_label_of (Mat n rows) y col = Ok v) n)
    as (vs & Hvs & Hval).
  { intros col Hcol. by apply su_label_of_ok. }
  rewrite bind_unfold.
  rewrite (compute_su_labels_exact n rows y vs); [|done..].
  rewrite bind_unfold. simpl.
  apply (fcbs_loop_returns n).
  - split; [by exists rows|]. split; [by exists vs|]. simpl. eauto.
  - apply Forall_forall. intros q Hq. rewrite (Hperm _) in Hq.
    apply elem_of_seq in Hq. rewrite length_fmap in Hq. lia.
Qed.

(** C3.  For a threshold of at least 1e-4, every feature in the result of
    a call of [fcbs] that returns has a symmetrical uncertainty with the
    labels that is not below the threshold: it is at least the threshold,
    or it is NaN. *)
Theorem fcbs_result_not_below_threshold (X y : ndarray) (threshold : float)
    (s s' : t) :
  (threshold >=? Fin (1 / 10000))%fl = true →
  fcbs argsort X y threshold s = (Ok (), s') →
  ∃ r, get_results s' = Some r ∧
    ∀ f, f ∈ r →
      ∃ v, su_label_of X y f = Ok v ∧ (v <? threshold)%fl = false ∧
           (v = NaN ∨ (v >=? threshold)%fl = true).
Proof.
  intros Ht H. apply fcbs_inv in H
    as (_ & l0 & l' & r & Hn & Hvs & Hl' & Hz & Hr & Hacc & _).
  exists r. split; [done|]. intros f Hf.
  destruct (Hacc f Hf) as (_ & v & Hv & _ & Hlt).
  destruct (Hvs f) as (v' & Hsu & Hv'); [by eapply lookup_lt_Some|].
  assert (v' = v) as -> by congruence.
  exists v. split; [done|]. split; [done|].
  apply FloatFacts.not_ltb_geb; [done|].
  by eapply FloatFacts.geb_not_nan.
Qed.

(** C4.  [fcbs] has no working copy of the label-correlation vector:
    after a call that returns, every entry of [_su_labels] is the
    symmetrical uncertainty of its feature with the labels or has been
    overwritten by 0.0, and the entries of the features in the result are
    the original ones. *)
Theorem fcbs_su_labels_in_place (X y : ndarray) (threshold : float)
    (s s' : t) :
  argsort_permutes argsort →
  fcbs argsort X y threshold s = (Ok (), s') →
  ∃ l0 l' r,
    np.shape1 X = Ok (length l0) ∧
    Forall2 (λ col v, su_label_of X y col = Ok v) (seq 0 (length l0)) l0 ∧
    _su_labels s' = Some l' ∧ get_results s' = Some r ∧
    Forall2 (λ v0 v, v = v0 ∨ v = Fin 0) l0 l' ∧
    ∀ f, f ∈ r → l' !! f = l0 !! f.
Proof.
  intros Hperm H. apply fcbs_inv in H
    as (_ & l0 & l' & r & Hn & Hvs & Hl' & Hz & Hr & _ & Hkeep).
  exists l0, l', r. split; [done|]. split.
  { apply Forall2_same_length_lookup. split; [by rewrite length_seq|].
    intros i col v Hcol Hv. apply lookup_seq in Hcol as [-> Hi].
    destruct (Hvs i Hi) as (v' & Hsu & Hv'). simpl. congruence. }
  split; [done|]. split; [done|]. split; [done|].
  apply Hkeep. rewrite (Hperm _). apply NoDup_seq.
Qed.

(** C5.  A threshold below 1e-4 makes [fcbs] raise its [ValueError] at
    once, leaving every attribute as it was; a threshold of at least 1e-4
    never makes it raise that error. *)
Theorem fcbs_threshold_check (X y : ndarray) (threshold : float) (s : t) :
  ((threshold <? Fin (1 / 10000))%fl = true →
   fcbs argsort X y threshold s = (Raise threshold_error, s)) ∧
  ((threshold >=? Fin (1 / 10000))%fl = true →
   (fcbs argsort X y threshold s).1 ≠ Raise threshold_error).
Proof.
  split.
  - intros H. unfold fcbs. rewrite H. reflexivity.
  - intros H%FloatFacts.geb_not_ltb. rewrite fcbs_unfold by done.
    assert (preserves any_state
      (s_list ← _compute_su_labels;
       set_result (Some []);;
       fcbs_loop threshold (argsort (Float.neg <$> s_list))
         (argsort (Float.neg <$> s_list)))) as Hb.
    { apply preserves_bind; [apply _|apply benign_compute_su_labels|intros l].
      apply preserves_bind; [apply _|unfold set_result; repeat benign_step|intros ?].
      apply benign_fcbs_loop. }
    match goal with |- (?m ?s0).1 ≠ _ => destruct (m s0) as [r s1] eqn:E end.
    apply Hb in E as [_ E]. simpl. intros ->. apply (E _ eq_refl). by left.
Qed.

(** C10.  [_initialize] empties the result, the score trace and both
    caches; [cfs], and [fcbs] once the threshold has passed its check,
    start with it, so that what they return and every attribute they
    leave are those of the same call on a fresh object, whatever the
    attributes were. *)
Theorem calls_reset_first (X y : ndarray) (threshold : float) (s : t) :
  _initialize s = (Ok (), mk None [] None ∅ (X_ s) (y_ s)) ∧
  cfs argsort X y s = cfs argsort X y (_initialize s).2 ∧
  cfs argsort X y s = cfs argsort X y __init__ ∧
  ((threshold <? Fin (1 / 10000))%fl = false →
   fcbs argsort X y threshold s = fcbs argsort X y threshold (_initialize s).2 ∧
   fcbs argsort X y threshold s = fcbs argsort X y threshold __init__).
Proof.
  split; [reflexivity|]. split; [reflexivity|]. split; [reflexivity|].
  intros Ht. rewrite !fcbs_unfold by done. done.
Qed.

(** A call of [cfs] never exhausts the fuel of its loop. *)
Lemma cfs_fuel_suffices (X y : ndarray) (s : t) :
  (cfs argsort X y s).1 ≠ Raise OutOfFuel.
Proof.
  rewrite cfs_unfold, bind_unfold.
  destruct (_compute_su_labels (start X y)) as [[l|e] s1] eqn:E1; simpl.
  2:{ apply benign_compute_su_labels in E1 as [_ E1].
      intros [= ->]. apply (E1 _ eq_refl). by right. }
  apply (compute_su_labels_inv X y) in E1 as (_ & Hl & _); [|done..].
  destruct (argsort (Float.neg <$> l)) as [|first fo]; [done|].
  rewrite bind_unfold.
  destruct (su_labels_getitem first s1) as [[s0|e] s2] eqn:E2; simpl.
  2:{ apply benign_su_labels_getitem in E2 as [_ E2].
      intros [= ->]. apply (E2 _ eq_refl). by right. }
  apply su_labels_getitem_inv in E2 as (-> & _).
  rewrite bind_unfold. simpl. rewrite bind_unfold.
  match goal with |- context [cfs_while ?n ?c ?f ?st] =>
    destruct (cfs_while n c f st) as [[c'|e] s3] eqn:E3 end; simpl; [done|].
  apply (cfs_while_benign l) in E3; [|done|lia].
  intros [= ->]. apply (E3 _ eq_refl). by right.
Qed.


End search.


(** *** Two small data sets *)

Lemma su_label_twins (col : nat) (v : float) :
  [Fin 1; Fin 1] !! col = Some v → su_label_of X_twins y_binary col = Ok v.
Proof.
  destruct col as [|[|col]]; intros [= <-]; unfold su_label_of.
  - change (np.column X_twins 0) with (Ok (Vec [0; 1]%Z)).
    rewrite result_bind_Ok. apply su_binary_same.
  - change (np.column X_twins 1) with (Ok (Vec [0; 1]%Z)).
    rewrite result_bind_Ok. apply su_binary_same.
Qed.

Lemma su_features_twins : su_features_of X_twins 0 1 = Ok (Fin 1).
Proof.
  unfold su_features_of.
  change (np.column X_twins 0) with (Ok (Vec [0; 1]%Z)).
  change (np.column X_twins 1) with (Ok (Vec [0; 1]%Z)).
  rewrite !result_bind_Ok. apply su_binary_same.
Qed.

Lemma su_label_constant (col : nat) (v : float) :
  [NaN] !! col = Some v → su_label_of X_constant y_constant col = Ok v.
Proof.
  destruct col as [|col]; intros [= <-]; unfold su_label_of.
  change (np.column X_constant 0) with (Ok (Vec [0; 0]%Z)).
  rewrite result_bind_Ok. apply su_constant_constant.
Qed.

Lemma argsort_twins : np.argsort (Float.neg <$> [Fin 1; Fin 1]) = [0; 1].
Proof.
  unfold np.argsort. simpl. unfold np.key_le, Float.leb. simpl.
  rewrite (bool_decide_true (_ = _)) by done. by rewrite orb_true_r.
Qed.

Lemma fcbs_constant_run :
  fcbs np.argsort X_constant y_constant (Fin (1 / 2)) __init__ =
  (Ok (), mk (Some [0]) [NaN] (Some [NaN]) ∅ (Some X_constant) (Some y_constant)).
Proof.
  rewrite fcbs_unfold by (apply bool_decide_eq_false; lra).
  rewrite bind_unfold.
  rewrite (compute_su_labels_exact 1 [[0]; [0]]%Z y_constant [NaN]);
    [|done|done|done|done|apply su_label_constant].
  reflexivity.
Qed.

(** Evaluation of a pairwise lookup that misses the cache. *)
Lemma compute_su_features_miss (X : ndarray) (a b : nat) (v : float) (s : t) :
  X_ s = Some X → _su_features s !! (a, b) = None →
  su_features_of X a b = Ok v →
  _compute_su_features a b s =
  (Ok v, mk (_result s) (_scores s) (_su_labels s)
            (<[(a, b) := v]> (_su_features s)) (X_ s) (y_ s)).
Proof.
  intros HX Hc Hv. unfold _compute_su_features. rewrite bind_unfold. simpl.
  rewrite Hc. unfold get_X_. rewrite !bind_unfold. simpl. rewrite HX. simpl.
  unfold su_features_of in Hv.
  destruct (np.column X a) as [xa|]; [|done].
  destruct (np.column X b) as [xb|]; [|done].
  rewrite !result_bind_Ok in Hv.
  rewrite bind_unfold. unfold lift at 1. rewrite bind_unfold. unfold lift at 1.
  rewrite Hv, <- HX. reflexivity.
Qed.

#[local] Arguments _compute_su_features : simpl never.
#[local] Arguments _compute_merit : simpl never.

Ltac decide_reals :=
  repeat first
    [ rewrite bool_decide_true by lra
    | rewrite bool_decide_false by lra
    | rewrite decide_True by lra
    | rewrite decide_False by lra ].

Ltac run_step :=
  first
    [ rewrite bind_unfold
    | progress simpl
    | progress decide_reals
    | rewrite FloatFacts.gtb_min_Fin by lra
    | progress unfold Float.geb, Float.leb ].
Ltac run := repeat run_step.

Lemma fcbs_twins_run :
  fcbs np.argsort X_twins y_binary (Fin (1 / 2)) __init__ =
  (Ok (), mk (Some [0]) [Fin 1] (Some [Fin 1; Fin 0])
             (<[(0, 1) := Fin 1]> ∅) (Some X_twins) (Some y_binary)).
Proof.
  rewrite fcbs_unfold by (apply bool_decide_eq_false; lra).
  rewrite bind_unfold.
  rewrite (compute_su_labels_exact 2 [[0; 0]; [1; 1]]%Z y_binary [Fin 1; Fin 1]);
    [|done|done|done|done|apply su_label_twins].
  rewrite argsort_twins. run.
  rewrite (compute_su_features_miss X_twins 0 1 (Fin 1));
    [|done|apply lookup_empty|apply su_features_twins].
  run. reflexivity.
Qed.

Lemma merit_twins (s : t) :
  X_ s = Some X_twins → _su_labels s = Some [Fin 1; Fin 1] →
  _su_features s = ∅ →
  _compute_merit [0; 1] s =
  (Ok (Fin 1), mk (_result s) (_scores s) (_su_labels s)
                  (<[(0, 1) := Fin 1]> ∅) (X_ s) (y_ s)).
Proof.
  intros HX Hl Hc. unfold _compute_merit, su_labels_array.
  rewrite !bind_unfold. simpl. rewrite Hl. run.
  rewrite (compute_su_features_miss X_twins 0 1 (Fin 1));
    [|done|by rewrite Hc|apply su_features_twins].
  rewrite Hc. run.
  assert (sqrt (1 + 1 + (1 + 1) * (0 + 1)) = 2)%R as ->.
  { replace (1 + 1 + (1 + 1) * (0 + 1))%R with (2 * 2)%R by lra.
    apply sqrt_square. lra. }
  run. replace ((0 + 1 + 1) / 2)%R with 1%R by lra.
  rewrite <- Hl. reflexivity.
Qed.

Lemma cfs_twins_run :
  cfs np.argsort X_twins y_binary __init__ =
  (Ok (), mk (Some [0; 1]) [Fin 1; Fin 1] (Some [Fin 1; Fin 1])
             (<[(0, 1) := Fin 1]> ∅) (Some X_twins) (Some y_binary)).
Proof.
  rewrite cfs_unfold. rewrite bind_unfold.
  rewrite (compute_su_labels_exact 2 [[0; 0]; [1; 1]]%Z y_binary [Fin 1; Fin 1]);
    [|done|done|done|done|apply su_label_twins].
  rewrite argsort_twins. run.
  unfold cfs_iteration. run.
  rewrite merit_twins by done. run. reflexivity.
Qed.


(** *** The properties on the two data sets *)

Lemma compute_merit_formula_witness :
  (∃ sel vals s',
     Forall2 (λ f v, [Fin 1; Fin 1] !! f = Some v) [0; 1] sel ∧
     Forall2 (λ p v, su_features_of (Mat 2 [[0; 0]; [1; 1]]%Z) p.1 p.2 = Ok v)
       (combinations2 [0; 1]) vals ∧
     let k := length [0; 1] in
     _compute_merit [0; 1] twins_ready =
       (d ← math.sqrt (Float.of_nat k + Float.of_nat (k ^ 2 - k) * np.sum vals)%fl;
        Ok (np.sum sel / d)%fl, s') ∧
     frame twins_ready s' ∧
     cache_ok (Mat 2 [[0; 0]; [1; 1]]%Z) (_su_features s')) ∧
  (∀ f v, [Fin 1; Fin 1] !! f = Some v →
     _compute_merit [f] twins_ready = (Ok v, twins_ready)).
Proof.
  apply (compute_merit_formula twins_ready 2 [[0; 0]; [1; 1]]%Z
           [Fin 1; Fin 1] [0; 1]).
  - reflexivity.
  - reflexivity.
  - apply cache_ok_empty.
  - repeat constructor; simpl; lia.
Defined.

(** Against C3 as it is written: on one constant feature with constant
    labels and the threshold 0.5, [fcbs] returns feature 0, whose
    symmetrical uncertainty with the labels is NaN, which is not at least
    0.5. *)
Lemma fcbs_accepts_nan_feature :
  (Fin (1 / 2) >=? Fin (1 / 10000))%fl = true ∧
  (fcbs np.argsort X_constant y_constant (Fin (1 / 2)) __init__).1 = Ok () ∧
  get_results (fcbs np.argsort X_constant y_constant (Fin (1 / 2)) __init__).2
    = Some [0] ∧
  su_label_of X_constant y_constant 0 = Ok NaN ∧
  (NaN >=? Fin (1 / 2))%fl = false.
Proof.
  rewrite fcbs_constant_run. repeat split.
  - apply orb_true_iff. left. apply bool_decide_eq_true. lra.
  - by apply su_label_constant.
Qed.

Lemma fcbs_result_not_below_threshold_witness :
  ∃ r, get_results (fcbs np.argsort X_twins y_binary (Fin (1 / 2)) __init__).2
         = Some r ∧
    ∀ f, f ∈ r →
      ∃ v, su_label_of X_twins y_binary f = Ok v ∧
           (v <? Fin (1 / 2))%fl = false ∧
           (v = NaN ∨ (v >=? Fin (1 / 2))%fl = true).
Proof.
  apply (fcbs_result_not_below_threshold np.argsort X_twins y_binary
           (Fin (1 / 2)) __init__).
  - apply orb_true_iff. left. apply bool_decide_eq_true. lra.
  - rewrite fcbs_twins_run. reflexivity.
Defined.

(** Against C4 as it is written: on the twin features with the threshold
    0.5, [fcbs] leaves 0.0 in the entry of feature 1 of [_su_labels],
    whose symmetrical uncertainty with the labels is 1. *)
Lemma fcbs_overwrites_su_labels :
  (fcbs np.argsort X_twins y_binary (Fin (1 / 2)) __init__).1 = Ok () ∧
  su_label_of X_twins y_binary 1 = Ok (Fin 1) ∧
  _su_labels (fcbs np.argsort X_twins y_binary (Fin (1 / 2)) __init__).2
    = Some [Fin 1; Fin 0] ∧
  Fin 0 ≠ Fin 1.
Proof.
  rewrite fcbs_twins_run. repeat split.
  - by apply su_label_twins.
  - intros [= H]. lra.
Qed.

Lemma fcbs_su_labels_in_place_witness :
  ∃ l0 l' r,
    np.shape1 X_twins = Ok (length l0) ∧
    Forall2 (λ col v, su_label_of X_twins y_binary col = Ok v)
      (seq 0 (length l0)) l0 ∧
    _su_labels (fcbs np.argsort X_twins y_binary (Fin (1 / 2)) __init__).2
      = Some l' ∧
    get_results (fcbs np.argsort X_twins y_binary (Fin (1 / 2)) __init__).2
      = Some r ∧
    Forall2 (λ v0 v, v = v0 ∨ v = Fin 0) l0 l' ∧
    ∀ f, f ∈ r → l' !! f = l0 !! f.
Proof.
  apply (fcbs_su_labels_in_place np.argsort X_twins y_binary (Fin (1 / 2))
           __init__).
  - exact argsort_perm.
  - rewrite fcbs_twins_run. reflexivity.
Defined.

Lemma fcbs_threshold_check_witness :
  fcbs np.argsort X_twins y_binary (Fin 0) __init__ =
    (Raise threshold_error, __init__) ∧
  (fcbs np.argsort X_twins y_binary (Fin (1 / 2)) __init__).1 ≠
    Raise threshold_error.
Proof.
  split.
  - apply (fcbs_threshold_check np.argsort X_twins y_binary (Fin 0) __init__).
    apply bool_decide_eq_true. lra.
  - apply (fcbs_threshold_check np.argsort X_twins y_binary (Fin (1 / 2)) __init__).
    apply orb_true_iff. left. apply bool_decide_eq_true. lra.
Defined.

Lemma calls_reset_first_witness :
  fcbs np.argsort X_twins y_binary (Fin (1 / 2)) twins_ready =
    fcbs np.argsort X_twins y_binary (Fin (1 / 2)) (_initialize twins_ready).2 ∧
  fcbs np.argsort X_twins y_binary (Fin (1 / 2)) twins_ready =
    fcbs np.argsort X_twins y_binary (Fin (1 / 2)) __init__.
Proof.
  apply (calls_reset_first np.argsort X_twins y_binary (Fin (1 / 2)) twins_ready).
  apply bool_decide_eq_false. lra.
Defined.

(** *** The stopping rule on synthetic score traces *)

Ltac scan_eval :=
  simpl; decide_reals; unfold Float.gtb; rewrite ?FloatFacts.ltb_Fin;
  decide_reals.

(** Five equal scores end the search while a feature is left in the pool;
    four do not, and neither does a rising trace. *)
Lemma continue_after_plateau :
  continue_after [7] [Fin 1; Fin 1; Fin 1; Fin 1; Fin 1] = false ∧
  continue_after [7] [Fin 1; Fin 1; Fin 1; Fin 1] = true ∧
  continue_after [7] [Fin 1; Fin 2; Fin 3; Fin 4; Fin 5] = true.
Proof.
  unfold continue_after. scan_eval. done.
Qed.

(** Only the last five scores count. *)
Lemma continue_after_window :
  continue_after [7] [Fin 1; Fin 2; Fin 2; Fin 2; Fin 2; Fin 2] = false.
Proof.
  unfold continue_after. scan_eval. done.
Qed.

(** The sentinel of the scan: an entry equal to -1 hides the increase that
    follows it.  No score of [cfs] is -1 ([first_score_not_sentinel],
    [gtb_min_not_sentinel]). *)
Lemma stagnation_scan_sentinel :
  stagnation_scan (Fin (-1)) [Fin (-1); Fin 5; Fin 4; Fin 3; Fin 2] = true ∧
  ¬ non_increasing [Fin (-1); Fin 5; Fin 4; Fin 3; Fin 2].
Proof.
  split.
  - scan_eval. done.
  - intros H. specialize (H 0 (Fin (-1)) (Fin 5) eq_refl eq_refl).
    unfold Float.gtb in H. simpl in H.
    rewrite bool_decide_true in H by lra. done.
Qed.

End MFSFacts.


(** * Part III: further properties *)

(** ** Entropy, sample by sample *)

Module MetricsMore.

Import Spec npFacts MetricsFacts.

#[local] Arguments occ : simpl never.

Lemma Rsum_app (l1 l2 : list R) : Rsum (l1 ++ l2) = (Rsum l1 + Rsum l2)%R.
Proof. induction l1 as [|x l1 IH]; simpl; [lra|]. rewrite IH. lra. Qed.

Lemma Rsum_perm (l1 l2 : list R) : l1 ≡ₚ l2 → Rsum l1 = Rsum l2.
Proof. induction 1; simpl; lra. Qed.

Lemma Rsum_nonneg (l : list R) : Forall (λ x, (0 <= x)%R) l → (0 <= Rsum l)%R.
Proof. induction 1; simpl; lra. Qed.

Lemma Rsum_ext {A} (f g : A → R) (l : list A) :
  (∀ a, a ∈ l → f a = g a) → Rsum (f <$> l) = Rsum (g <$> l).
Proof.
  induction l as [|a l IH]; intros H; csimpl; [done|].
  rewrite (H a) by left. rewrite IH; [done|]. intros b Hb. apply H. by right.
Qed.

Lemma foldl_Rsum {A} (f : A → R) (l : list A) (acc : R) :
  foldl (λ acc a, acc + f a)%R acc l = (acc + Rsum (f <$> l))%R.
Proof.
  revert acc. induction l as [|a l IH]; intros acc; csimpl; [lra|].
  rewrite IH. lra.
Qed.

Lemma occ_cons_eq (r : list Z) (l : list (list Z)) : occ r (r :: l) = S (occ r l).
Proof. unfold occ. by apply count_occ_cons_eq. Qed.

Lemma occ_cons_ne (r r' : list Z) (l : list (list Z)) :
  r' ≠ r → occ r (r' :: l) = occ r l.
Proof. intros H. unfold occ. by apply count_occ_cons_neq. Qed.

Lemma occ_pos (r : list Z) (l : list (list Z)) : r ∈ l ↔ 0 < occ r l.
Proof. unfold occ. rewrite list_elem_of_In. apply count_occ_In. Qed.

Lemma occ_zero (r : list Z) (l : list (list Z)) : r ∉ l ↔ occ r l = 0.
Proof. unfold occ. rewrite list_elem_of_In. apply count_occ_not_In. Qed.

Lemma occ_le_length (r : list Z) (l : list (list Z)) : occ r l ≤ length l.
Proof. apply count_occ_bound. Qed.

Lemma occ_perm (r : list Z) (l1 l2 : list (list Z)) :
  l1 ≡ₚ l2 → occ r l1 = occ r l2.
Proof. intros H. unfold occ. by apply Permutation_count_occ. Qed.

(** On a sorted list the runs are the distinct rows, each with the number
    of its occurrences. *)
Lemma run_lengths_spec (s : list (list Z)) :
  StronglySorted np.row_le s →
  NoDup (np.run_lengths s).*1 ∧
  (∀ v c, (v, c) ∈ np.run_lengths s → c = occ v s) ∧
  (∀ v, v ∈ (np.run_lengths s).*1 ↔ v ∈ s) ∧
  head (np.run_lengths s).*1 = head s.
Proof.
  induction 1 as [|r t Ht IH Hr]; simpl.
  { split; [constructor|]. split; [by intros v c ?%elem_of_nil|].
    split; [done|done]. }
  destruct IH as (Hnd & Hc & Hin & Hhd).
  destruct (np.run_lengths t) as [|[r' c] g] eqn:Hruns.
  - assert (t = []) as ->.
    { destruct t as [|x t]; [done|]. exfalso.
      assert (x ∈ []) as ?%elem_of_nil; [|done]. apply Hin. left. }
    simpl. split; [apply NoDup_singleton|].
    split; [|split; [done|done]].
    intros v c' [= -> ->]%list_elem_of_singleton. by rewrite occ_cons_eq.
  - csimpl in *. destruct t as [|x t']; [done|]. injection Hhd as ->.
    apply NoDup_cons in Hnd as [Hx Hnd].
    case_decide as Heq; simpl.
    + subst r. split; [by apply NoDup_cons|]. split; [|split; [|done]].
      * intros v c' [[= -> ->]|Hv]%elem_of_cons.
        -- rewrite occ_cons_eq. f_equal. apply Hc. left.
        -- assert (v ≠ x) as Hne.
           { intros ->. apply Hx. apply list_elem_of_fmap. by exists (x, c'). }
           rewrite occ_cons_ne by done. apply Hc. by right.
      * intros v. rewrite (Hin v). rewrite !elem_of_cons. tauto.
    + assert (r ∉ x :: t') as Hnin.
      { intros Hrin. apply Heq. apply (anti_symm np.row_le).
        - rewrite Forall_forall in Hr. apply Hr. left.
        - apply StronglySorted_inv in Ht as [_ Hx'].
          apply elem_of_cons in Hrin as [->|Hrin]; [apply row_leb_refl|].
          rewrite Forall_forall in Hx'. by apply Hx'. }
      split.
      { apply NoDup_cons. split; [|by apply NoDup_cons].
        intros Hrin. apply Hnin. by apply Hin. }
      split; [|split; [|done]].
      * intros v c' [[= -> ->]|Hv]%elem_of_cons.
        -- rewrite occ_cons_eq. f_equal. symmetry. by apply occ_zero.
        -- assert (v ∈ x :: t') as Hvin.
           { apply Hin. change (v ∈ ((x, c) :: g).*1).
             apply list_elem_of_fmap. by exists (v, c'). }
           rewrite occ_cons_ne by (intros ->; done). by apply Hc.
      * intros v. rewrite elem_of_cons, (Hin v). rewrite (elem_of_cons (x :: t')).
        done.
Qed.

(** A sum over the samples is a sum over the distinct values, each taken
    as often as it occurs. *)
Lemma Rsum_indicator (F : list Z → R) (r : list Z) (vs : list (list Z)) :
  NoDup vs → r ∈ vs →
  Rsum ((λ v, if decide (v = r) then F v else 0%R) <$> vs) = F r.
Proof.
  induction 1 as [|v vs Hv Hnd IH]; [by intros ?%elem_of_nil|].
  intros [->|Hr]%elem_of_cons; csimpl.
  - rewrite decide_True by done.
    rewrite (Rsum_ext _ (λ _, 0%R)).
    + assert (Rsum ((λ _, 0%R) <$> vs) = 0%R) as ->; [|lra].
      clear. induction vs; csimpl; lra.
    + intros a Ha. rewrite decide_False; [done|]. by intros ->.
  - rewrite decide_False by (by intros ->). rewrite IH by done. lra.
Qed.

Lemma Rsum_by_values (F : list Z → R) (l vs : list (list Z)) :
  NoDup vs → (∀ r, r ∈ l → r ∈ vs) →
  Rsum (F <$> l) = Rsum ((λ v, INR (occ v l) * F v)%R <$> vs).
Proof.
  intros Hnd. induction l as [|r l IH]; intros Hin.
  - csimpl. rewrite (Rsum_ext _ (λ _, 0%R)).
    + clear. induction vs; csimpl; lra.
    + intros a _. simpl. lra.
  - csimpl. rewrite IH by (intros; apply Hin; by right).
    rewrite <- (Rsum_indicator F r vs Hnd) by (apply Hin; left).
    assert (∀ (f g : list Z → R),
      (Rsum (f <$> vs) + Rsum (g <$> vs))%R = Rsum ((λ v, f v + g v)%R <$> vs))
      as Hadd.
    { intros f g. clear. induction vs; csimpl; lra. }
    rewrite Hadd. apply Rsum_ext. intros v _.
    destruct (decide (v = r)) as [->|Hne].
    + rewrite occ_cons_eq, S_INR. lra.
    + rewrite occ_cons_ne by done. lra.
Qed.

Lemma term_surprise (n c : nat) :
  0 < c → 0 < n →
  (INR c / INR n * ln (1 / (INR c / INR n)))%R =
  (INR c * (surprise n c / INR n))%R.
Proof.
  intros Hc Hn. apply lt_0_INR in Hc, Hn. unfold surprise.
  replace (1 / (INR c / INR n))%R with (INR n / INR c)%R by (field; lra).
  field. lra.
Qed.

(** The sum [entropy] computes from the counts of [np.unique] is the mean
    surprise of the samples. *)
Lemma entropy_sum_sample (y : ndarray) :
  entropy_sum (np.unique y).2 (np.len y) = sample_entropy (np.as_rows y).
Proof.
  unfold entropy_sum, sample_entropy, np.unique. simpl.
  rewrite foldl_Rsum, Rplus_0_l, <- len_as_rows.
  set (l := np.as_rows y). set (s := merge_sort np.row_le l).
  assert (s ≡ₚ l) as Hp by apply merge_sort_Permutation.
  destruct (run_lengths_spec s) as (Hnd & Hc & Hin & _).
  { apply StronglySorted_merge_sort; apply _. }
  set (F := λ r, (surprise (length l) (occ r l) / INR (length l))%R).
  rewrite (Rsum_by_values F l (np.run_lengths s).*1 Hnd).
  2:{ intros r Hr. apply Hin. by rewrite Hp. }
  rewrite <- !list_fmap_compose. apply Rsum_ext. intros [v c] Hvc. simpl.
  rewrite (Hc v c Hvc), (occ_perm v s l Hp).
  assert (v ∈ l) as Hv.
  { rewrite <- Hp. apply Hin. apply list_elem_of_fmap. by exists (v, c). }
  apply term_surprise; [by apply occ_pos|].
  apply occ_pos in Hv. pose proof (occ_le_length v l). lia.
Qed.

(** [entropy] in closed form. *)
Lemma entropy_sample (y : ndarray) (base : R) :
  (0 < base)%R → base ≠ 1%R →
  Metrics.entropy y base =
  Ok (Fin (sample_entropy (np.as_rows y) / ln base)).
Proof.
  intros Hb Hne. rewrite entropy_value by done. by rewrite entropy_sum_sample.
Qed.

(** *** Sums *)

Lemma Rsum_mono {A} (f g : A → R) (l : list A) :
  (∀ a, a ∈ l → (f a <= g a)%R) → (Rsum (f <$> l) <= Rsum (g <$> l))%R.
Proof.
  induction l as [|a l IH]; intros H; csimpl; [lra|].
  pose proof (H a (list_elem_of_here _ _)).
  assert (Rsum (f <$> l) <= Rsum (g <$> l))%R; [|lra].
  apply IH. intros b Hb. apply H. by right.
Qed.

Lemma Rsum_plus {A} (f g : A → R) (l : list A) :
  Rsum ((λ a, f a + g a)%R <$> l) = (Rsum (f <$> l) + Rsum (g <$> l))%R.
Proof. induction l; csimpl; lra. Qed.

Lemma Rsum_scal {A} (c : R) (f : A → R) (l : list A) :
  Rsum ((λ a, c * f a)%R <$> l) = (c * Rsum (f <$> l))%R.
Proof. induction l; csimpl; lra. Qed.

Lemma Rsum_const {A} (c : R) (l : list A) :
  Rsum ((λ _, c) <$> l) = (INR (length l) * c)%R.
Proof.
  induction l as [|a l IH]; [simpl; lra|].
  rewrite fmap_cons, length_cons, S_INR. simpl. rewrite IH. lra.
Qed.

Lemma Rsum_zero_inv {A} (f : A → R) (l : list A) :
  (∀ a, a ∈ l → (0 <= f a)%R) → Rsum (f <$> l) = 0%R →
  ∀ a, a ∈ l → f a = 0%R.
Proof.
  induction l as [|b l IH]; intros Hf Hs a Ha; [by apply elem_of_nil in Ha|].
  csimpl in Hs.
  pose proof (Hf b (list_elem_of_here _ _)).
  assert (0 <= Rsum (f <$> l))%R.
  { apply Rsum_nonneg, Forall_fmap, Forall_forall. intros c Hc. simpl.
    apply Hf. by right. }
  apply elem_of_cons in Ha as [->|Ha]; [lra|].
  apply IH; [|lra|done]. intros c Hc. apply Hf. by right.
Qed.

Lemma Rsum_submseteq {A} (f : A → R) (l k : list A) :
  (∀ a, (0 <= f a)%R) → l ⊆+ k → (Rsum (f <$> l) <= Rsum (f <$> k))%R.
Proof.
  intros Hf. induction 1 as [|x l1 l2 _ IH|x y l|x l1 l2 _ IH|l1 l2 l3 _ IH1 _ IH2];
    csimpl; try lra.
  pose proof (Hf x). lra.
Qed.

Lemma Rsum_bind {A B} (f : B → R) (g : A → list B) (l : list A) :
  Rsum (f <$> (l ≫= g)) = Rsum ((λ a, Rsum (f <$> g a)) <$> l).
Proof.
  induction l as [|a l IH]; csimpl; [done|].
  by rewrite fmap_app, Rsum_app, IH.
Qed.

(** *** Logarithms *)

Lemma ln_le (x y : R) : (0 < x)%R → (x <= y)%R → (ln x <= ln y)%R.
Proof.
  intros Hx [Hlt| ->]; [|lra]. left. by apply ln_increasing.
Qed.

Lemma ln_upper (x : R) : (0 < x)%R → (ln x <= x - 1)%R.
Proof.
  intros Hx. pose proof (exp_ineq1_le (ln x)) as H.
  rewrite exp_ln in H by done. lra.
Qed.

Lemma ln_div (x y : R) : (0 < x)%R → (0 < y)%R → ln (x / y) = (ln x - ln y)%R.
Proof.
  intros Hx Hy. unfold Rdiv.
  rewrite ln_mult by (done || by apply Rinv_0_lt_compat).
  rewrite ln_Rinv by done. lra.
Qed.

Lemma surprise_value (n c : nat) :
  0 < c → 0 < n → surprise n c = (ln (INR n) - ln (INR c))%R.
Proof.
  intros Hc Hn. apply lt_0_INR in Hc, Hn. unfold surprise. by apply ln_div.
Qed.

Lemma surprise_nonneg (n c : nat) : 0 < c ≤ n → (0 <= surprise n c)%R.
Proof.
  intros [Hc Hn]. rewrite surprise_value by lia.
  assert (ln (INR c) <= ln (INR n))%R; [|lra].
  apply ln_le; [by apply lt_0_INR|by apply le_INR].
Qed.

Lemma surprise_anti (n c c' : nat) :
  0 < c ≤ c' → 0 < n → (surprise n c' <= surprise n c)%R.
Proof.
  intros [Hc Hc'] Hn. rewrite !surprise_value by lia.
  assert (ln (INR c) <= ln (INR c'))%R; [|lra].
  apply ln_le; [by apply lt_0_INR|by apply le_INR].
Qed.

Lemma surprise_zero (n c : nat) : 0 < c ≤ n → surprise n c = 0%R → c = n.
Proof.
  intros [Hc Hn] H. rewrite surprise_value in H by lia.
  apply INR_eq. apply ln_inv; [apply lt_0_INR; lia..|lra].
Qed.

Lemma surprise_diag (n : nat) : 0 < n → surprise n n = 0%R.
Proof. intros Hn. rewrite surprise_value by done. lra. Qed.

(** *** Occurrences *)

Lemma occ_fmap_inj (g : list Z → list Z) `{!Inj (=) (=) g}
    (r : list Z) (l : list (list Z)) :
  occ (g r) (g <$> l) = occ r l.
Proof.
  induction l as [|a l IH]; [done|]. rewrite fmap_cons.
  destruct (decide (a = r)) as [->|Hne].
  - by rewrite !occ_cons_eq, IH.
  - rewrite !occ_cons_ne; [done|done|]. intros Heq. by apply Hne, (inj g).
Qed.

Lemma occ_full (r : list Z) (l : list (list Z)) :
  occ r l = length l ↔ ∀ r', r' ∈ l → r' = r.
Proof.
  induction l as [|a l IH]; [split; [by intros _ ? ?%elem_of_nil|done]|].
  destruct (decide (a = r)) as [->|Hne].
  - rewrite occ_cons_eq, length_cons. split.
    + intros [= H] r' [->|Hr']%elem_of_cons; [done|]. by apply IH.
    + intros H. f_equal. apply IH. intros r' Hr'. apply H. by right.
  - rewrite occ_cons_ne by done. split.
    + intros H. pose proof (occ_le_length r l). simpl in H. lia.
    + intros H. destruct Hne. apply H. left.
Qed.

Lemma sample_entropy_fmap_inj (g : list Z → list Z) `{!Inj (=) (=) g}
    (l : list (list Z)) :
  sample_entropy (g <$> l) = sample_entropy l.
Proof.
  unfold sample_entropy. rewrite <- list_fmap_compose, length_fmap.
  apply Rsum_ext. intros r _. simpl. by rewrite occ_fmap_inj.
Qed.

Lemma sample_entropy_nonneg (l : list (list Z)) : (0 <= sample_entropy l)%R.
Proof.
  unfold sample_entropy. apply Rsum_nonneg, Forall_fmap, Forall_forall.
  intros r Hr. simpl. pose proof (occ_le_length r l).
  apply occ_pos in Hr. apply Rmult_le_pos.
  - apply surprise_nonneg. lia.
  - left. apply Rinv_0_lt_compat, lt_0_INR. lia.
Qed.

Lemma sample_entropy_zero (l : list (list Z)) :
  sample_entropy l = 0%R ↔ ∀ r r', r ∈ l → r' ∈ l → r' = r.
Proof.
  unfold sample_entropy. split.
  - intros H r r' Hr. revert r'. apply occ_full.
    pose proof (occ_le_length r l) as Hle. pose proof Hr as Hp%occ_pos.
    eapply Rsum_zero_inv in H; [| |exact Hr].
    + simpl in H. apply surprise_zero; [lia|].
      assert (0 < INR (length l))%R as Hn by (apply lt_0_INR; lia).
      apply Rmult_integral in H as [H|H]; [done|].
      pose proof (Rinv_0_lt_compat _ Hn). lra.
    + intros a Ha. simpl. pose proof (occ_le_length a l).
      apply occ_pos in Ha. apply Rmult_le_pos.
      * apply surprise_nonneg. lia.
      * left. apply Rinv_0_lt_compat, lt_0_INR. lia.
  - intros H. rewrite (Rsum_ext _ (λ _, 0%R)).
    + rewrite Rsum_const. lra.
    + intros r Hr. assert (occ r l = length l) as ->.
      { apply occ_full. intros r' Hr'. by apply H. }
      rewrite surprise_diag; [lra|]. destruct l; [by apply elem_of_nil in Hr|].
      simpl. lia.
Qed.


(** ** Two variables side by side *)

Lemma uniform_vec (v : list Z) : uniform 1 (np.as_rows (Vec v)).
Proof. unfold uniform. simpl. apply Forall_fmap, Forall_forall. done. Qed.

Lemma occ_joint_le_l (k : nat) (lx ly : list (list Z)) (rx ry : list Z) :
  uniform k lx → length rx = k →
  occ (rx ++ ry) (joint lx ly) ≤ occ rx lx.
Proof.
  intros Hu Hk. revert ly. induction Hu as [|a lx Ha Hu IH]; intros ly.
  { done. }
  destruct ly as [|b ly]; [unfold occ; simpl; lia|].
  change (joint (a :: lx) (b :: ly)) with ((a ++ b) :: joint lx ly).
  specialize (IH ly).
  destruct (decide (a ++ b = rx ++ ry)) as [Heq|Hne].
  - apply app_inj_1 in Heq as [-> ->]; [|lia].
    rewrite !occ_cons_eq. lia.
  - rewrite (occ_cons_ne (rx ++ ry)) by done.
    destruct (decide (a = rx)) as [->|Hne'].
    + rewrite occ_cons_eq. lia.
    + by rewrite occ_cons_ne.
Qed.

Lemma occ_joint_le_r (k : nat) (lx ly : list (list Z)) (rx ry : list Z) :
  uniform k lx → length rx = k →
  occ (rx ++ ry) (joint lx ly) ≤ occ ry ly.
Proof.
  intros Hu Hk. revert ly. induction Hu as [|a lx Ha Hu IH]; intros ly.
  { unfold occ; simpl. lia. }
  destruct ly as [|b ly]; [unfold occ; simpl; lia|].
  change (joint (a :: lx) (b :: ly)) with ((a ++ b) :: joint lx ly).
  specialize (IH ly).
  destruct (decide (a ++ b = rx ++ ry)) as [Heq|Hne].
  - apply app_inj_1 in Heq as [-> ->]; [|lia].
    rewrite !occ_cons_eq. lia.
  - rewrite (occ_cons_ne (rx ++ ry)) by done.
    destruct (decide (b = ry)) as [->|Hne'].
    + rewrite occ_cons_eq. lia.
    + by rewrite occ_cons_ne.
Qed.

(** The three entropies as sums over the pairs of rows. *)
Lemma sample_entropy_pairs (lx ly : list (list Z)) :
  length lx = length ly →
  let n := length lx in
  sample_entropy lx =
    Rsum ((λ p, surprise n (occ p.1 lx) / INR n)%R <$> zip lx ly) ∧
  sample_entropy ly =
    Rsum ((λ p, surprise n (occ p.2 ly) / INR n)%R <$> zip lx ly) ∧
  sample_entropy (joint lx ly) =
    Rsum ((λ p, surprise n (occ (p.1 ++ p.2) (joint lx ly)) / INR n)%R
          <$> zip lx ly).
Proof.
  intros Hlen n. unfold sample_entropy. split; [|split].
  - trans (Rsum ((λ r, surprise n (occ r lx) / INR n)%R <$> (zip lx ly).*1)).
    + by rewrite fst_zip by lia.
    + by rewrite <- list_fmap_compose.
  - trans (Rsum ((λ r, surprise n (occ r ly) / INR n)%R <$> (zip lx ly).*2)).
    + rewrite snd_zip by lia. unfold n. by rewrite Hlen.
    + by rewrite <- list_fmap_compose.
  - trans (Rsum ((λ r, surprise n (occ r (joint lx ly)) / INR n)%R
                 <$> (uncurry app <$> zip lx ly))).
    + rewrite <- zip_with_zip. fold (joint lx ly). unfold n.
      rewrite <- (length_zip_with_l_eq app lx ly) by done. done.
    + rewrite <- list_fmap_compose. apply Rsum_ext. by intros [a b] _.
Qed.

Lemma elem_of_zip_uniform (k : nat) (lx ly : list (list Z)) (p : list Z * list Z) :
  uniform k lx → p ∈ zip lx ly →
  length p.1 = k ∧ p.1 ∈ lx ∧ p.2 ∈ ly ∧ p.1 ++ p.2 ∈ joint lx ly.
Proof.
  intros Hu Hp. destruct p as [a b]. simpl.
  pose proof (elem_of_zip_l _ _ _ _ Hp) as Ha.
  pose proof (elem_of_zip_r _ _ _ _ Hp) as Hb.
  split; [|split; [done|split; [done|]]].
  - unfold uniform in Hu. rewrite Forall_forall in Hu. by apply Hu.
  - unfold joint. rewrite zip_with_zip. apply list_elem_of_fmap.
    by exists (a, b).
Qed.

(** H(X) <= H(X,Y) and H(Y) <= H(X,Y) *)
Lemma sample_entropy_joint_ge (k : nat) (lx ly : list (list Z)) :
  uniform k lx → length lx = length ly →
  (sample_entropy lx <= sample_entropy (joint lx ly))%R ∧
  (sample_entropy ly <= sample_entropy (joint lx ly))%R.
Proof.
  intros Hu Hlen.
  destruct (sample_entropy_pairs lx ly Hlen) as (-> & -> & ->).
  assert (∀ p, p ∈ zip lx ly → 0 < length lx) as Hn.
  { intros p Hp. destruct lx; [by apply elem_of_nil in Hp|simpl; lia]. }
  split; apply Rsum_mono; intros p Hp;
    destruct (elem_of_zip_uniform k lx ly p Hu Hp) as (Hk & Hx & Hy & Hj);
    (apply Rmult_le_compat_r;
      [left; apply Rinv_0_lt_compat, lt_0_INR; by eapply Hn|]);
    (apply surprise_anti; [|by eapply Hn]); apply occ_pos in Hj;
    (split; [done|]).
  - by eapply occ_joint_le_l.
  - by eapply occ_joint_le_r.
Qed.

Lemma Rsum_occ (l : list (list Z)) :
  Rsum ((λ v, INR (occ v l)) <$> remove_dups l) = INR (length l).
Proof.
  pose proof (Rsum_by_values (λ _, 1%R) l (remove_dups l)) as H.
  rewrite Rsum_const in H. rewrite Rmult_1_r in H. rewrite H.
  - apply Rsum_ext. intros v _. lra.
  - apply NoDup_remove_dups.
  - intros r Hr. by apply elem_of_remove_dups.
Qed.

Lemma pair_weight_app (k : nat) (lx ly : list (list Z)) (rx ry : list Z) :
  length rx = k →
  pair_weight k lx ly (rx ++ ry) = (INR (occ rx lx) * INR (occ ry ly))%R.
Proof.
  intros <-. unfold pair_weight. by rewrite take_app_length, drop_app_length.
Qed.

Lemma pair_weight_nonneg (k : nat) (lx ly : list (list Z)) (j : list Z) :
  (0 <= pair_weight k lx ly j)%R.
Proof. apply Rmult_le_pos; apply pos_INR. Qed.

Lemma weight_sum (k : nat) (lx ly : list (list Z)) :
  uniform k lx →
  Rsum (pair_weight k lx ly <$> row_product lx ly) =
  (INR (length lx) * INR (length ly))%R.
Proof.
  intros Hu. unfold row_product. rewrite Rsum_bind.
  rewrite (Rsum_ext _ (λ rx, INR (length ly) * INR (occ rx lx))%R).
  - by rewrite Rsum_scal, Rsum_occ, Rmult_comm.
  - intros rx Hrx. rewrite elem_of_remove_dups in Hrx.
    rewrite <- list_fmap_compose.
    rewrite (Rsum_ext _ (λ ry, INR (occ rx lx) * INR (occ ry ly))%R).
    + by rewrite Rsum_scal, Rsum_occ, Rmult_comm.
    + intros ry _. simpl. apply pair_weight_app.
      unfold uniform in Hu. rewrite Forall_forall in Hu. by apply Hu.
Qed.

Lemma elem_of_joint (lx ly : list (list Z)) (j : list Z) :
  j ∈ joint lx ly → ∃ rx ry, j = rx ++ ry ∧ rx ∈ lx ∧ ry ∈ ly.
Proof.
  unfold joint. rewrite zip_with_zip. intros ([a b] & -> & Hp)%list_elem_of_fmap.
  exists a, b. split; [done|]. split.
  - by eapply elem_of_zip_l.
  - by eapply elem_of_zip_r.
Qed.

Lemma joint_weight_le (k : nat) (lx ly : list (list Z)) :
  uniform k lx →
  (Rsum ((λ j, pair_weight k lx ly j / INR (occ j (joint lx ly)))%R
         <$> joint lx ly) <= INR (length lx) * INR (length ly))%R.
Proof.
  intros Hu. set (J := joint lx ly).
  rewrite (Rsum_by_values _ J (remove_dups J)).
  2:{ apply NoDup_remove_dups. }
  2:{ intros r Hr. by apply elem_of_remove_dups. }
  rewrite (Rsum_ext _ (pair_weight k lx ly)).
  2:{ intros v Hv. rewrite elem_of_remove_dups in Hv.
      apply occ_pos, lt_0_INR in Hv.
      field. lra. }
  rewrite <- (weight_sum k lx ly Hu).
  apply Rsum_submseteq; [apply pair_weight_nonneg|].
  apply NoDup_submseteq; [apply NoDup_remove_dups|].
  intros j Hj. rewrite elem_of_remove_dups in Hj. apply elem_of_joint in Hj.
  destruct Hj as (rx & ry & -> & Hx & Hy).
  unfold row_product. apply list_elem_of_bind. exists rx.
  split; [|by apply elem_of_remove_dups].
  apply list_elem_of_fmap. exists ry. split; [done|].
  by apply elem_of_remove_dups.
Qed.

(** H(X,Y) <= H(X) + H(Y) *)
Lemma sample_entropy_joint_le (k : nat) (lx ly : list (list Z)) :
  uniform k lx → length lx = length ly →
  (sample_entropy (joint lx ly) <= sample_entropy lx + sample_entropy ly)%R.
Proof.
  intros Hu Hlen.
  destruct lx as [|x0 lx'] eqn:Hlx.
  { destruct ly; [|done]. unfold sample_entropy. simpl. lra. }
  rewrite <- Hlx in *. assert (0 < length lx) as Hn by (rewrite Hlx; simpl; lia).
  clear Hlx x0 lx'.
  destruct (sample_entropy_pairs lx ly Hlen) as (-> & -> & ->).
  set (n := length lx) in *. set (J := joint lx ly).
  assert (0 < INR n)%R as HnR by by apply lt_0_INR.
  rewrite <- Rsum_plus.
  set (g := λ j, (pair_weight k lx ly j / INR (occ j J))%R).
  assert (0 <= Rsum ((λ p : list Z * list Z,
                        / INR n - g (p.1 ++ p.2) / (INR n * INR n))%R
                     <$> zip lx ly))%R as Hlow.
  { pose proof (Rsum_plus (λ _ : list Z * list Z, / INR n)%R
      (λ p, (- / (INR n * INR n)) * g (p.1 ++ p.2))%R (zip lx ly)) as H.
    rewrite Rsum_const, Rsum_scal in H.
    rewrite (Rsum_ext _ (λ p, / INR n + - / (INR n * INR n) * g (p.1 ++ p.2))%R)
      by (intros; unfold Rdiv; lra).
    rewrite H. rewrite length_zip, <- Hlen, Nat.min_id. fold n.
    assert (Rsum ((λ p : list Z * list Z, g (p.1 ++ p.2)) <$> zip lx ly)
            <= INR n * INR n)%R as Hle.
    { pose proof (joint_weight_le k lx ly Hu) as Hw. rewrite <- Hlen in Hw.
      trans (Rsum (g <$> J)); [right|exact Hw].
      unfold J, joint. rewrite (zip_with_zip app), <- list_fmap_compose.
      apply Rsum_ext. by intros [??] _. }
    assert (0 < / (INR n * INR n))%R as Hinv.
    { apply Rinv_0_lt_compat. by apply Rmult_lt_0_compat. }
    assert (INR n * / INR n = 1)%R as -> by (field; lra).
    assert (/ (INR n * INR n) *
            Rsum ((λ p : list Z * list Z, g (p.1 ++ p.2)) <$> zip lx ly)
            <= 1)%R; [|lra].
    replace 1%R with (/ (INR n * INR n) * (INR n * INR n))%R by (field; lra).
    apply Rmult_le_compat_l; [lra|done]. }
  assert (Rsum ((λ p : list Z * list Z,
                   / INR n - g (p.1 ++ p.2) / (INR n * INR n))%R
                <$> zip lx ly)
          <= Rsum ((λ a : list Z * list Z,
                      surprise n (occ a.1 lx) / INR n +
                      surprise n (occ a.2 ly) / INR n -
                      surprise n (occ (a.1 ++ a.2) J) / INR n)%R
                   <$> zip lx ly))%R as Hterm.
  { apply Rsum_mono. intros p Hp.
    destruct (elem_of_zip_uniform k lx ly p Hu Hp) as (Hk & Hx & Hy & Hj).
    apply occ_pos in Hx, Hy, Hj. fold J in Hj.
    unfold g. rewrite pair_weight_app by done.
    rewrite !surprise_value by done.
    pose proof Hx as HxR%lt_0_INR. pose proof Hy as HyR%lt_0_INR.
    pose proof Hj as HjR%lt_0_INR.
    set (cx := INR (occ p.1 lx)) in *. set (cy := INR (occ p.2 ly)) in *.
    set (cj := INR (occ (p.1 ++ p.2) J)) in *.
    assert (0 < cx * cy / (INR n * cj))%R as Hu0.
    { apply Rmult_lt_0_compat; [by apply Rmult_lt_0_compat|].
      apply Rinv_0_lt_compat. by apply Rmult_lt_0_compat. }
    pose proof (ln_upper _ Hu0) as Hln.
    rewrite ln_div in Hln
      by (by apply Rmult_lt_0_compat).
    rewrite !ln_mult in Hln by done.
    assert (/ INR n - cx * cy / cj / (INR n * INR n) =
            (1 - cx * cy / (INR n * cj)) * / INR n)%R as -> by (field; lra).
    assert ((ln (INR n) - ln cx) / INR n + (ln (INR n) - ln cy) / INR n -
            (ln (INR n) - ln cj) / INR n =
            (ln (INR n) + ln cj - ln cx - ln cy) * / INR n)%R as ->
      by (field; lra).
    apply Rmult_le_compat_r; [left; by apply Rinv_0_lt_compat|]. lra. }
  pose proof (Rsum_plus
    (λ a : list Z * list Z,
       surprise n (occ a.1 lx) / INR n + surprise n (occ a.2 ly) / INR n -
       surprise n (occ (a.1 ++ a.2) J) / INR n)%R
    (λ a, surprise n (occ (a.1 ++ a.2) J) / INR n)%R (zip lx ly)) as Hsplit.
  rewrite (Rsum_ext _ (λ a : list Z * list Z,
             surprise n (occ a.1 lx) / INR n +
             surprise n (occ a.2 ly) / INR n)%R) in Hsplit by (intros; lra).
  lra.
Qed.


(** ** The measures in closed form *)

Lemma ln_base_pos (base : R) : (1 < base)%R → (0 < ln base)%R.
Proof. intros Hb. rewrite <- ln_1. apply ln_increasing; lra. Qed.

Lemma entropy_H (y : ndarray) (base : R) :
  (0 < base)%R → base ≠ 1%R →
  Metrics.entropy y base = Ok (Fin (Hrows base (np.as_rows y))).
Proof. apply entropy_sample. Qed.

Lemma c_rows (x y : ndarray) :
  np.len x = np.len y →
  ∃ xy, np.c_ x y = Ok xy ∧
        np.as_rows xy = joint (np.as_rows x) (np.as_rows y).
Proof.
  intros Hlen. unfold np.c_. rewrite decide_True by done. eauto.
Qed.

Lemma c_raises (x y : ndarray) :
  np.len x ≠ np.len y → np.c_ x y = Raise length_error.
Proof. intros Hlen. unfold np.c_. by rewrite decide_False. Qed.

Lemma conditional_entropy_value (x y : ndarray) (base : R) :
  np.len x = np.len y → (0 < base)%R → base ≠ 1%R →
  Metrics.conditional_entropy x y base =
  Ok (Fin (Hrows base (joint (np.as_rows x) (np.as_rows y)) -
           Hrows base (np.as_rows x))).
Proof.
  intros Hlen Hb Hne. unfold Metrics.conditional_entropy.
  destruct (c_rows x y Hlen) as (xy & -> & <-).
  rewrite result_bind_Ok, !entropy_H by done. reflexivity.
Qed.

Lemma information_gain_value (x y : ndarray) (base : R) :
  np.len x = np.len y → (0 < base)%R → base ≠ 1%R →
  Metrics.information_gain x y base =
  Ok (Fin (Hrows base (np.as_rows y) -
           (Hrows base (joint (np.as_rows x) (np.as_rows y)) -
            Hrows base (np.as_rows x)))).
Proof.
  intros Hlen Hb Hne. unfold Metrics.information_gain.
  rewrite conditional_entropy_value, entropy_H by done. reflexivity.
Qed.

Lemma symmetrical_uncertainty_value (x y : ndarray) :
  np.len x = np.len y →
  Metrics.symmetrical_uncertainty x y =
  Ok (Fin (2 * (Hrows 2 (np.as_rows y) -
                (Hrows 2 (joint (np.as_rows x) (np.as_rows y)) -
                 Hrows 2 (np.as_rows x)))) /
      Fin (Hrows 2 (np.as_rows x) + Hrows 2 (np.as_rows y)))%fl.
Proof.
  intros Hlen. unfold Metrics.symmetrical_uncertainty.
  rewrite information_gain_value, !entropy_H by (done || lra). reflexivity.
Qed.

Lemma symmetrical_uncertainty_raises (x y : ndarray) :
  np.len x ≠ np.len y →
  Metrics.symmetrical_uncertainty x y = Raise length_error.
Proof.
  intros Hlen. unfold Metrics.symmetrical_uncertainty,
    Metrics.information_gain, Metrics.conditional_entropy.
  rewrite entropy_H by lra. rewrite c_raises by done. reflexivity.
Qed.

Lemma H_nonneg (base : R) (l : list (list Z)) :
  (1 < base)%R → (0 <= Hrows base l)%R.
Proof.
  intros Hb. unfold Hrows. apply Rmult_le_pos; [apply sample_entropy_nonneg|].
  left. by apply Rinv_0_lt_compat, ln_base_pos.
Qed.

Lemma H_mono (base a b : R) :
  (1 < base)%R → (a <= b)%R → (a / ln base <= b / ln base)%R.
Proof.
  intros Hb Hab. apply Rmult_le_compat_r; [|done].
  left. by apply Rinv_0_lt_compat, ln_base_pos.
Qed.

Lemma H_zero (base : R) (l : list (list Z)) :
  (0 < base)%R → base ≠ 1%R →
  Hrows base l = 0%R ↔ ∀ r r', r ∈ l → r' ∈ l → r' = r.
Proof.
  intros Hb Hne. rewrite <- sample_entropy_zero. unfold Hrows.
  assert (ln base ≠ 0%R) as Hln by by apply ln_neq_0.
  split.
  - intros [H0|H0]%Rmult_integral; [done|].
    by apply Rinv_neq_0_compat in H0.
  - intros ->. unfold Rdiv. apply Rmult_0_l.
Qed.

(** The inequalities between the three entropies of two variables. *)
Lemma H_joint (base : R) (k : nat) (lx ly : list (list Z)) :
  (1 < base)%R → uniform k lx → length lx = length ly →
  (Hrows base lx <= Hrows base (joint lx ly))%R ∧
  (Hrows base ly <= Hrows base (joint lx ly))%R ∧
  (Hrows base (joint lx ly) <= Hrows base lx + Hrows base ly)%R.
Proof.
  intros Hb Hu Hlen.
  destruct (sample_entropy_joint_ge k lx ly Hu Hlen) as [H1 H2].
  pose proof (sample_entropy_joint_le k lx ly Hu Hlen) as H3.
  unfold Hrows. split; [by apply H_mono|]. split; [by apply H_mono|].
  apply (H_mono base) in H3; [|done]. unfold Rdiv in *. lra.
Qed.

Lemma len_as_rows_vec (v : list Z) : length (np.as_rows (Vec v)) = length v.
Proof. simpl. by rewrite length_fmap. Qed.

(** *** Doubling *)

#[local] Instance double_inj : Inj (=) (=) (λ r : list Z, r ++ r).
Proof.
  intros r s Heq. apply app_inj_1 in Heq as [? _]; [done|].
  apply (f_equal length) in Heq. rewrite !length_app in Heq. lia.
Qed.

Lemma joint_diag (l : list (list Z)) : joint l l = (λ r, r ++ r) <$> l.
Proof. unfold joint. by rewrite zip_with_diag. Qed.

Lemma H_fmap_inj (base : R) (g : list Z → list Z) `{!Inj (=) (=) g}
    (l : list (list Z)) :
  Hrows base (g <$> l) = Hrows base l.
Proof. unfold Hrows. by rewrite sample_entropy_fmap_inj. Qed.

Lemma sample_entropy_perm (l l' : list (list Z)) :
  l ≡ₚ l' → sample_entropy l = sample_entropy l'.
Proof.
  intros Hp. unfold sample_entropy. rewrite (Permutation_length Hp).
  etrans; [apply Rsum_perm; by apply fmap_Permutation|].
  apply Rsum_ext. intros r _. simpl. by rewrite (occ_perm r l l' Hp).
Qed.


(** ** Properties of the measures *)

Lemma su_float (a s : R) :
  (Fin a / Fin s)%fl =
  if decide (s = 0%R) then Float.inf_of_sign a else Fin (a / s).
Proof. reflexivity. Qed.

Lemma constant_rows (base : R) (a : ndarray) :
  (0 < base)%R → base ≠ 1%R → Hrows base (np.as_rows a) = 0%R ↔ constant a.
Proof. intros Hb Hne. by apply H_zero. Qed.

(** X2.  For a positive base other than 1, the entropy of an array is 0
    exactly when all its entries are equal (an empty array included). *)
Theorem entropy_zero_iff_constant (y : ndarray) (base : R) :
  (0 < base)%R → base ≠ 1%R →
  Metrics.entropy y base = Ok (Fin 0) ↔ constant y.
Proof.
  intros Hb Hne. rewrite entropy_H by done.
  rewrite <- (constant_rows base) by done.
  split; [by intros [= ->]|by intros ->].
Qed.

Lemma entropy_zero_iff_constant_witness :
  Metrics.entropy (Vec [3; 3]%Z) 2 = Ok (Fin 0) ↔ constant (Vec [3; 3]%Z).
Proof. apply entropy_zero_iff_constant; lra. Defined.

(** The symmetrical uncertainty of a vector and an array of the same
    length in closed form, with the inequalities between the information
    gain and the two entropies. *)
Lemma su_closed (vx : list Z) (y : ndarray) :
  length vx = np.len y →
  ∃ ig,
    Metrics.symmetrical_uncertainty (Vec vx) y =
      Ok (if decide (Hrows 2 (np.as_rows (Vec vx)) +
                     Hrows 2 (np.as_rows y) = 0)%R
          then Float.inf_of_sign (2 * ig)
          else Fin (2 * ig / (Hrows 2 (np.as_rows (Vec vx)) +
                              Hrows 2 (np.as_rows y)))) ∧
    (0 <= ig)%R ∧ (ig <= Hrows 2 (np.as_rows (Vec vx)))%R ∧
    (ig <= Hrows 2 (np.as_rows y))%R.
Proof.
  intros Hlen. rewrite symmetrical_uncertainty_value by done.
  rewrite su_float. eexists. split; [reflexivity|].
  assert (1 < 2)%R as H2 by lra.
  destruct (H_joint 2 1 (np.as_rows (Vec vx)) (np.as_rows y) H2)
    as (H1 & H3 & H4);
    [apply uniform_vec|by rewrite len_as_rows_vec, len_as_rows|].
  lra.
Qed.

Lemma su_self_closed (v : list Z) :
  Metrics.symmetrical_uncertainty (Vec v) (Vec v) =
  Ok (Fin (2 * (Hrows 2 (np.as_rows (Vec v)) -
                (Hrows 2 (np.as_rows (Vec v)) -
                 Hrows 2 (np.as_rows (Vec v))))) /
      Fin (Hrows 2 (np.as_rows (Vec v)) + Hrows 2 (np.as_rows (Vec v))))%fl.
Proof.
  rewrite symmetrical_uncertainty_value by done.
  by rewrite joint_diag, H_fmap_inj by apply _.
Qed.

(** X8.  The symmetrical uncertainty of a vector with itself is 1, unless
    the vector is constant. *)
Theorem symmetrical_uncertainty_self (v : list Z) :
  ¬ constant (Vec v) →
  Metrics.symmetrical_uncertainty (Vec v) (Vec v) = Ok (Fin 1).
Proof.
  intros Hc. rewrite su_self_closed, su_float.
  rewrite <- (constant_rows 2) in Hc by lra.
  pose proof (H_nonneg 2 (np.as_rows (Vec v))) as Hx.
  set (h := Hrows 2 (np.as_rows (Vec v))) in *.
  rewrite decide_False by lra. do 2 f_equal. field. lra.
Qed.

Lemma symmetrical_uncertainty_self_witness :
  Metrics.symmetrical_uncertainty (Vec [0; 1]%Z) (Vec [0; 1]%Z) = Ok (Fin 1).
Proof.
  apply symmetrical_uncertainty_self. intros Hc.
  specialize (Hc [0]%Z [1]%Z). simpl in Hc.
  assert ([1]%Z = [0]%Z) as [=]. apply Hc; [left|right; left].
Defined.

(** X10.  A constant vector has symmetrical uncertainty 0 with every array
    of the same length that is not constant. *)
Theorem symmetrical_uncertainty_constant (vx : list Z) (y : ndarray) :
  length vx = np.len y → constant (Vec vx) → ¬ constant y →
  Metrics.symmetrical_uncertainty (Vec vx) y = Ok (Fin 0).
Proof.
  intros Hlen Hcx Hcy.
  destruct (su_closed vx y Hlen) as (ig & -> & H0 & Hx & Hy).
  rewrite <- (constant_rows 2) in Hcx, Hcy by lra.
  set (hx := Hrows 2 (np.as_rows (Vec vx))) in *.
  set (hy := Hrows 2 (np.as_rows y)) in *.
  rewrite decide_False by lra. do 2 f_equal.
  assert (ig = 0)%R as -> by lra. field. lra.
Qed.

Lemma symmetrical_uncertainty_constant_witness :
  Metrics.symmetrical_uncertainty (Vec [4; 4]%Z) (Vec [0; 1]%Z) = Ok (Fin 0).
Proof.
  apply symmetrical_uncertainty_constant; [reflexivity| |].
  - intros r r' Hr Hr'. simpl in Hr, Hr'.
    apply elem_of_cons in Hr as [->|Hr%list_elem_of_singleton];
      apply elem_of_cons in Hr' as [->|Hr'%list_elem_of_singleton];
      congruence.
  - intros Hc. specialize (Hc [0]%Z [1]%Z). simpl in Hc.
    assert ([1]%Z = [0]%Z) as [=]. apply Hc; [left|right; left].
Defined.

(** X11.  [information_gain] raises the error of [math.log] when the base
    is not positive, whatever the arrays; for a positive base it raises
    the error of [np.c_] when the arrays differ in length, and returns
    otherwise. *)
Theorem information_gain_errors (x y : ndarray) (base : R) :
  ((base <= 0)%R →
     Metrics.information_gain x y base = Raise domain_error) ∧
  ((0 < base)%R → np.len x ≠ np.len y →
     Metrics.information_gain x y base = Raise length_error) ∧
  ((0 < base)%R → np.len x = np.len y →
     ∃ g, Metrics.information_gain x y base = Ok g).
Proof.
  unfold Metrics.information_gain, Metrics.conditional_entropy.
  split; [|split].
  - intros Hb. rewrite (entropy_unfold y). unfold math.log.
    rewrite decide_False by lra. reflexivity.
  - intros Hb Hlen. destruct (entropy_ok y base Hb) as [hy ->].
    rewrite c_raises by done. reflexivity.
  - intros Hb Hlen. destruct (entropy_ok y base Hb) as [hy ->].
    destruct (c_rows x y Hlen) as (xy & -> & _). rewrite !result_bind_Ok.
    destruct (entropy_ok xy base Hb) as [hxy ->].
    destruct (entropy_ok x base Hb) as [hx ->]. rewrite !result_bind_Ok.
    eauto.
Qed.

(** X12.  Reordering the samples of two vectors together does not change
    their symmetrical uncertainty. *)
Theorem symmetrical_uncertainty_perm (vx vy vx' vy' : list Z) :
  length vx = length vy → length vx' = length vy' →
  zip vx' vy' ≡ₚ zip vx vy →
  Metrics.symmetrical_uncertainty (Vec vx') (Vec vy') =
  Metrics.symmetrical_uncertainty (Vec vx) (Vec vy).
Proof.
  intros Hlen Hlen' Hp. rewrite !symmetrical_uncertainty_value by done.
  assert (vx' ≡ₚ vx) as Hx.
  { rewrite <- (fst_zip vx' vy'), <- (fst_zip vx vy) by lia.
    by apply fmap_Permutation. }
  assert (vy' ≡ₚ vy) as Hy.
  { rewrite <- (snd_zip vx' vy'), <- (snd_zip vx vy) by lia.
    by apply fmap_Permutation. }
  assert (∀ ux uy, joint (np.as_rows (Vec ux)) (np.as_rows (Vec uy)) =
                   (λ p, [p.1; p.2]) <$> zip ux uy) as HJ.
  { intros ux uy. simpl. unfold joint.
    rewrite zip_with_fmap_l, zip_with_fmap_r, zip_with_zip.
    apply list_fmap_ext. by intros ? [??]. }
  unfold Hrows.
  rewrite (sample_entropy_perm (np.as_rows (Vec vx')) (np.as_rows (Vec vx)))
    by (by apply fmap_Permutation).
  rewrite (sample_entropy_perm (np.as_rows (Vec vy')) (np.as_rows (Vec vy)))
    by (by apply fmap_Permutation).
  rewrite (sample_entropy_perm (joint (np.as_rows (Vec vx')) _)
             (joint (np.as_rows (Vec vx)) (np.as_rows (Vec vy))))
    by (rewrite !HJ; by apply fmap_Permutation).
  done.
Qed.

Lemma symmetrical_uncertainty_perm_witness :
  Metrics.symmetrical_uncertainty (Vec [1; 0; 0]%Z) (Vec [1; 0; 1]%Z) =
  Metrics.symmetrical_uncertainty (Vec [0; 0; 1]%Z) (Vec [0; 1; 1]%Z).
Proof.
  apply symmetrical_uncertainty_perm; [reflexivity..|].
  simpl. etrans; [apply Permutation_swap|]. apply perm_skip, Permutation_swap.
Defined.

End MetricsMore.


(** ** The caches of the engine *)

Module MFSMore.

Import MFS Spec npFacts MetricsFacts MFSFacts MetricsMore.

#[local] Arguments Metrics.symmetrical_uncertainty : simpl never.
#[local] Arguments np.column : simpl never.
#[local] Arguments float_info.min : simpl never.

Lemma column_ok (n : nat) (rows : list (list Z)) (col : nat) :
  col < n →
  np.column (Mat n rows) col = Ok (Vec ((λ r, nth col r 0%Z) <$> rows)).
Proof. intros Hcol. unfold np.column. by rewrite decide_True. Qed.

Lemma su_range_unit (vx : list Z) (y : ndarray) :
  length vx = np.len y →
  ∃ v, Metrics.symmetrical_uncertainty (Vec vx) y = Ok v ∧ unit_or_nan v.
Proof.
  intros Hlen. destruct (su_closed vx y Hlen) as (ig & -> & H0 & Hx & Hy).
  eexists. split; [done|].
  set (hx := Hrows 2 (np.as_rows (Vec vx))) in *.
  set (hy := Hrows 2 (np.as_rows y)) in *.
  case_decide as Hs.
  - left. unfold Float.inf_of_sign. rewrite !decide_False by lra. done.
  - right. eexists. split; [done|].
    assert (0 < hx + hy)%R as Hpos by lra. split.
    + apply Rmult_le_pos; [lra|]. left. by apply Rinv_0_lt_compat.
    + apply (Rmult_le_reg_r (hx + hy)); [done|]. field_simplify; lra.
Qed.

Lemma su_label_range (n : nat) (rows : list (list Z)) (y : ndarray) (col : nat) :
  np.len y = length rows → col < n →
  ∃ v, su_label_of (Mat n rows) y col = Ok v ∧ unit_or_nan v.
Proof.
  intros Hlen Hcol. unfold su_label_of. rewrite column_ok by done.
  rewrite result_bind_Ok. apply su_range_unit. by rewrite length_fmap.
Qed.

Lemma su_features_range (n : nat) (rows : list (list Z)) (a b : nat) :
  a < n → b < n →
  ∃ v, su_features_of (Mat n rows) a b = Ok v ∧ unit_or_nan v.
Proof.
  intros Ha Hb. unfold su_features_of. rewrite !column_ok by done.
  rewrite !result_bind_Ok. apply su_range_unit. simpl.
  by rewrite !length_fmap.
Qed.

(** What a returning call of [_compute_su_features] has done. *)
Lemma compute_su_features_inv (a b : nat) (s s' : t) (v : float) :
  _compute_su_features a b s = (Ok v, s') →
  (_su_features s !! (a, b) = Some v ∧ s' = s) ∨
  (_su_features s !! (a, b) = None ∧
   (∃ X, X_ s = Some X ∧ su_features_of X a b = Ok v) ∧
   s' = mk (_result s) (_scores s) (_su_labels s)
           (<[(a, b) := v]> (_su_features s)) (X_ s) (y_ s)).
Proof.
  unfold _compute_su_features. rewrite bind_unfold. simpl.
  destruct (_su_features s !! (a, b)) as [v'|] eqn:Hl.
  - intros [= -> ->]. by left.
  - unfold get_X_. rewrite !bind_unfold. simpl.
    destruct (X_ s) as [X|] eqn:HX; simpl; [|done].
    rewrite bind_unfold. unfold lift at 1.
    destruct (np.column X a) as [xa|] eqn:Ha; [|done].
    rewrite bind_unfold. unfold lift at 1.
    destruct (np.column X b) as [xb|] eqn:Hb; [|done].
    rewrite bind_unfold. unfold lift at 1.
    destruct (Metrics.symmetrical_uncertainty xa xb) as [su|] eqn:Hsu; [|done].
    simpl. intros [= -> <-]. right. split; [done|]. split; [|by rewrite HX].
    exists X. split; [done|]. unfold su_features_of.
    by rewrite Ha, Hb, !result_bind_Ok.
Qed.

Lemma compute_su_features_hit (a b : nat) (s : t) (v : float) :
  _su_features s !! (a, b) = Some v → _compute_su_features a b s = (Ok v, s).
Proof.
  intros Hl. unfold _compute_su_features. rewrite bind_unfold. simpl.
  by rewrite Hl.
Qed.

(** X13.  A call of [_compute_su_features] that returns leaves its value
    in the pairwise cache under the key of the ordered pair, changes no
    other entry and no other attribute, and a second call with the same
    pair returns the same value and changes nothing. *)
Theorem compute_su_features_memo (a b : nat) (s s' : t) (v : float) :
  _compute_su_features a b s = (Ok v, s') →
  frame s s' ∧ _su_features s' !! (a, b) = Some v ∧
  (∀ k, k ≠ (a, b) → _su_features s' !! k = _su_features s !! k) ∧
  _compute_su_features a b s' = (Ok v, s').
Proof.
  intros [[Hl ->]|(Hl & _ & ->)]%compute_su_features_inv.
  - split; [apply frame_refl|]. split; [done|]. split; [done|].
    by apply compute_su_features_hit.
  - split; [done|]. simpl. split; [by rewrite lookup_insert_eq|].
    split; [intros k Hk; by rewrite lookup_insert_ne|].
    apply compute_su_features_hit. simpl. by rewrite lookup_insert_eq.
Qed.

Lemma compute_su_features_memo_witness :
  let s' := (_compute_su_features 0 1 twins_ready).2 in
  frame twins_ready s' ∧ _su_features s' !! (0, 1) = Some (Fin 1) ∧
  (∀ k, k ≠ (0, 1) → _su_features s' !! k = _su_features twins_ready !! k) ∧
  _compute_su_features 0 1 s' = (Ok (Fin 1), s').
Proof.
  intros s'. apply (compute_su_features_memo 0 1 twins_ready). unfold s'.
  destruct (compute_su_features_spec X_twins 0 1 (Fin 1) twins_ready)
    as (s1 & -> & _); [done|apply cache_ok_empty|apply su_features_twins|].
  reflexivity.
Defined.

(** X14.  With a matrix of [n] columns and labels of the length of its
    rows stored, and no label-correlation vector yet, [_compute_su_labels]
    returns and stores a vector of length [n] whose entry [col] is the
    symmetrical uncertainty of column [col] and the labels; it changes no
    other attribute, and a second call returns the stored vector and
    changes nothing. *)
Theorem compute_su_labels_once (n : nat) (rows : list (list Z)) (y : ndarray)
    (s : t) :
  X_ s = Some (Mat n rows) → y_ s = Some y → _su_labels s = None →
  np.len y = length rows →
  ∃ l, _compute_su_labels s = (Ok l, with_labels s l) ∧ length l = n ∧
       (∀ col v, l !! col = Some v →
          su_label_of (Mat n rows) y col = Ok v) ∧
       _compute_su_labels (with_labels s l) = (Ok l, with_labels s l).
Proof.
  intros HX Hy Hl Hlen.
  destruct (list_of_values
    (λ col v, su_label_of (Mat n rows) y col = Ok v ∧ unit_or_nan v) n)
    as (vs & Hvs & Hval).
  { intros col Hcol. by apply su_label_range. }
  assert (∀ col v, vs !! col = Some v →
            su_label_of (Mat n rows) y col = Ok v) as Hval'.
  { intros col v Hv. by apply Hval. }
  exists vs. split; [|split; [done|split; [done|]]].
  - by apply (compute_su_labels_exact n rows y vs).
  - rewrite compute_su_labels_unfold. simpl. rewrite bind_unfold. simpl.
    unfold su_labels_array. rewrite bind_unfold. reflexivity.
Qed.

Lemma compute_su_labels_once_witness :
  ∃ l, _compute_su_labels (start X_twins y_binary) =
         (Ok l, with_labels (start X_twins y_binary) l) ∧
       length l = 2 ∧
       (∀ col v, l !! col = Some v →
          su_label_of X_twins y_binary col = Ok v) ∧
       _compute_su_labels (with_labels (start X_twins y_binary) l) =
         (Ok l, with_labels (start X_twins y_binary) l).
Proof. by apply (compute_su_labels_once 2). Defined.

Lemma for_range_raises (body : nat → M ()) (e : exn) (s : t) (n : nat) :
  body 0 s = (Raise e, s) → 0 < n → for_range n body s = (Raise e, s).
Proof.
  intros Hbody Hn. induction n as [|n IH]; [lia|].
  simpl. rewrite bind_unfold. destruct n as [|n].
  - simpl. by rewrite Hbody.
  - rewrite IH by lia. done.
Qed.

(** The first column already makes the loop of [_compute_su_labels]
    raise when the labels have another length than the rows. *)
Lemma compute_su_labels_raises (n : nat) (rows : list (list Z))
    (y : ndarray) (s : t) :
  X_ s = Some (Mat n rows) → y_ s = Some y → _su_labels s = None →
  0 < n → np.len y ≠ length rows →
  _compute_su_labels s = (Raise length_error, with_labels s (np.zeros n)).
Proof.
  intros HX Hy Hl Hn Hlen.
  rewrite compute_su_labels_unfold, Hl.
  rewrite bind_unfold. unfold get_X_. rewrite !bind_unfold. simpl.
  rewrite HX. simpl. rewrite !bind_unfold. simpl. rewrite bind_unfold.
  simpl.
  rewrite (for_range_raises _ length_error).
  - unfold with_labels. by rewrite HX.
  - unfold su_labels_body, get_X_, get_y_. rewrite !bind_unfold. simpl.
    rewrite HX. simpl. rewrite bind_unfold. unfold lift at 1.
    rewrite column_ok by done. rewrite !bind_unfold. simpl. rewrite Hy.
    simpl. rewrite bind_unfold. unfold lift at 1.
    rewrite symmetrical_uncertainty_raises; [done|].
    simpl. rewrite length_fmap. congruence.
  - done.
Qed.

(** X15.  With a matrix of at least one column stored, labels whose
    length is not that of its rows, and no label-correlation vector yet,
    [_compute_su_labels] raises the ValueError of [np.c_] and leaves the
    all-zero vector in [_su_labels]; a second call then returns that
    vector without an error. *)
Theorem compute_su_labels_mismatch (n : nat) (rows : list (list Z))
    (y : ndarray) (s : t) :
  X_ s = Some (Mat n rows) → y_ s = Some y → _su_labels s = None →
  0 < n → np.len y ≠ length rows →
  _compute_su_labels s = (Raise length_error, with_labels s (np.zeros n)) ∧
  _compute_su_labels (with_labels s (np.zeros n)) =
    (Ok (np.zeros n), with_labels s (np.zeros n)).
Proof.
  intros HX Hy Hl Hn Hlen.
  split; [exact (compute_su_labels_raises n rows y s HX Hy Hl Hn Hlen)|].
  rewrite compute_su_labels_unfold. simpl. rewrite bind_unfold. simpl.
  unfold su_labels_array. rewrite bind_unfold. reflexivity.
Qed.

Lemma compute_su_labels_mismatch_witness :
  _compute_su_labels (start X_twins (Vec [0]%Z)) =
    (Raise length_error, with_labels (start X_twins (Vec [0]%Z)) (np.zeros 2)) ∧
  _compute_su_labels (with_labels (start X_twins (Vec [0]%Z)) (np.zeros 2)) =
    (Ok (np.zeros 2), with_labels (start X_twins (Vec [0]%Z)) (np.zeros 2)).
Proof.
  apply (compute_su_labels_mismatch 2 [[0; 0]; [1; 1]]%Z (Vec [0]%Z));
    try done. lia.
Defined.

(** ** Edge cases of the two searches *)

Section edge_cases.

Variable argsort : list float → list nat.
Hypothesis argsort_is_perm : argsort_permutes argsort.

Lemma argsort_nil : argsort [] = [].
Proof. apply Permutation_nil_r. by rewrite (argsort_is_perm []). Qed.

Lemma argsort_singleton (v : float) : argsort [v] = [0].
Proof.
  apply Permutation_singleton_r. by rewrite (argsort_is_perm [v]).
Qed.

(** X16.  On a matrix of at least one column and labels whose length is
    not that of its rows, [cfs] and (for a valid threshold) [fcbs] raise
    the ValueError of [np.c_]; the attributes are then those of a fresh
    object but for the new [X_] and [y_] and an all-zero [_su_labels]. *)
Theorem search_length_mismatch (n : nat) (rows : list (list Z)) (y : ndarray)
    (threshold : float) (s : t) :
  0 < n → np.len y ≠ length rows →
  let s' := with_labels (start (Mat n rows) y) (np.zeros n) in
  cfs argsort (Mat n rows) y s = (Raise length_error, s') ∧
  ((threshold <? Fin (1 / 10000))%fl = false →
   fcbs argsort (Mat n rows) y threshold s = (Raise length_error, s')).
Proof.
  intros Hn Hlen s'.
  pose proof (compute_su_labels_raises n rows y (start (Mat n rows) y)
                eq_refl eq_refl eq_refl Hn Hlen) as Hrun.
  split.
  - rewrite cfs_unfold, bind_unfold, Hrun. done.
  - intros Ht. rewrite fcbs_unfold by done. rewrite bind_unfold, Hrun. done.
Qed.

(** X17.  On a matrix without columns [cfs] raises the IndexError of
    [feature_order.pop(0)], whatever the labels, while [fcbs] with a valid
    threshold returns with an empty result and an empty score trace. *)
Theorem search_no_features (rows : list (list Z)) (y : ndarray)
    (threshold : float) (s : t) :
  let s' := with_labels (start (Mat 0 rows) y) [] in
  cfs argsort (Mat 0 rows) y s = (Raise pop_error, s') ∧
  ((threshold <? Fin (1 / 10000))%fl = false →
   fcbs argsort (Mat 0 rows) y threshold s =
     (Ok (), mk (Some []) [] (Some []) ∅ (Some (Mat 0 rows)) (Some y))).
Proof.
  intros s'.
  assert (_compute_su_labels (start (Mat 0 rows) y) = (Ok [], s')) as Hrun.
  { by apply (compute_su_labels_exact 0 rows y []). }
  split.
  - rewrite cfs_unfold, bind_unfold, Hrun. simpl. by rewrite argsort_nil.
  - intros Ht. rewrite fcbs_unfold by done. rewrite bind_unfold, Hrun.
    simpl. by rewrite argsort_nil.
Qed.

(** X18.  On a matrix with a single column and labels of the length of its
    rows [cfs] always raises TypeError: the pool is empty after the first
    candidate, the body of the loop runs all the same, and
    [feature_order[id_selected]] is evaluated with [id_selected] None. *)
Theorem cfs_one_feature (rows : list (list Z)) (y : ndarray) (s : t) :
  np.len y = length rows →
  (cfs argsort (Mat 1 rows) y s).1 = Raise none_index_error.
Proof.
  intros Hlen.
  destruct (su_label_of_ok 1 rows y 0 Hlen) as [v Hv]; [lia|].
  rewrite cfs_unfold, bind_unfold.
  rewrite (compute_su_labels_exact 1 rows y [v]); [|done..|].
  - simpl. rewrite argsort_singleton. reflexivity.
  - intros [|col] v'; [|done]. by intros [= <-].
Qed.

End edge_cases.

Lemma search_length_mismatch_witness :
  let s' := with_labels (start X_twins (Vec [0]%Z)) (np.zeros 2) in
  cfs np.argsort X_twins (Vec [0]%Z) __init__ = (Raise length_error, s') ∧
  ((Fin (1 / 2) <? Fin (1 / 10000))%fl = false →
   fcbs np.argsort X_twins (Vec [0]%Z) (Fin (1 / 2)) __init__ =
     (Raise length_error, s')).
Proof.
  apply (search_length_mismatch np.argsort 2 [[0; 0]; [1; 1]]%Z);
    [lia|simpl; lia].
Defined.

Lemma search_no_features_witness :
  let s' := with_labels (start (Mat 0 [[]; []]) y_binary) [] in
  cfs np.argsort (Mat 0 [[]; []]) y_binary __init__ = (Raise pop_error, s') ∧
  ((Fin (1 / 2) <? Fin (1 / 10000))%fl = false →
   fcbs np.argsort (Mat 0 [[]; []]) y_binary (Fin (1 / 2)) __init__ =
     (Ok (), mk (Some []) [] (Some []) ∅ (Some (Mat 0 [[]; []]))
                (Some y_binary))).
Proof. apply (search_no_features np.argsort). exact argsort_perm. Defined.

Lemma cfs_one_feature_witness :
  (cfs np.argsort (Mat 1 [[0]; [1]]%Z) y_binary __init__).1 =
  Raise none_index_error.
Proof. apply (cfs_one_feature np.argsort); [exact argsort_perm|done]. Defined.


(** ** The merit and the expansion step of [cfs] *)

Lemma mapM_result_spec {A B} (f : A → result B) (l : list A) (k : list B) :
  Forall2 (λ a b, f a = Ok b) l k → mapM f l = Ok k.
Proof.
  induction 1 as [|a b l k Hab _ IH]; [done|].
  simpl. rewrite Hab, result_bind_Ok, IH. reflexivity.
Qed.

Lemma unit_nonneg (v : float) : unit_or_nan v → nonneg_or_nan v.
Proof. intros [->|(r & -> & Hr)]; [by left|right]. exists r. split; [done|lra]. Qed.

Lemma add_range (a b : float) :
  nonneg_or_nan a → nonneg_or_nan b → nonneg_or_nan (a + b)%fl.
Proof.
  intros [->|(x & -> & Hx)] [->|(y & -> & Hy)]; try by left.
  right. exists (x + y)%R. split; [done|lra].
Qed.

Lemma foldl_add_range (acc : float) (vals : list float) :
  nonneg_or_nan acc → Forall unit_or_nan vals →
  nonneg_or_nan (foldl Float.add acc vals).
Proof.
  intros Hacc Hvals. revert acc Hacc.
  induction Hvals as [|v vals Hv _ IH]; intros acc Hacc; [done|].
  simpl. apply IH. apply add_range; [done|by apply unit_nonneg].
Qed.

Lemma sqrt_returns (k m : nat) (rff : float) :
  nonneg_or_nan rff →
  ∃ d, math.sqrt (Float.of_nat k + Float.of_nat m * rff)%fl = Ok d.
Proof.
  intros [->|(r & -> & Hr)]; [by exists NaN|].
  unfold Float.of_nat. simpl. rewrite decide_False; [eauto|].
  pose proof (pos_INR k). pose proof (pos_INR m).
  assert (0 <= INR m * r)%R by by apply Rmult_le_pos. lra.
Qed.

Lemma pair_values_range (n : nat) (rows : list (list Z))
    (pairs : list (nat * nat)) :
  Forall (λ p, p.1 < n ∧ p.2 < n) pairs →
  ∃ vals, Forall2 (λ p v, su_features_of (Mat n rows) p.1 p.2 = Ok v)
            pairs vals ∧ Forall unit_or_nan vals.
Proof.
  induction 1 as [|[a b] pairs [Ha Hb] _ (vals & IH1 & IH2)]; [by exists []|].
  destruct (su_features_range n rows a b Ha Hb) as (v & Hv & Hr).
  exists (v :: vals). split; by constructor.
Qed.

Lemma combinations2_lt (n : nat) (features : list nat) :
  Forall (λ f, f < n) features →
  Forall (λ p, p.1 < n ∧ p.2 < n) (combinations2 features).
Proof.
  intros Hf. apply Forall_forall. intros [a b] Hab.
  apply combinations2_in in Hab as [Ha Hb].
  rewrite Forall_forall in Hf. simpl. split; [by apply Hf|by apply Hf].
Qed.

(** On a matrix and a label vector of its width, the merit of features in
    range is defined. *)
Lemma merit_value_returns (n : nat) (rows : list (list Z)) (l : list float)
    (features : list nat) :
  length l = n → Forall (λ f, f < n) features →
  ∃ v, merit_value (Mat n rows) l features = Ok v.
Proof.
  intros Hl Hf. unfold merit_value.
  destruct (lookups_exist l features) as [sel Hsel]; [by rewrite Hl|].
  rewrite (mapM_getitem_spec _ _ _ Hsel), result_bind_Ok.
  destruct (pair_values_range n rows (combinations2 features))
    as (vals & Hvals & Hr); [by apply combinations2_lt|].
  rewrite (mapM_result_spec _ _ _ Hvals), result_bind_Ok. cbv zeta.
  destruct (sqrt_returns (length features)
              (length features ^ 2 - length features) (np.sum vals)) as [d ->].
  { apply foldl_add_range; [|done]. right. exists 0%R. split; [done|lra]. }
  rewrite result_bind_Ok. eauto.
Qed.

Lemma mapM_result_inv {A B} (f : A → result B) (l : list A) (k : list B) :
  mapM f l = Ok k → Forall2 (λ a b, f a = Ok b) l k.
Proof.
  revert k. induction l as [|a l IH]; intros k; simpl.
  - intros [= <-]. constructor.
  - destruct (f a) as [b|] eqn:Hb; [|done]. rewrite result_bind_Ok.
    destruct (mapM f l) as [k'|]; [|done]. rewrite result_bind_Ok.
    intros [= <-]. constructor; [done|by apply IH].
Qed.

(** In a state with a consistent cache [_compute_merit] returns the merit,
    and changes the cache only. *)
Lemma compute_merit_value (X : ndarray) (l : list float) (features : list nat)
    (v : float) (s : t) :
  X_ s = Some X → _su_labels s = Some l → cache_ok X (_su_features s) →
  merit_value X l features = Ok v →
  ∃ s', _compute_merit features s = (Ok v, s') ∧ frame s s' ∧
        cache_ok X (_su_features s').
Proof.
  intros HX Hl Hc. unfold merit_value.
  destruct (mapM (getitem l) features) as [sel|] eqn:Hsel; [|done].
  rewrite result_bind_Ok.
  destruct (mapM _ (combinations2 features)) as [vals|] eqn:Hvals; [|done].
  rewrite result_bind_Ok. apply mapM_result_inv in Hvals. cbv zeta.
  destruct (math.sqrt _) as [d|] eqn:Hd; [|done].
  rewrite result_bind_Ok. intros [= <-].
  destruct (merit_rff_spec X _ vals (Fin 0) s HX Hc Hvals)
    as (s' & Hrff & Hfr & Hc').
  exists s'. split; [|done].
  unfold _compute_merit. rewrite bind_unfold. unfold su_labels_array.
  rewrite bind_unfold. simpl. rewrite Hl. simpl.
  rewrite bind_unfold. unfold lift at 1. rewrite Hsel.
  rewrite bind_unfold, Hrff. fold (np.sum vals).
  rewrite bind_unfold. unfold lift at 1.
  match goal with |- context [math.sqrt ?x] =>
    change (math.sqrt x) with
      (math.sqrt (Float.of_nat (length features) +
                  Float.of_nat (length features ^ 2 - length features) *
                  np.sum vals)%fl)
  end.
  rewrite Hd. reflexivity.
Qed.

Lemma cfs_ready_frame (n : nat) (rows : list (list Z)) (l : list float)
    (s s' : t) :
  cfs_ready n rows l s → frame s s' →
  cache_ok (Mat n rows) (_su_features s') → cfs_ready n rows l s'.
Proof.
  intros (HX & Hl & Hlen & _) (_ & _ & Hl' & HX' & _) Hc.
  split; [congruence|]. split; [congruence|]. done.
Qed.

(** X19.  In a state with the matrix, a label-correlation vector of its
    width and a consistent pairwise cache, [_compute_merit] returns for
    every list of features in range (the radicand being NaN or not
    negative, [math.sqrt] does not raise); the value is the merit computed
    from the matrix and the vector alone, whatever the cache holds, and
    only the cache changes. *)
Theorem compute_merit_pure (n : nat) (rows : list (list Z)) (l : list float)
    (features : list nat) (s : t) :
  cfs_ready n rows l s → Forall (λ f, f < n) features →
  ∃ v s', merit_value (Mat n rows) l features = Ok v ∧
          _compute_merit features s = (Ok v, s') ∧ frame s s' ∧
          cfs_ready n rows l s'.
Proof.
  intros Hs Hf. pose proof Hs as (HX & Hl & Hlen & Hc).
  destruct (merit_value_returns n rows l features Hlen Hf) as [v Hv].
  destruct (compute_merit_value _ l features v s HX Hl Hc Hv)
    as (s' & Hrun & Hfr & Hc').
  exists v, s'. split; [done|]. split; [done|]. split; [done|].
  by eapply cfs_ready_frame.
Qed.

Lemma twins_ready_ready : cfs_ready 2 [[0; 0]; [1; 1]]%Z [Fin 1; Fin 1] twins_ready.
Proof. split; [done|]. split; [done|]. split; [done|]. apply cache_ok_empty. Qed.

Lemma compute_merit_pure_witness :
  ∃ v s', merit_value X_twins [Fin 1; Fin 1] [0; 1] = Ok v ∧
          _compute_merit [0; 1] twins_ready = (Ok v, s') ∧
          frame twins_ready s' ∧
          cfs_ready 2 [[0; 0]; [1; 1]]%Z [Fin 1; Fin 1] s'.
Proof.
  apply (compute_merit_pure 2 [[0; 0]; [1; 1]]%Z [Fin 1; Fin 1] [0; 1]).
  - exact twins_ready_ready.
  - repeat constructor.
Defined.


(** *** The expansion step *)

Lemma gtb_asym (a b : float) : (a >? b)%fl = true → (b >? a)%fl = false.
Proof.
  unfold Float.gtb. destruct a, b; simpl; try done.
  intros H%bool_decide_eq_true. apply bool_decide_eq_false. lra.
Qed.

Lemma gtb_not_geb (a b : float) : (a >? b)%fl = true → (b >=? a)%fl = false.
Proof.
  unfold Float.gtb, Float.geb, Float.leb. destruct a, b; simpl; try done.
  intros H%bool_decide_eq_true. apply orb_false_iff.
  split; apply bool_decide_eq_false; lra.
Qed.

Lemma geb_gtb_trans (a b c : float) :
  (a >=? b)%fl = true → (b >? c)%fl = true → (a >? c)%fl = true.
Proof.
  unfold Float.gtb, Float.geb, Float.leb. destruct a, b, c; simpl; try done.
  rewrite orb_true_iff, !bool_decide_eq_true. lra.
Qed.

(** What the scan returns: nothing new when no merit exceeds the current
    one; otherwise the first of the greatest merits. *)
Lemma best_spec (ms : list float) (idx : nat) (m0 : float) (sel0 : option nat)
    (m' : float) (sel' : option nat) :
  best idx m0 sel0 ms = (m', sel') →
  (m' = m0 ∧ sel' = sel0 ∧ ∀ m, m ∈ ms → (m >? m0)%fl = false) ∨
  (∃ i, sel' = Some (idx + i) ∧ ms !! i = Some m' ∧ (m' >? m0)%fl = true ∧
        (∀ j m, ms !! j = Some m → (m >? m')%fl = false) ∧
        (∀ j m, j < i → ms !! j = Some m → (m >=? m')%fl = false)).
Proof.
  revert idx m0 sel0. induction ms as [|m1 ms IH]; intros idx m0 sel0; simpl.
  { intros [= <- <-]. left. split; [done|]. split; [done|].
    by intros m ?%elem_of_nil. }
  destruct (m1 >? m0)%fl eqn:H1; intros Hb; apply IH in Hb
    as [(-> & -> & Hall)|(i & -> & Hi & Hgt & Hall & Hbefore)].
  - right. exists 0. rewrite Nat.add_0_r. split; [done|]. split; [done|].
    split; [done|]. split; [|intros; lia].
    intros [|j] m; simpl.
    + intros [= <-]. apply FloatFacts.ltb_irrefl.
    + intros Hm. apply Hall. by eapply list_elem_of_lookup_2.
  - right. exists (S i). rewrite Nat.add_succ_r. split; [done|].
    split; [done|]. split; [by eapply FloatFacts.gtb_trans|]. split.
    + intros [|j] m; simpl; [|by apply Hall].
      intros [= <-]. by apply gtb_asym.
    + intros [|j] m Hj; simpl; [|apply Hbefore; lia].
      intros [= <-]. by apply gtb_not_geb.
  - left. split; [done|]. split; [done|].
    intros m [->|Hm]%elem_of_cons; [done|by apply Hall].
  - right. exists (S i). rewrite Nat.add_succ_r. split; [done|].
    split; [done|]. split; [done|]. split.
    + intros [|j] m; simpl; [|by apply Hall].
      intros [= <-]. destruct (m1 >? m')%fl eqn:Hm; [|done].
      by rewrite (FloatFacts.gtb_trans _ _ _ Hm Hgt) in H1.
    + intros [|j] m Hj; simpl; [|apply Hbefore; lia].
      intros [= <-]. destruct (m1 >=? m')%fl eqn:Hm; [|done].
      by rewrite (geb_gtb_trans _ _ _ Hm Hgt) in H1.
Qed.

Lemma merits_exist (n : nat) (rows : list (list Z)) (l : list float)
    (c fo : list nat) :
  length l = n → Forall (λ f, f < n) c → Forall (λ f, f < n) fo →
  ∃ ms, Forall2 (λ f m, merit_value (Mat n rows) l (c ++ [f]) = Ok m) fo ms.
Proof.
  intros Hl Hc. induction 1 as [|f fo Hf _ [ms IH]]; [by exists []|].
  destruct (merit_value_returns n rows l (c ++ [f]) Hl) as [m Hm].
  { apply Forall_app. split; [done|]. by constructor. }
  exists (m :: ms). by constructor.
Qed.

Lemma cfs_expand_spec (n : nat) (rows : list (list Z)) (l : list float)
    (c fo : list nat) (ms : list float) (idx : nat) (m : float)
    (sel : option nat) (s : t) :
  cfs_ready n rows l s →
  Forall2 (λ f m, merit_value (Mat n rows) l (c ++ [f]) = Ok m) fo ms →
  ∃ s', cfs_expand c fo idx m sel s = (Ok (best idx m sel ms), s') ∧
        frame s s' ∧ cfs_ready n rows l s'.
Proof.
  intros Hs Hms. revert idx m sel s Hs.
  induction Hms as [|f m1 fo ms Hm _ IH]; intros idx m sel s Hs.
  { simpl. exists s. split; [done|]. split; [apply frame_refl|done]. }
  pose proof Hs as (HX & Hl & Hlen & Hc).
  destruct (compute_merit_value _ l (c ++ [f]) m1 s HX Hl Hc Hm)
    as (s1 & Hrun & Hfr & Hc1).
  assert (cfs_ready n rows l s1) as Hs1 by by eapply cfs_ready_frame.
  cbn [cfs_expand best]. rewrite bind_unfold, Hrun.
  destruct (m1 >? m)%fl;
    [destruct (IH (S idx) m1 (Some idx) s1 Hs1) as (s' & Hrun' & Hfr' & Hs')
    |destruct (IH (S idx) m sel s1 Hs1) as (s' & Hrun' & Hfr' & Hs')];
    exists s'; (split; [done|]); (split; [by eapply frame_trans|done]).
Qed.

(** X20.  With the matrix, the label-correlation vector and a consistent
    cache in place, and candidates and pool in range, the [for] loop of
    [cfs] over the pool returns.  When no extension of the candidates by a
    feature of the pool has a merit above [float_info.min] it selects
    nothing; otherwise it selects the first feature of the pool whose
    merit is the greatest: no merit exceeds it, and no earlier one
    reaches it.  A NaN merit is never selected. *)
Theorem cfs_expand_selects (n : nat) (rows : list (list Z)) (l : list float)
    (c fo : list nat) (s : t) :
  cfs_ready n rows l s → Forall (λ f, f < n) c → Forall (λ f, f < n) fo →
  ∃ ms m' sel' s',
    Forall2 (λ f m, merit_value (Mat n rows) l (c ++ [f]) = Ok m) fo ms ∧
    cfs_expand c fo 0 float_info.min None s = (Ok (m', sel'), s') ∧
    match sel' with
    | None =>
        m' = float_info.min ∧
        ∀ m, m ∈ ms → (m >? float_info.min)%fl = false
    | Some i =>
        ms !! i = Some m' ∧ (m' >? float_info.min)%fl = true ∧
        Float.is_nan m' = false ∧
        (∀ j m, ms !! j = Some m → (m >? m')%fl = false) ∧
        (∀ j m, j < i → ms !! j = Some m → (m >=? m')%fl = false)
    end.
Proof.
  intros Hs Hc Hfo. pose proof Hs as (_ & _ & Hlen & _).
  destruct (merits_exist n rows l c fo Hlen Hc Hfo) as [ms Hms].
  destruct (cfs_expand_spec n rows l c fo ms 0 float_info.min None s Hs Hms)
    as (s' & Hrun & _).
  destruct (best 0 float_info.min None ms) as [m' sel'] eqn:Hb.
  exists ms, m', sel', s'. split; [done|]. split; [done|].
  apply best_spec in Hb
    as [(-> & -> & Hall)|(i & -> & Hi & Hgt & Hall & Hbefore)]; [done|].
  simpl. split; [done|]. split; [done|]. split; [|done].
  by destruct m'.
Qed.

Lemma cfs_expand_selects_witness :
  ∃ ms m' sel' s',
    Forall2 (λ f m, merit_value X_twins [Fin 1; Fin 1] ([0] ++ [f]) = Ok m)
      [1] ms ∧
    cfs_expand [0] [1] 0 float_info.min None twins_ready = (Ok (m', sel'), s') ∧
    match sel' with
    | None =>
        m' = float_info.min ∧
        ∀ m, m ∈ ms → (m >? float_info.min)%fl = false
    | Some i =>
        ms !! i = Some m' ∧ (m' >? float_info.min)%fl = true ∧
        Float.is_nan m' = false ∧
        (∀ j m, ms !! j = Some m → (m >? m')%fl = false) ∧
        (∀ j m, j < i → ms !! j = Some m → (m >=? m')%fl = false)
    end.
Proof.
  apply (cfs_expand_selects 2 [[0; 0]; [1; 1]]%Z [Fin 1; Fin 1] [0] [1]).
  - exact twins_ready_ready.
  - repeat constructor.
  - repeat constructor.
Defined.


(** *** The forward search *)

Lemma merit_trace_lookup (X : ndarray) (l : list float) (c picked : list nat)
    (j : nat) (r : result float) :
  merit_trace X l c picked !! j = Some r →
  r = merit_value X l (c ++ take (S j) picked).
Proof.
  revert c j. induction picked as [|f picked IH]; intros c j; [done|].
  destruct j as [|j]; simpl.
  - intros [= <-]. by rewrite take_0.
  - intros Hj. apply IH in Hj. by rewrite <- app_assoc in Hj.
Qed.

Lemma cfs_iteration_run (n : nat) (rows : list (list Z)) (l : list float)
    (c fo : list nat) (s : t) :
  cfs_ready n rows l s → Forall (λ f, f < n) c → Forall (λ f, f < n) fo →
  (∃ s', cfs_iteration c fo s = (Raise none_index_error, s')) ∨
  (∃ m i f s', fo !! i = Some f ∧
     merit_value (Mat n rows) l (c ++ [f]) = Ok m ∧
     (m >? float_info.min)%fl = true ∧
     cfs_iteration c fo s =
       (Ok (continue_after (delete i fo) (_scores s ++ [m]),
            c ++ [f], delete i fo), s') ∧
     cfs_ready n rows l s' ∧ _scores s' = _scores s ++ [m] ∧
     _result s' = _result s ∧ y_ s' = y_ s).
Proof.
  intros Hs Hc Hfo. pose proof Hs as (_ & _ & Hlen & _).
  destruct (merits_exist n rows l c fo Hlen Hc Hfo) as [ms Hms].
  destruct (cfs_expand_spec n rows l c fo ms 0 float_info.min None s Hs Hms)
    as (s1 & Hrun & Hfr & Hs1).
  destruct (best 0 float_info.min None ms) as [m' sel'] eqn:Hb.
  apply best_spec in Hb
    as [(-> & -> & Hall)|(i & -> & Hi & Hgt & Hall & Hbefore)].
  - left. exists s1. unfold cfs_iteration. by rewrite bind_unfold, Hrun.
  - right. simpl in Hrun.
    destruct (Forall2_lookup_r _ _ _ _ _ Hms Hi) as (f & Hf & Hm).
    destruct Hfr as (Hr & Hsc & Hl1 & HX1 & Hy1).
    exists m', i, f. eexists. split; [done|]. split; [done|]. split; [done|].
    split.
    { unfold cfs_iteration. rewrite bind_unfold, Hrun.
      rewrite bind_unfold. unfold lift at 1, getitem. rewrite Hf.
      rewrite bind_unfold. unfold scores_append. rewrite !bind_unfold.
      simpl. rewrite Hsc. reflexivity. }
    simpl. split; [|rewrite ?Hsc, ?Hr, ?Hy1; done].
    destruct Hs1 as (HX & Hl & _ & Hc1). by repeat split.
Qed.

Lemma delete_lt (n i : nat) (fo : list nat) :
  Forall (λ f, f < n) fo → Forall (λ f, f < n) (delete i fo).
Proof.
  intros H. apply Forall_forall. intros f Hf. rewrite Forall_forall in H.
  apply H. eapply elem_of_submseteq; [exact Hf|].
  apply sublist_submseteq, sublist_delete.
Qed.

Lemma cfs_while_run (n : nat) (rows : list (list Z)) (l : list float)
    (fuel : nat) (c fo : list nat) (s : t) :
  cfs_ready n rows l s → Forall (λ f, f < n) c → Forall (λ f, f < n) fo →
  length fo ≤ S fuel →
  (∃ s', cfs_while fuel c fo s = (Raise none_index_error, s')) ∨
  (∃ picked rest ms s',
     cfs_while fuel c fo s = (Ok (c ++ picked), s') ∧
     picked ++ rest ≡ₚ fo ∧ picked ≠ [] ∧
     Ok <$> ms = merit_trace (Mat n rows) l c picked ∧
     Forall (λ m, (m >? float_info.min)%fl = true) ms ∧
     _scores s' = _scores s ++ ms ∧ cfs_ready n rows l s' ∧
     _result s' = _result s ∧ y_ s' = y_ s).
Proof.
  revert c fo s. induction fuel as [|fuel IH]; intros c fo s Hs Hc Hfo Hlen;
    rewrite cfs_while_unfold, bind_unfold;
    (destruct (cfs_iteration_run n rows l c fo s Hs Hc Hfo)
      as [[s1 ->]|(m & i & f & s1 & Hf & Hm & Hgt & -> & Hs1 & Hsc & Hr & Hy)];
      [left; by exists s1|]);
    pose proof (lookup_lt_Some _ _ _ Hf) as Hi;
    (assert (f < n) as Hfn
      by (rewrite Forall_forall in Hfo; apply Hfo;
          by eapply list_elem_of_lookup_2));
    (assert ([f] ++ delete i fo ≡ₚ fo) as Hperm
      by (symmetry; by apply delete_Permutation)).
  - destruct (continue_after _ _) eqn:Hcont.
    { apply continue_after_true in Hcont. rewrite length_delete in Hcont
        by eauto using lookup_lt_is_Some_2. lia. }
    right. exists [f], (delete i fo), [m], s1.
    split; [done|]. split; [done|]. split; [done|].
    split; [cbn [merit_trace]; by rewrite Hm|].
    split; [by constructor|]. split; [done|]. split; [done|]. by split.
  - destruct (continue_after _ _) eqn:Hcont.
    + destruct (IH (c ++ [f]) (delete i fo) s1) as
        [[s2 ->]|(picked & rest & ms & s2 & -> & Hp & Hne & Htr & Hms & Hsc2
                  & Hs2 & Hr2 & Hy2)].
      * done.
      * apply Forall_app. split; [done|]. by constructor.
      * by apply delete_lt.
      * rewrite length_delete by eauto using lookup_lt_is_Some_2. lia.
      * left. by exists s2.
      * right. exists (f :: picked), rest, (m :: ms), s2.
        rewrite <- app_assoc. split; [done|]. split.
        { simpl. rewrite <- Hperm. simpl. by rewrite Hp. }
        split; [done|]. split; [cbn [merit_trace]; by rewrite Hm, <- Htr|].
        split; [by constructor|].
        split; [by rewrite Hsc2, Hsc, <- app_assoc|].
        split; [done|]. split; congruence.
    + right. exists [f], (delete i fo), [m], s1.
      split; [done|]. split; [done|]. split; [done|].
      split; [cbn [merit_trace]; by rewrite Hm|].
      split; [by constructor|]. split; [done|]. split; [done|]. by split.
Qed.

Lemma compute_su_labels_values (n : nat) (rows : list (list Z)) (y : ndarray)
    (s : t) :
  X_ s = Some (Mat n rows) → y_ s = Some y → _su_labels s = None →
  np.len y = length rows →
  ∃ l, _compute_su_labels s = (Ok l, with_labels s l) ∧ length l = n ∧
       (∀ col v, l !! col = Some v →
          su_label_of (Mat n rows) y col = Ok v ∧ unit_or_nan v).
Proof.
  intros HX Hy Hl Hlen.
  destruct (list_of_values
    (λ col v, su_label_of (Mat n rows) y col = Ok v ∧ unit_or_nan v) n)
    as (vs & Hvs & Hval).
  { intros col Hcol. by apply su_label_range. }
  exists vs. split; [|done].
  apply (compute_su_labels_exact n rows y vs); try done.
  intros col v Hv. by apply Hval.
Qed.

Section forward_search.

Variable argsort : list float → list nat.
Hypothesis argsort_is_perm : argsort_permutes argsort.

(** The outcome of [cfs] on a matrix with labels of the length of its
    rows. *)
Lemma cfs_run (n : nat) (rows : list (list Z)) (y : ndarray) (s : t) :
  0 < n → np.len y = length rows →
  (∃ s', cfs argsort (Mat n rows) y s = (Raise none_index_error, s')) ∨
  (∃ l first picked s0 ms s',
     cfs argsort (Mat n rows) y s = (Ok (), s') ∧
     length l = n ∧
     (∀ col v, l !! col = Some v →
        su_label_of (Mat n rows) y col = Ok v ∧ unit_or_nan v) ∧
     head (argsort (Float.neg <$> l)) = Some first ∧
     s' = mk (Some (first :: picked)) (s0 :: ms) (Some l) (_su_features s')
             (Some (Mat n rows)) (Some y) ∧
     cache_ok (Mat n rows) (_su_features s') ∧
     picked ≠ [] ∧ NoDup (first :: picked) ∧
     Forall (λ f, f < n) (first :: picked) ∧
     l !! first = Some s0 ∧
     Ok <$> ms = merit_trace (Mat n rows) l [first] picked ∧
     Forall (λ m, (m >? float_info.min)%fl = true) ms).
Proof.
  intros Hn Hlen. rewrite cfs_unfold, bind_unfold.
  destruct (compute_su_labels_values n rows y (start (Mat n rows) y))
    as (l & -> & Hl & Hval); [done..|].
  remember (argsort (Float.neg <$> l)) as order eqn:Horder.
  assert (order ≡ₚ seq 0 n) as Hperm.
  { rewrite Horder, (argsort_is_perm _). by rewrite length_fmap, Hl. }
  assert (NoDup order) as Hnd by (rewrite Hperm; apply NoDup_seq).
  assert (Forall (λ f, f < n) order) as Hlt.
  { rewrite Hperm. apply Forall_forall. intros f ?%elem_of_seq. lia. }
  destruct order as [|first fo].
  { apply Permutation_nil_l in Hperm. destruct n; [lia|done]. }
  apply Forall_cons in Hlt as [Hfirst Hfo]. apply NoDup_cons in Hnd as [Hnin Hnd].
  destruct (lookup_lt_is_Some_2 l first) as [s0 Hs0]; [lia|].
  rewrite bind_unfold. unfold su_labels_getitem, su_labels_array.
  rewrite !bind_unfold. simpl. unfold getitem. rewrite Hs0.
  rewrite bind_unfold. unfold scores_append. rewrite !bind_unfold. simpl.
  rewrite bind_unfold.
  match goal with |- context [cfs_while _ _ _ ?st] => set (s1 := st) end.
  destruct (cfs_while_run n rows l (length fo) [first] fo s1)
    as [[s2 ->]|(picked & rest & ms & s2 & -> & Hp & Hne & Htr & Hms & Hsc
                 & Hs2 & Hr2 & Hy2)].
  - split; [done|]. split; [done|]. split; [done|]. apply cache_ok_empty.
  - by constructor.
  - done.
  - lia.
  - left. by exists s2.
  - right. destruct Hs2 as (HX2 & Hl2 & _ & Hc2).
    exists l, first, picked, s0, ms. eexists. split; [reflexivity|].
    split; [done|]. split; [done|]. split; [by rewrite <- Horder|]. simpl.
    split; [by rewrite Hsc, Hl2, HX2, Hy2|]. split; [done|]. split; [done|].
    assert (∀ f, f ∈ picked → f ∈ fo) as Hsub.
    { intros f Hf. rewrite <- Hp. apply elem_of_app. by left. }
    split.
    { apply NoDup_cons. split.
      - intros Hin. by apply Hnin, Hsub.
      - rewrite <- Hp in Hnd. by apply NoDup_app in Hnd as (? & _ & _). }
    split; [|done]. constructor; [done|].
    apply Forall_forall. intros f Hf. rewrite Forall_forall in Hfo.
    by apply Hfo, Hsub.
Qed.

(** X21.  On a matrix with at least one column and labels of the length
    of its rows, [cfs] either returns or raises the TypeError of
    [feature_order[id_selected]] with nothing selected; it raises no other
    error. *)
Theorem cfs_returns_or_type_error (n : nat) (rows : list (list Z))
    (y : ndarray) (s : t) :
  0 < n → np.len y = length rows →
  (∃ s', cfs argsort (Mat n rows) y s = (Ok (), s')) ∨
  (∃ s', cfs argsort (Mat n rows) y s = (Raise none_index_error, s')).
Proof.
  intros Hn Hlen.
  destruct (cfs_run n rows y s Hn Hlen)
    as [?|(l & first & picked & s0 & ms & s' & Hrun & _)]; [by right|].
  left. by exists s'.
Qed.

(** X22.  When [cfs] returns on such a matrix, the result holds at least
    two distinct column indices, the first being the one [argsort] puts
    first for the negated label correlations; the label-correlation
    vector is the one computed and is left as computed; the score trace
    starts with the label correlation of the first feature, and its entry
    [j >= 1] is the merit of the first [j + 1] features of the result,
    which is above [float_info.min]. *)
Theorem cfs_result_structure (n : nat) (rows : list (list Z)) (y : ndarray)
    (s s' : t) :
  0 < n → np.len y = length rows →
  cfs argsort (Mat n rows) y s = (Ok (), s') →
  ∃ l r first s0,
    _su_labels s' = Some l ∧ length l = n ∧
    (∀ col v, l !! col = Some v → su_label_of (Mat n rows) y col = Ok v) ∧
    get_results s' = Some r ∧ 2 ≤ length r ∧ NoDup r ∧
    (∀ f, f ∈ r → f < n) ∧
    head r = Some first ∧ head (argsort (Float.neg <$> l)) = Some first ∧
    length (get_scores s') = length r ∧
    head (get_scores s') = Some s0 ∧ l !! first = Some s0 ∧
    ∀ j m, 0 < j → get_scores s' !! j = Some m →
      merit_value (Mat n rows) l (take (S j) r) = Ok m ∧
      (m >? float_info.min)%fl = true.
Proof.
  intros Hn Hlen Hrun.
  destruct (cfs_run n rows y s Hn Hlen)
    as [[s1 Hraise]|(l & first & picked & s0 & ms & s1 & Hrun' & Hl & Hval &
                     Hhead & Hs1 & _ & Hne & Hnd & Hlt & Hs0 & Htr & Hms)];
    [congruence|].
  assert (s1 = s') as -> by congruence. rewrite Hs1.
  unfold get_results, get_scores. simpl.
  assert (length ms = length picked) as Hlen'.
  { apply (f_equal length) in Htr. rewrite length_fmap in Htr. rewrite Htr.
    clear. generalize [first]. induction picked; intros c; simpl; auto. }
  exists l, (first :: picked), first, s0. split; [done|]. split; [done|].
  split; [intros col v Hv; by apply Hval|]. split; [done|].
  split; [destruct picked; [done|simpl; lia]|]. split; [done|].
  split; [by apply Forall_forall|]. split; [done|]. split; [done|].
  split; [simpl; by rewrite Hlen'|]. split; [done|]. split; [done|].
  intros [|j] m Hj; [lia|]. simpl. intros Hm. split.
  - assert (merit_trace (Mat n rows) l [first] picked !! j = Some (Ok m)) as Ht.
    { by rewrite <- Htr, list_lookup_fmap, Hm. }
    apply merit_trace_lookup in Ht. by rewrite Ht.
  - rewrite Forall_forall in Hms. apply Hms. by eapply list_elem_of_lookup_2.
Qed.

End forward_search.

Lemma cfs_returns_or_type_error_witness :
  (∃ s', cfs np.argsort X_twins y_binary __init__ = (Ok (), s')) ∨
  (∃ s', cfs np.argsort X_twins y_binary __init__ =
           (Raise none_index_error, s')).
Proof.
  apply (cfs_returns_or_type_error np.argsort argsort_perm 2
           [[0; 0]; [1; 1]]%Z); [lia|done].
Defined.

Lemma cfs_result_structure_witness :
  let s' := (cfs np.argsort X_twins y_binary __init__).2 in
  ∃ l r first s0,
    _su_labels s' = Some l ∧ length l = 2 ∧
    (∀ col v, l !! col = Some v → su_label_of X_twins y_binary col = Ok v) ∧
    get_results s' = Some r ∧ 2 ≤ length r ∧ NoDup r ∧
    (∀ f, f ∈ r → f < 2) ∧
    head r = Some first ∧ head (np.argsort (Float.neg <$> l)) = Some first ∧
    length (get_scores s') = length r ∧
    head (get_scores s') = Some s0 ∧ l !! first = Some s0 ∧
    ∀ j m, 0 < j → get_scores s' !! j = Some m →
      merit_value X_twins l (take (S j) r) = Ok m ∧
      (m >? float_info.min)%fl = true.
Proof.
  intros s'.
  apply (cfs_result_structure np.argsort argsort_perm 2 [[0; 0]; [1; 1]]%Z
           y_binary __init__); [lia|done|].
  unfold s'. rewrite cfs_twins_run. exact cfs_twins_run.
Defined.


(** ** The threshold filter *)

Lemma zeroed_trans (l0 l1 l2 : list float) :
  zeroed l0 l1 → zeroed l1 l2 → zeroed l0 l2.
Proof.
  unfold zeroed. intros H1 H2. revert l2 H2.
  induction H1 as [|v0 v1 l0 l1 Hv _ IH]; intros l2 H2.
  - by apply Forall2_nil_inv_l in H2 as ->.
  - apply Forall2_cons_inv_l in H2 as (v2 & l2' & Hv2 & H2 & ->).
    constructor; [|by apply IH]. destruct Hv as [-> | ->], Hv2 as [-> | ->]; auto.
Qed.

Lemma zero_is_zero : (Fin 0 =? Fin 0)%fl = true.
Proof. simpl. by apply bool_decide_eq_true. Qed.

(** A returning call of [_compute_su_features] in a state with a
    consistent cache returns the symmetrical uncertainty of the two
    features. *)
Lemma compute_su_features_sound (X : ndarray) (a b : nat) (s s' : t)
    (v : float) :
  X_ s = Some X → cache_ok X (_su_features s) →
  _compute_su_features a b s = (Ok v, s') →
  su_features_of X a b = Ok v ∧ frame s s' ∧ cache_ok X (_su_features s').
Proof.
  intros HX Hc [[Hl ->]|(Hl & (X' & HX' & Hv) & ->)]%compute_su_features_inv.
  - split; [by apply Hc|]. split; [apply frame_refl|done].
  - assert (X' = X) as -> by congruence.
    split; [done|]. split; [done|]. simpl.
    intros a' b' v'. destruct (decide ((a, b) = (a', b'))) as [[= <- <-]|Hne].
    + rewrite lookup_insert_eq. by intros [= <-].
    + rewrite lookup_insert_ne by done. apply Hc.
Qed.

(** After the inner loop for [p], every feature of [dup] whose score is
    still not 0.0 has a score that its symmetrical uncertainty with [p]
    does not reach. *)
Lemma fcbs_dominance_post (X : ndarray) (p : nat) (dup : list nat) (s s' : t)
    (l : list float) :
  X_ s = Some X → cache_ok X (_su_features s) → _su_labels s = Some l →
  fcbs_dominance p dup s = (Ok (), s') →
  ∃ l', _su_labels s' = Some l' ∧ cache_ok X (_su_features s') ∧
    _result s' = _result s ∧ _scores s' = _scores s ∧
    X_ s' = X_ s ∧ y_ s' = y_ s ∧ zeroed l l' ∧
    (∀ i, i ∉ dup → l' !! i = l !! i) ∧
    (∀ q v, q ∈ dup → l' !! q = Some v → (v =? Fin 0)%fl = false →
       ∃ su, su_features_of X p q = Ok su ∧ (su >=? v)%fl = false) ∧
    (∀ q v, l !! q = Some v → l' !! q ≠ Some v →
       ∃ su, su_features_of X p q = Ok su ∧ (su >=? v)%fl = true).
Proof.
  revert s l. induction dup as [|q dup IH]; intros s l HX Hc Hl; simpl.
  { intros [= <-]. exists l. split; [done|]. split; [done|].
    do 4 (split; [done|]). split; [apply zeroed_refl|]. split; [done|].
    split; [by intros q v ?%elem_of_nil|]. by intros q v ? ?. }
  intros H. apply bind_ok_inv in H as (su & s1 & H1 & H).
  apply (compute_su_features_sound X) in H1
    as (Hsu & (Hr1 & Hsc1 & Hl1 & HX1 & Hy1) & Hc1); [|done..].
  apply bind_ok_inv in H as (sq & s2 & H2 & H).
  apply su_labels_getitem_inv in H2 as (-> & l1 & Hl1' & Hsq).
  assert (l1 = l) as -> by congruence.
  apply bind_ok_inv in H as ([] & s3 & H3 & H).
  destruct (su >=? sq)%fl eqn:Hdom.
  - apply su_labels_setitem_inv in H3 as (l1 & Hl1'' & ->).
    assert (l1 = l) as -> by congruence.
    apply (IH _ (<[q:=Fin 0]> l)) in H
      as (l' & Hl' & Hc' & Hr' & Hsc' & HX' & Hy' & Hz & Hout & Hin & Hch);
      [|simpl; congruence|done|done].
    simpl in *. exists l'. split; [done|]. split; [done|].
    split; [congruence|]. split; [congruence|]. split; [congruence|].
    split; [congruence|].
    split; [eapply zeroed_trans; [|exact Hz]; apply zeroed_insert, zeroed_refl|].
    split; [|split].
    + intros i Hi. apply not_elem_of_cons in Hi as [Hne Hi].
      rewrite (Hout i Hi). by rewrite list_lookup_insert_ne.
    + intros q' v Hq' Hv Hnz.
      destruct (decide (q' ∈ dup)) as [Hd|Hd]; [by eapply Hin|].
      apply elem_of_cons in Hq' as [->|?]; [|done].
      rewrite (Hout q Hd) in Hv.
      rewrite list_lookup_insert_eq in Hv by by eapply lookup_lt_Some.
      injection Hv as <-. by rewrite zero_is_zero in Hnz.
    + intros x v Hv Hne.
      destruct (decide (x = q)) as [->|Hxq].
      * assert (v = sq) as -> by congruence. by exists su.
      * apply (Hch x v); [|done]. by rewrite list_lookup_insert_ne.
  - injection H3 as <-.
    apply (IH _ l) in H
      as (l' & Hl' & Hc' & Hr' & Hsc' & HX' & Hy' & Hz & Hout & Hin & Hch);
      [|congruence|done|congruence].
    exists l'. split; [done|]. split; [done|].
    split; [congruence|]. split; [congruence|]. split; [congruence|].
    split; [congruence|]. split; [done|]. split; [|split; [|done]].
    + intros i Hi. apply not_elem_of_cons in Hi as [Hne Hi]. by apply Hout.
    + intros q' v Hq' Hv Hnz.
      destruct (decide (q' ∈ dup)) as [Hd|Hd]; [by eapply Hin|].
      apply elem_of_cons in Hq' as [->|?]; [|done].
      rewrite (Hout q Hd) in Hv. assert (v = sq) as -> by congruence.
      by exists su.
Qed.

Lemma left_out_cons (X : ndarray) (threshold : float) (l : list float)
    (order r : list nat) (p j f : nat) (v : float) :
  left_out X threshold l order r j f v →
  left_out X threshold l (p :: order) r (S j) f v.
Proof.
  intros [Hz|[(i & p' & su & Hi & Hp & Hr & Hsu & Hdom)
             |(k & g & vg & Hk & Hg & Hvg & Hnz & Hlt)]].
  - by left.
  - right. left. exists (S i), p', su. split; [lia|]. by repeat split.
  - right. right. exists (S k), g, vg. split; [lia|]. by repeat split.
Qed.

Lemma left_out_cons_selected (X : ndarray) (threshold : float)
    (l : list float) (order r : list nat) (p j f : nat) (v : float) :
  left_out X threshold l order r j f v →
  left_out X threshold l (p :: order) (p :: r) (S j) f v.
Proof.
  intros [Hz|[(i & p' & su & Hi & Hp & Hr & Hsu & Hdom)
             |(k & g & vg & Hk & Hg & Hvg & Hnz & Hlt)]].
  - by left.
  - right. left. exists (S i), p', su. split; [lia|]. split; [done|].
    split; [by right|done].
  - right. right. exists (S k), g, vg. split; [lia|]. by repeat split.
Qed.

Lemma left_out_labels (X : ndarray) (threshold : float) (l l1 : list float)
    (order r : list nat) (j f : nat) (v : float) :
  (∀ q v, l1 !! q = Some v → (v =? Fin 0)%fl = false → l !! q = Some v) →
  left_out X threshold l1 order r j f v →
  left_out X threshold l order r j f v.
Proof.
  intros Hback [Hz|[Hdom|(k & g & vg & Hk & Hg & Hvg & Hnz & Hlt)]].
  - by left.
  - by right; left.
  - right. right. exists k, g, vg. split; [done|]. split; [done|].
    split; [by apply Hback|done].
Qed.

Lemma fcbs_loop_post (X : ndarray) (threshold : float) (fo : list nat)
    (s s' : t) (l : list float) (r : list nat) :
  X_ s = Some X → cache_ok X (_su_features s) → _su_labels s = Some l →
  _result s = Some r → NoDup fo →
  fcbs_loop threshold fo fo s = (Ok (), s') →
  ∃ l' r' sc', _su_labels s' = Some l' ∧ zeroed l l' ∧
    cache_ok X (_su_features s') ∧ X_ s' = X_ s ∧ y_ s' = y_ s ∧
    _result s' = Some (r ++ r') ∧ _scores s' = _scores s ++ sc' ∧
    r' `sublist_of` fo ∧
    Forall2 (λ f v, l !! f = Some v ∧ (v =? Fin 0)%fl = false ∧
                    (v <? threshold)%fl = false) r' sc' ∧
    (∀ i j p q vq, i < j → r' !! i = Some p → r' !! j = Some q →
       l !! q = Some vq →
       ∃ su, su_features_of X p q = Ok su ∧ (su >=? vq)%fl = false) ∧
    (∀ j f v, fo !! j = Some f → f ∉ r' → l !! f = Some v →
       left_out X threshold l fo r' j f v).
Proof.
  revert s l r. induction fo as [|p fo IH]; intros s l r HX Hc Hl Hr Hnd.
  { simpl. intros [= <-]. exists l, [], []. rewrite !app_nil_r.
    split; [done|]. split; [apply zeroed_refl|]. do 5 (split; [done|]).
    split; [done|]. split; [constructor|].
    split; [by intros i j p q vq _ ?|]. by intros j f v ?. }
  apply NoDup_cons in Hnd as [Hp Hnd]. cbn [fcbs_loop].
  intros H. apply bind_ok_inv in H as (sp & s1 & H1 & H).
  apply su_labels_getitem_inv in H1 as (-> & l1 & Hl1 & Hsp).
  assert (l1 = l) as -> by congruence.
  destruct (sp =? Fin 0)%fl eqn:Hnz.
  { apply (IH _ l r) in H
      as (l' & r' & sc' & Hl' & Hz & Hc' & HX' & Hy' & Hr' & Hsc' & Hsub & Hf2
          & Hpairs & Hleft); [|done..].
    exists l', r', sc'. do 7 (split; [done|]).
    split; [by apply sublist_cons|]. split; [done|]. split; [done|].
    intros [|j] f v Hj Hf Hv; simpl in Hj.
    - injection Hj as <-. left. congruence.
    - by apply left_out_cons, Hleft. }
  apply bind_ok_inv in H as (sp' & s1 & H1 & H).
  apply su_labels_getitem_inv in H1 as (-> & l1 & Hl1' & Hsp').
  assert (l1 = l) as -> by congruence. assert (sp' = sp) as -> by congruence.
  destruct (sp <? threshold)%fl eqn:Hlt.
  { injection H as <-. exists l, [], []. rewrite !app_nil_r.
    split; [done|]. split; [apply zeroed_refl|]. do 5 (split; [done|]).
    split; [apply sublist_nil_l|]. split; [constructor|].
    split; [by intros i j p' q vq _ ?|].
    intros j f v Hj _ Hv. right. right. exists 0, p, sp.
    split; [lia|]. by repeat split. }
  apply bind_ok_inv in H as ([] & s1 & H1 & H).
  apply (fcbs_dominance_post X _ _ _ _ l) in H1
    as (l1 & Hdl & Hdc & Hdr & Hdsc & HdX & Hdy & Hdz & Hout1 & Hin1 & Hch1);
    [|done..].
  apply bind_ok_inv in H as ([] & s2 & H2 & H).
  apply result_append_inv in H2 as (r1 & Hdr' & ->).
  assert (r1 = r) as -> by congruence.
  apply bind_ok_inv in H as (sp1 & s3 & H3 & H).
  apply su_labels_getitem_inv in H3 as (-> & l1' & Hdl' & Hsp1).
  simpl in Hdl'. assert (l1' = l1) as -> by congruence.
  assert (sp1 = sp) as ->.
  { rewrite (Hout1 p Hp) in Hsp1. congruence. }
  apply bind_ok_inv in H as ([] & s4 & H4 & H).
  unfold scores_append in H4. rewrite bind_unfold in H4. simpl in H4.
  unfold set_scores in H4. rewrite bind_unfold in H4. simpl in H4.
  injection H4 as <-.
  apply (IH _ l1 (r ++ [p])) in H
    as (l' & r' & sc' & Hl' & Hz & Hc' & HX' & Hy' & Hr' & Hsc' & Hsub & Hf2
        & Hpairs & Hleft); [|simpl; first [congruence | done]..].
  simpl in *.
  assert (∀ q v, l1 !! q = Some v → (v =? Fin 0)%fl = false →
                 l !! q = Some v) as Hback.
  { intros q v. by apply (zeroed_lookup l l1). }
  exists l', (p :: r'), (sp :: sc').
  split; [done|]. split; [by eapply zeroed_trans|]. split; [done|].
  split; [congruence|]. split; [congruence|].
  split; [by rewrite Hr', <- app_assoc|].
  split; [by rewrite Hsc', Hdsc, <- app_assoc|].
  split; [by apply sublist_skip|]. split.
  { constructor; [done|]. eapply Forall2_impl; [exact Hf2|].
    intros f v (Hv & Hvz & Hvt). split; [by apply Hback|done]. }
  split.
  { intros i j p' q vq Hij Hi Hj Hq.
    destruct j as [|j]; [lia|]. simpl in Hj.
    destruct (Forall2_lookup_l _ _ _ _ _ Hf2 Hj) as (v & _ & Hv & Hvz & _).
    assert (vq = v) as -> by (apply Hback in Hv; [congruence|done]).
    destruct i as [|i]; simpl in Hi.
    - injection Hi as <-. apply (Hin1 q v); [|done|done].
      eapply elem_of_submseteq; [by eapply list_elem_of_lookup_2|].
      by apply sublist_submseteq.
    - apply (Hpairs i j p' q v); [lia|done..]. }
  intros [|j] f v Hj Hf Hv; simpl in Hj.
  { injection Hj as <-. destruct Hf. left. }
  apply not_elem_of_cons in Hf as [Hfp Hf].
  destruct (Forall2_lookup_l _ _ _ _ _ Hdz Hv) as (v1 & Hv1 & Hcase).
  destruct (v =? Fin 0)%fl eqn:Hvz; [by left|].
  destruct Hcase as [-> | ->].
  - apply left_out_cons_selected.
    eapply left_out_labels; [|by apply Hleft]. exact Hback.
  - right. left. destruct (Hch1 f v Hv) as (su & Hsu & Hdom).
    { rewrite Hv1. intros [= <-]. by rewrite zero_is_zero in Hvz. }
    exists 0, p, su. split; [lia|]. split; [done|]. split; [left|]. done.
Qed.

Lemma sublist_lookup_order {A} (r order : list A) (i j : nat) (p q : A) :
  r `sublist_of` order → i < j → r !! i = Some p → r !! j = Some q →
  ∃ i' j', i' < j' ∧ order !! i' = Some p ∧ order !! j' = Some q.
Proof.
  intros Hsub. revert i j.
  induction Hsub as [|x r order Hsub IH|x r order Hsub IH]; intros i j Hij Hi Hj.
  - done.
  - destruct j as [|j]; [lia|]. simpl in Hj. destruct i as [|i]; simpl in Hi.
    + injection Hi as <-.
      assert (q ∈ order) as Hin.
      { eapply elem_of_submseteq; [by eapply list_elem_of_lookup_2|].
        by apply sublist_submseteq. }
      apply list_elem_of_lookup_1 in Hin as [k Hk].
      exists 0, (S k). split; [lia|]. by split.
    + destruct (IH i j) as (i' & j' & Hij' & Hi' & Hj'); [lia|done..|].
      exists (S i'), (S j'). split; [lia|]. by split.
  - destruct (IH i j Hij Hi Hj) as (i' & j' & Hij' & Hi' & Hj').
    exists (S i'), (S j'). split; [lia|]. by split.
Qed.

Lemma key_le_neg (a b : float) :
  np.key_le (Float.neg a) (Float.neg b) = true → (b >? a)%fl = false.
Proof.
  unfold np.key_le, Float.leb, Float.gtb. destruct a, b; simpl; try done.
  rewrite orb_true_iff, !bool_decide_eq_true. intros H.
  apply bool_decide_eq_false. lra.
Qed.

Section threshold_filter.

Variable argsort : list float → list nat.
Hypothesis argsort_is_perm : argsort_permutes argsort.

(** The outcome of [fcbs] on a matrix with labels of the length of its
    rows. *)
Lemma fcbs_run (n : nat) (rows : list (list Z)) (y : ndarray)
    (threshold : float) (s : t) :
  np.len y = length rows → (threshold <? Fin (1 / 10000))%fl = false →
  ∃ l l' r sc cache,
    fcbs argsort (Mat n rows) y threshold s =
      (Ok (), mk (Some r) sc (Some l') cache (Some (Mat n rows)) (Some y)) ∧
    length l = n ∧
    (∀ col v, l !! col = Some v →
       su_label_of (Mat n rows) y col = Ok v ∧ unit_or_nan v) ∧
    zeroed l l' ∧ cache_ok (Mat n rows) cache ∧
    r `sublist_of` argsort (Float.neg <$> l) ∧
    Forall2 (λ f v, l !! f = Some v ∧ (v =? Fin 0)%fl = false ∧
                    (v <? threshold)%fl = false) r sc ∧
    (∀ i j p q vq, i < j → r !! i = Some p → r !! j = Some q →
       l !! q = Some vq →
       ∃ su, su_features_of (Mat n rows) p q = Ok su ∧
             (su >=? vq)%fl = false) ∧
    (∀ j f v, argsort (Float.neg <$> l) !! j = Some f → f ∉ r →
       l !! f = Some v →
       left_out (Mat n rows) threshold l (argsort (Float.neg <$> l)) r j f v).
Proof.
  intros Hlen Ht. rewrite fcbs_unfold by done. rewrite bind_unfold.
  destruct (compute_su_labels_values n rows y (start (Mat n rows) y))
    as (l & -> & Hl & Hval); [done..|].
  rewrite bind_unfold. simpl.
  assert (Forall (λ q, q < n) (argsort (Float.neg <$> l))) as Hlt.
  { apply Forall_forall. intros q Hq. rewrite (argsort_is_perm _) in Hq.
    apply elem_of_seq in Hq. rewrite length_fmap in Hq. lia. }
  assert (NoDup (argsort (Float.neg <$> l))) as Hnd.
  { rewrite (argsort_is_perm _). apply NoDup_seq. }
  match goal with |- context [fcbs_loop _ _ _ ?st] => set (s1 := st) end.
  destruct (fcbs_loop_returns n threshold (argsort (Float.neg <$> l)) s1)
    as [s' Hrun]; [|done|].
  { split; [by exists rows|]. split; [by exists l|]. simpl. eauto. }
  rewrite Hrun.
  apply (fcbs_loop_post (Mat n rows) _ _ _ _ l []) in Hrun
    as (l' & r' & sc' & Hl' & Hz & Hc' & HX' & Hy' & Hr' & Hsc' & Hsub & Hf2
        & Hpairs & Hleft); [|done|apply cache_ok_empty|done..].
  simpl in *. exists l, l', r', sc', (_su_features s').
  split; [|done]. f_equal. destruct s'. simpl in *. congruence.
Qed.

(** X23.  On a matrix with labels of the length of its rows and for a
    valid threshold, [fcbs] returns.  The result lists distinct columns in
    the order in which [argsort] ranks them, the score trace has one entry
    for each, in the same order, and the entry is the symmetrical
    uncertainty of that feature with the labels as first computed, which
    is neither 0.0 nor below the threshold. *)
Theorem fcbs_result_scores (n : nat) (rows : list (list Z)) (y : ndarray)
    (threshold : float) (s : t) :
  np.len y = length rows → (threshold <? Fin (1 / 10000))%fl = false →
  ∃ s' l r,
    fcbs argsort (Mat n rows) y threshold s = (Ok (), s') ∧
    length l = n ∧
    (∀ col v, l !! col = Some v → su_label_of (Mat n rows) y col = Ok v) ∧
    get_results s' = Some r ∧ NoDup r ∧ (∀ f, f ∈ r → f < n) ∧
    r `sublist_of` argsort (Float.neg <$> l) ∧
    Forall2 (λ f v, su_label_of (Mat n rows) y f = Ok v ∧
                    (v =? Fin 0)%fl = false ∧ (v <? threshold)%fl = false)
      r (get_scores s').
Proof.
  intros Hlen Ht.
  destruct (fcbs_run n rows y threshold s Hlen Ht)
    as (l & l' & r & sc & cache & Hrun & Hl & Hval & Hz & Hc & Hsub & Hf2 & _).
  eexists; exists l, r. split; [exact Hrun|]. split; [done|].
  split; [intros col v Hv; by apply Hval|].
  unfold get_results, get_scores. simpl. split; [done|].
  assert (NoDup (argsort (Float.neg <$> l))) as Hnd.
  { rewrite (argsort_is_perm _). apply NoDup_seq. }
  split; [by eapply sublist_NoDup|]. split.
  - intros f Hf.
    assert (f ∈ argsort (Float.neg <$> l)) as Hin.
    { eapply elem_of_submseteq; [done|]. by apply sublist_submseteq. }
    rewrite (argsort_is_perm _) in Hin. apply elem_of_seq in Hin.
    rewrite length_fmap in Hin. lia.
  - split; [done|]. eapply Forall2_impl; [exact Hf2|].
    intros f v (Hv & Hvz & Hvt). split; [by apply Hval|done].
Qed.

(** X24.  In the result of [fcbs] on such a matrix no feature is
    dominated by one listed before it: for [p] before [q] in the result,
    the symmetrical uncertainty of the columns [p] and [q] is not greater
    than or equal to the symmetrical uncertainty of [q] with the labels. *)
Theorem fcbs_no_dominated_pair (n : nat) (rows : list (list Z)) (y : ndarray)
    (threshold : float) (s s' : t) (r : list nat) (i j p q : nat) :
  np.len y = length rows →
  fcbs argsort (Mat n rows) y threshold s = (Ok (), s') →
  get_results s' = Some r → i < j → r !! i = Some p → r !! j = Some q →
  ∃ su vq, su_features_of (Mat n rows) p q = Ok su ∧
           su_label_of (Mat n rows) y q = Ok vq ∧ (su >=? vq)%fl = false.
Proof.
  intros Hlen Hrun Hr Hij Hi Hj.
  assert ((threshold <? Fin (1 / 10000))%fl = false) as Ht.
  { by apply fcbs_inv in Hrun as [? _]. }
  destruct (fcbs_run n rows y threshold s Hlen Ht)
    as (l & l' & r' & sc & cache & Hrun' & Hl & Hval & Hz & Hc & Hsub & Hf2
        & Hpairs & _).
  rewrite Hrun in Hrun'. injection Hrun' as ->.
  unfold get_results in Hr. simpl in Hr. injection Hr as ->.
  destruct (Forall2_lookup_l _ _ _ _ _ Hf2 Hj) as (vq & _ & Hvq & _).
  destruct (Hpairs i j p q vq Hij Hi Hj Hvq) as (su & Hsu & Hdom).
  exists su, vq. split; [done|]. split; [by apply Hval|done].
Qed.

(** X27.  Every column that [fcbs] leaves out of its result on such a
    matrix is left out for one of three reasons: its symmetrical
    uncertainty with the labels is 0.0; or a feature of the result that
    [argsort] ranks before it has a symmetrical uncertainty with it that
    is greater than or equal to its own with the labels; or the loop had
    stopped at a feature ranked no later whose symmetrical uncertainty
    with the labels is below the threshold. *)
Theorem fcbs_left_out (n : nat) (rows : list (list Z)) (y : ndarray)
    (threshold : float) (s s' : t) (r : list nat) :
  np.len y = length rows →
  fcbs argsort (Mat n rows) y threshold s = (Ok (), s') →
  get_results s' = Some r →
  ∃ l, length l = n ∧
    (∀ col v, l !! col = Some v → su_label_of (Mat n rows) y col = Ok v) ∧
    (∀ f, f < n → ∃ j, argsort (Float.neg <$> l) !! j = Some f) ∧
    ∀ j f v, argsort (Float.neg <$> l) !! j = Some f → f ∉ r →
      l !! f = Some v →
      left_out (Mat n rows) threshold l (argsort (Float.neg <$> l)) r j f v.
Proof.
  intros Hlen Hrun Hr.
  assert ((threshold <? Fin (1 / 10000))%fl = false) as Ht.
  { by apply fcbs_inv in Hrun as [? _]. }
  destruct (fcbs_run n rows y threshold s Hlen Ht)
    as (l & l' & r' & sc & cache & Hrun' & Hl & Hval & Hz & Hc & Hsub & Hf2
        & _ & Hleft).
  rewrite Hrun in Hrun'. injection Hrun' as ->.
  unfold get_results in Hr. simpl in Hr. injection Hr as ->.
  exists l. split; [done|]. split; [intros col v Hv; by apply Hval|].
  split; [|done]. intros f Hf. apply list_elem_of_lookup_1.
  rewrite (argsort_is_perm _). apply elem_of_seq. rewrite length_fmap. lia.
Qed.

Hypothesis argsort_is_sorted : argsort_sorts argsort.

(** X28.  With an [argsort] that sorts, the score trace of [fcbs] on such
    a matrix never rises: no entry is greater than an earlier one. *)
Theorem fcbs_scores_sorted (n : nat) (rows : list (list Z)) (y : ndarray)
    (threshold : float) (s s' : t) (i j : nat) (vi vj : float) :
  np.len y = length rows →
  fcbs argsort (Mat n rows) y threshold s = (Ok (), s') →
  i < j → get_scores s' !! i = Some vi → get_scores s' !! j = Some vj →
  (vj >? vi)%fl = false.
Proof.
  intros Hlen Hrun Hij Hi Hj.
  assert ((threshold <? Fin (1 / 10000))%fl = false) as Ht.
  { by apply fcbs_inv in Hrun as [? _]. }
  destruct (fcbs_run n rows y threshold s Hlen Ht)
    as (l & l' & r & sc & cache & Hrun' & Hl & Hval & Hz & Hc & Hsub & Hf2 & _).
  rewrite Hrun in Hrun'. injection Hrun' as ->.
  unfold get_scores in Hi, Hj. simpl in Hi, Hj.
  destruct (Forall2_lookup_r _ _ _ _ _ Hf2 Hi) as (p & Hp & Hvp & _).
  destruct (Forall2_lookup_r _ _ _ _ _ Hf2 Hj) as (q & Hq & Hvq & _).
  destruct (sublist_lookup_order _ _ _ _ _ _ Hsub Hij Hp Hq)
    as (i' & j' & Hij' & Hp' & Hq').
  apply key_le_neg.
  apply (argsort_is_sorted (Float.neg <$> l) i' j' p q); [done..| |];
    by rewrite list_lookup_fmap, ?Hvp, ?Hvq.
Qed.

End threshold_filter.

Lemma fcbs_result_scores_witness :
  ∃ s' l r,
    fcbs np.argsort X_twins y_binary (Fin (1 / 2)) __init__ = (Ok (), s') ∧
    length l = 2 ∧
    (∀ col v, l !! col = Some v → su_label_of X_twins y_binary col = Ok v) ∧
    get_results s' = Some r ∧ NoDup r ∧ (∀ f, f ∈ r → f < 2) ∧
    r `sublist_of` np.argsort (Float.neg <$> l) ∧
    Forall2 (λ f v, su_label_of X_twins y_binary f = Ok v ∧
                    (v =? Fin 0)%fl = false ∧
                    (v <? Fin (1 / 2))%fl = false)
      r (get_scores s').
Proof.
  apply (fcbs_result_scores np.argsort argsort_perm 2 [[0; 0]; [1; 1]]%Z);
    [done|]. apply bool_decide_eq_false. lra.
Defined.


(** ** Two more data sets *)

#[local] Arguments _compute_su_features : simpl never.

Lemma ln_4 : ln 4 = (2 * ln 2)%R.
Proof.
  replace 4%R with (2 * 2)%R by lra. rewrite ln_mult by lra. lra.
Qed.

(** Four symbols, once each: two bits. *)
Lemma entropy_four_symbols (y : ndarray) :
  (np.unique y).2 = [1; 1; 1; 1] → np.len y = 4 →
  Metrics.entropy y 2 = Ok (Fin 2).
Proof.
  intros Hc Hn. rewrite entropy_value by lra. rewrite Hc, Hn.
  unfold entropy_sum. simpl. do 2 f_equal.
  replace (1 / (1 / (1 + 1 + 1 + 1)))%R with 4%R by lra.
  rewrite ln_4. pose proof ln_2_pos. field. lra.
Qed.

(** Two symbols, twice each: one bit. *)
Lemma entropy_two_pairs (y : ndarray) :
  (np.unique y).2 = [2; 2] → np.len y = 4 →
  Metrics.entropy y 2 = Ok (Fin 1).
Proof.
  intros Hc Hn. rewrite entropy_value by lra. rewrite Hc, Hn.
  unfold entropy_sum. simpl. do 2 f_equal.
  replace (1 / ((1 + 1) / (1 + 1 + 1 + 1)))%R with 2%R by lra.
  pose proof ln_2_pos. field. lra.
Qed.

Lemma su_pair_label (x : list Z) :
  x = [0; 0; 1; 1]%Z ∨ x = [0; 1; 0; 1]%Z →
  Metrics.symmetrical_uncertainty (Vec x) y_four = Ok (Fin (2 / 3)).
Proof.
  intros Hx.
  unfold Metrics.symmetrical_uncertainty, Metrics.information_gain,
    Metrics.conditional_entropy.
  rewrite (entropy_four_symbols y_four) by reflexivity.
  assert (np.len (Vec x) = np.len y_four) as Hlen by by destruct Hx as [-> | ->].
  destruct (c_rows (Vec x) y_four Hlen) as (xy & -> & Hrows).
  rewrite !result_bind_Ok.
  rewrite (entropy_four_symbols xy);
    [|unfold np.unique; rewrite Hrows; by destruct Hx as [-> | ->]
     |by rewrite <- len_as_rows, Hrows; destruct Hx as [-> | ->]].
  rewrite (entropy_two_pairs (Vec x)) by by destruct Hx as [-> | ->].
  rewrite !result_bind_Ok. simpl. rewrite decide_False by lra.
  do 2 f_equal. lra.
Qed.

Lemma su_pair_features :
  Metrics.symmetrical_uncertainty (Vec [0; 0; 1; 1]%Z) (Vec [0; 1; 0; 1]%Z) =
  Ok (Fin 0).
Proof.
  unfold Metrics.symmetrical_uncertainty, Metrics.information_gain,
    Metrics.conditional_entropy.
  rewrite (entropy_two_pairs (Vec [0; 1; 0; 1]%Z)) by reflexivity.
  change (np.c_ (Vec [0; 0; 1; 1]%Z) (Vec [0; 1; 0; 1]%Z))
    with (Ok (Mat 2 [[0; 0]; [0; 1]; [1; 0]; [1; 1]]%Z)).
  rewrite !result_bind_Ok.
  rewrite (entropy_four_symbols (Mat 2 _)) by reflexivity.
  rewrite (entropy_two_pairs (Vec [0; 0; 1; 1]%Z)) by reflexivity.
  rewrite !result_bind_Ok. simpl. rewrite decide_False by lra.
  do 2 f_equal. lra.
Qed.

Lemma su_label_pair (col : nat) (v : float) :
  [Fin (2 / 3); Fin (2 / 3)] !! col = Some v →
  su_label_of X_pair y_four col = Ok v.
Proof.
  destruct col as [|[|col]]; intros [= <-]; unfold su_label_of.
  - change (np.column X_pair 0) with (Ok (Vec [0; 0; 1; 1]%Z)).
    rewrite result_bind_Ok. apply su_pair_label. by left.
  - change (np.column X_pair 1) with (Ok (Vec [0; 1; 0; 1]%Z)).
    rewrite result_bind_Ok. apply su_pair_label. by right.
Qed.

Lemma su_features_pair : su_features_of X_pair 0 1 = Ok (Fin 0).
Proof.
  unfold su_features_of.
  change (np.column X_pair 0) with (Ok (Vec [0; 0; 1; 1]%Z)).
  change (np.column X_pair 1) with (Ok (Vec [0; 1; 0; 1]%Z)).
  rewrite !result_bind_Ok. apply su_pair_features.
Qed.

Lemma argsort_pair :
  np.argsort (Float.neg <$> [Fin (2 / 3); Fin (2 / 3)]) = [0; 1].
Proof.
  unfold np.argsort. simpl. unfold np.key_le, Float.leb. simpl.
  rewrite (bool_decide_true (_ = _)) by done. by rewrite orb_true_r.
Qed.

(** On the independent pair [fcbs] keeps both features. *)
Lemma fcbs_pair_run :
  fcbs np.argsort X_pair y_four (Fin (1 / 2)) __init__ =
  (Ok (), mk (Some [0; 1]) [Fin (2 / 3); Fin (2 / 3)]
             (Some [Fin (2 / 3); Fin (2 / 3)])
             (<[(0, 1) := Fin 0]> ∅) (Some X_pair) (Some y_four)).
Proof.
  rewrite fcbs_unfold by (apply bool_decide_eq_false; lra).
  rewrite bind_unfold.
  rewrite (compute_su_labels_exact 2 [[0; 0]; [0; 1]; [1; 0]; [1; 1]]%Z y_four
             [Fin (2 / 3); Fin (2 / 3)]);
    [|done|done|done|done|apply su_label_pair].
  rewrite argsort_pair. run.
  rewrite (compute_su_features_miss X_pair 0 1 (Fin 0));
    [|done|apply lookup_empty|apply su_features_pair].
  run. reflexivity.
Qed.

Lemma fcbs_left_out_witness :
  ∃ l, length l = 2 ∧
    (∀ col v, l !! col = Some v → su_label_of X_twins y_binary col = Ok v) ∧
    (∀ f, f < 2 → ∃ j, np.argsort (Float.neg <$> l) !! j = Some f) ∧
    ∀ j f v, np.argsort (Float.neg <$> l) !! j = Some f → f ∉ [0] →
      l !! f = Some v →
      left_out X_twins (Fin (1 / 2)) l (np.argsort (Float.neg <$> l)) [0]
        j f v.
Proof.
  apply (fcbs_left_out np.argsort argsort_perm 2 [[0; 0]; [1; 1]]%Z y_binary
           (Fin (1 / 2)) __init__
           (fcbs np.argsort X_twins y_binary (Fin (1 / 2)) __init__).2 [0]).
  - done.
  - rewrite fcbs_twins_run. exact fcbs_twins_run.
  - by rewrite fcbs_twins_run.
Defined.

Lemma fcbs_scores_sorted_witness :
  (Fin (2 / 3) >? Fin (2 / 3))%fl = false.
Proof.
  apply (fcbs_scores_sorted np.argsort argsort_perm argsort_sorted 2
           [[0; 0]; [0; 1]; [1; 0]; [1; 1]]%Z y_four (Fin (1 / 2)) __init__
           (fcbs np.argsort X_pair y_four (Fin (1 / 2)) __init__).2 0 1).
  - done.
  - rewrite fcbs_pair_run. exact fcbs_pair_run.
  - lia.
  - by rewrite fcbs_pair_run.
  - by rewrite fcbs_pair_run.
Defined.

Lemma fcbs_no_dominated_pair_witness :
  ∃ su vq, su_features_of X_pair 0 1 = Ok su ∧
           su_label_of X_pair y_four 1 = Ok vq ∧ (su >=? vq)%fl = false.
Proof.
  apply (fcbs_no_dominated_pair np.argsort argsort_perm 2
           [[0; 0]; [0; 1]; [1; 0]; [1; 1]]%Z y_four (Fin (1 / 2)) __init__
           (fcbs np.argsort X_pair y_four (Fin (1 / 2)) __init__).2
           [0; 1] 0 1 0 1).
  - done.
  - rewrite fcbs_pair_run. exact fcbs_pair_run.
  - by rewrite fcbs_pair_run.
  - lia.
  - done.
  - done.
Defined.

(** ** Features that tell nothing about the labels *)

Lemma sum_zeros (sel : list float) :
  Forall (λ v, v = Fin 0) sel → np.sum sel = Fin 0.
Proof.
  unfold np.sum. induction 1 as [|v sel -> _ IH]; [done|].
  simpl. replace (0 + 0)%R with 0%R by lra. exact IH.
Qed.

Lemma zero_div_not_above (d : float) :
  (d = NaN ∨ d = PInf ∨ ∃ q, d = Fin q ∧ (0 <= q)%R) →
  (Fin 0 / d >? float_info.min)%fl = false.
Proof.
  pose proof FloatFacts.min_pos as Hmin.
  unfold Float.gtb, float_info.min.
  intros [->|[->|(q & -> & Hq)]]; simpl.
  - done.
  - apply bool_decide_eq_false. lra.
  - case_decide.
    + unfold Float.inf_of_sign. rewrite !decide_False by lra. done.
    + simpl. apply bool_decide_eq_false. unfold Rdiv. rewrite Rmult_0_l. lra.
Qed.

(** With a label-correlation vector of zeros no merit is above
    [float_info.min]. *)
Lemma merit_value_zero (X : ndarray) (l : list float) (features : list nat)
    (m : float) :
  Forall (λ v, v = Fin 0) l → merit_value X l features = Ok m →
  (m >? float_info.min)%fl = false.
Proof.
  intros Hl. unfold merit_value.
  destruct (mapM (getitem l) features) as [sel|] eqn:Hsel; [|done].
  rewrite result_bind_Ok.
  destruct (mapM _ (combinations2 features)) as [vals|]; [|done].
  rewrite result_bind_Ok. cbv zeta.
  destruct (math.sqrt _) as [d|] eqn:Hd; [|done].
  rewrite result_bind_Ok. intros [= <-].
  rewrite sum_zeros.
  - apply zero_div_not_above. by eapply FloatFacts.sqrt_range.
  - apply mapM_getitem_inv in Hsel. rewrite Forall_forall in Hl.
    apply Forall_forall. intros v Hv.
    apply list_elem_of_lookup_1 in Hv as [k Hk].
    destruct (Forall2_lookup_r _ _ _ _ _ Hsel Hk) as (f & _ & Hf).
    apply Hl. by eapply list_elem_of_lookup_2.
Qed.

(** A constant feature against binary labels: nothing gained. *)
Lemma su_flat_binary :
  Metrics.symmetrical_uncertainty (Vec [0; 0]%Z) y_binary = Ok (Fin 0).
Proof.
  unfold Metrics.symmetrical_uncertainty, Metrics.information_gain,
    Metrics.conditional_entropy.
  rewrite (entropy_two_symbols y_binary) by reflexivity.
  change (np.c_ (Vec [0; 0]%Z) y_binary) with (Ok (Mat 2 [[0; 0]; [0; 1]]%Z)).
  rewrite !result_bind_Ok.
  rewrite (entropy_two_symbols (Mat 2 _)) by reflexivity.
  rewrite (entropy_one_symbol (Vec [0; 0]%Z)) by reflexivity.
  rewrite !result_bind_Ok. simpl. rewrite decide_False by lra.
  do 2 f_equal. lra.
Qed.

Section uninformative.

Variable argsort : list float → list nat.
Hypothesis argsort_is_perm : argsort_permutes argsort.

(** X26.  On a matrix with at least one column, none of which has a
    symmetrical uncertainty with the labels other than 0.0, [cfs] raises
    TypeError: every merit is 0.0 or NaN, none is above [float_info.min],
    and nothing is selected in the first pass of the loop. *)
Theorem cfs_uninformative_raises (n : nat) (rows : list (list Z))
    (y : ndarray) (s : t) :
  0 < n → np.len y = length rows →
  (∀ col v, su_label_of (Mat n rows) y col = Ok v → v = Fin 0) →
  ∃ s', cfs argsort (Mat n rows) y s = (Raise none_index_error, s').
Proof.
  intros Hn Hlen Hzero.
  destruct (cfs_run argsort argsort_is_perm n rows y s Hn Hlen)
    as [?|(l & first & picked & s0 & ms & s' & Hrun & Hl & Hval & _ & _ & _ &
           Hne & _ & _ & _ & Htr & Hms)]; [done|exfalso].
  destruct picked as [|f picked]; [done|].
  destruct ms as [|m ms]; [done|].
  cbn [merit_trace] in Htr. rewrite fmap_cons in Htr. injection Htr as Hm _.
  apply Forall_cons in Hms as [Hgt _].
  rewrite (merit_value_zero (Mat n rows) l ([first] ++ [f]) m) in Hgt;
    [done| |done].
  apply Forall_forall. intros v Hv.
  apply list_elem_of_lookup_1 in Hv as [col Hcol].
  apply (Hzero col). by apply Hval.
Qed.

End uninformative.

Lemma cfs_uninformative_raises_witness :
  ∃ s', cfs np.argsort X_flat y_binary __init__ =
          (Raise none_index_error, s').
Proof.
  apply (cfs_uninformative_raises np.argsort argsort_perm 2
           [[0; 0]; [0; 0]]%Z); [lia|done|].
  intros col v. unfold su_label_of.
  destruct (decide (col < 2)) as [Hcol|Hcol].
  - rewrite column_ok by done. rewrite result_bind_Ok.
    assert ((λ r : list Z, nth col r 0%Z) <$> [[0; 0]; [0; 0]]%Z = [0; 0]%Z)
      as -> by (destruct col as [|[|col]]; [done|done|lia]).
    rewrite su_flat_binary. by intros [= <-].
  - unfold np.column. by rewrite decide_False.
Defined.


(** ** Two thresholds *)

(** The loop of [fcbs] only appends to the result and to the score
    trace. *)
Lemma fcbs_loop_grows (threshold : float) (fo : list nat) (s s' : t)
    (r : list nat) :
  _result s = Some r → fcbs_loop threshold fo fo s = (Ok (), s') →
  ∃ r', _result s' = Some r' ∧ r `prefix_of` r' ∧
        _scores s `prefix_of` _scores s'.
Proof.
  revert s r. induction fo as [|p fo IH]; intros s r Hr.
  { simpl. intros [= <-]. by exists r. }
  cbn [fcbs_loop]. intros H.
  apply bind_ok_inv in H as (sp & s0 & Hsp & H).
  apply su_labels_getitem_inv in Hsp as (-> & l & Hl & Hv).
  destruct (sp =? Fin 0)%fl; [exact (IH s r Hr H)|].
  apply bind_ok_inv in H as (sp' & s0 & Hsp' & H).
  apply su_labels_getitem_inv in Hsp' as (-> & l' & Hl' & Hv').
  destruct (sp' <? threshold)%fl.
  { injection H as <-. by exists r. }
  apply bind_ok_inv in H as ([] & sa & Ha & H).
  apply (fcbs_dominance_inv l _ _ _ _ l) in Ha as ((Hra & Hsa & _) & la & Hla & _);
    [|done|apply zeroed_refl].
  apply bind_ok_inv in H as ([] & sb & Hb & H).
  apply result_append_inv in Hb as (rb & Hrb & ->).
  assert (rb = r) as -> by congruence.
  apply bind_ok_inv in H as (sq & sc & Hc & H).
  apply su_labels_getitem_inv in Hc as (-> & lc & Hlc & Hvc).
  apply bind_ok_inv in H as ([] & sd & Hd & H).
  unfold scores_append in Hd. rewrite bind_unfold in Hd. simpl in Hd.
  unfold set_scores in Hd. rewrite bind_unfold in Hd. simpl in Hd.
  injection Hd as <-.
  apply (IH _ (r ++ [p])) in H as (r' & Hr' & Hp & Hs); [|done].
  simpl in Hs. exists r'. split; [done|]. split.
  - etrans; [|exact Hp]. by apply prefix_app_r.
  - etrans; [|exact Hs]. rewrite Hsa. by apply prefix_app_r.
Qed.

(** Two runs of the loop of [fcbs] from the same attributes, the second
    with a threshold that rejects whatever the first rejects: the second
    stops no later, and has done the same until then. *)
Lemma fcbs_loop_thresholds (t1 t2 : float) (fo : list nat) (s s1 s2 : t)
    (r : list nat) :
  (∀ v, (v <? t1)%fl = true → (v <? t2)%fl = true) →
  _result s = Some r →
  fcbs_loop t1 fo fo s = (Ok (), s1) → fcbs_loop t2 fo fo s = (Ok (), s2) →
  ∃ r1 r2, _result s1 = Some r1 ∧ _result s2 = Some r2 ∧
    r2 `prefix_of` r1 ∧ _scores s2 `prefix_of` _scores s1.
Proof.
  intros Ht. revert s r. induction fo as [|p fo IH]; intros s r Hr H1 H2.
  { simpl in H1, H2. injection H1 as <-. injection H2 as <-. by exists r, r. }
  pose proof (fcbs_loop_grows _ _ _ _ _ Hr H1) as (r1 & Hr1 & Hp1 & Hs1).
  cbn [fcbs_loop] in H1, H2.
  apply bind_ok_inv in H1 as (sp & s0 & Hsp & H1).
  rewrite bind_unfold, Hsp in H2.
  apply su_labels_getitem_inv in Hsp as (-> & l & Hl & Hv).
  destruct (sp =? Fin 0)%fl; [exact (IH s r Hr H1 H2)|].
  apply bind_ok_inv in H1 as (sp' & s0 & Hsp' & H1).
  rewrite bind_unfold, Hsp' in H2.
  apply su_labels_getitem_inv in Hsp' as (-> & l' & Hl' & Hv').
  destruct (sp' <? t2)%fl eqn:Hlt2.
  { injection H2 as <-. by exists r1, r. }
  destruct (sp' <? t1)%fl eqn:Hlt1.
  { by rewrite (Ht _ Hlt1) in Hlt2. }
  apply bind_ok_inv in H1 as ([] & sa & Ha & H1).
  rewrite bind_unfold, Ha in H2.
  apply bind_ok_inv in H1 as ([] & sb & Hb & H1).
  rewrite bind_unfold, Hb in H2.
  apply bind_ok_inv in H1 as (sq & sc & Hc & H1).
  rewrite bind_unfold, Hc in H2.
  apply bind_ok_inv in H1 as ([] & sd & Hd & H1).
  rewrite bind_unfold, Hd in H2.
  apply result_append_inv in Hb as (rb & Hrb & ->).
  apply su_labels_getitem_inv in Hc as (-> & lc & Hlc & Hvc).
  unfold scores_append in Hd. rewrite bind_unfold in Hd. simpl in Hd.
  unfold set_scores in Hd. rewrite bind_unfold in Hd. simpl in Hd.
  injection Hd as <-.
  refine (IH _ (rb ++ [p]) _ H1 H2). reflexivity.
Qed.

Section two_thresholds.

Variable argsort : list float → list nat.

(** X29.  Raising the threshold only truncates what [fcbs] returns: of
    two returning calls on the same data, the second with a threshold that
    rejects every score the first threshold rejects, the second result is
    a prefix of the first, and so is its score trace. *)
Theorem fcbs_thresholds (X y : ndarray) (t1 t2 : float) (s s1 s2 : t) :
  (∀ v, (v <? t1)%fl = true → (v <? t2)%fl = true) →
  fcbs argsort X y t1 s = (Ok (), s1) →
  fcbs argsort X y t2 s = (Ok (), s2) →
  ∃ r1 r2, get_results s1 = Some r1 ∧ get_results s2 = Some r2 ∧
    r2 `prefix_of` r1 ∧ get_scores s2 `prefix_of` get_scores s1.
Proof.
  intros Ht H1 H2.
  assert ((t1 <? Fin (1 / 10000))%fl = false) as Ht1.
  { by apply fcbs_inv in H1 as [? _]. }
  assert ((t2 <? Fin (1 / 10000))%fl = false) as Ht2.
  { by apply fcbs_inv in H2 as [? _]. }
  rewrite fcbs_unfold in H1, H2 by done.
  apply bind_ok_inv in H1 as (l & sa & Ha & H1).
  rewrite bind_unfold, Ha in H2.
  apply bind_ok_inv in H1 as ([] & sb & Hb & H1).
  rewrite bind_unfold, Hb in H2.
  unfold set_result in Hb. rewrite bind_unfold in Hb. simpl in Hb.
  injection Hb as <-.
  refine (fcbs_loop_thresholds t1 t2 _ _ _ _ [] Ht _ H1 H2). reflexivity.
Qed.

End two_thresholds.

(** With the threshold 0.75 [fcbs] stops at the first feature of the
    independent pair. *)
Lemma fcbs_pair_run_high :
  fcbs np.argsort X_pair y_four (Fin (3 / 4)) __init__ =
  (Ok (), mk (Some []) [] (Some [Fin (2 / 3); Fin (2 / 3)]) ∅
             (Some X_pair) (Some y_four)).
Proof.
  rewrite fcbs_unfold by (apply bool_decide_eq_false; lra).
  rewrite bind_unfold.
  rewrite (compute_su_labels_exact 2 [[0; 0]; [0; 1]; [1; 0]; [1; 1]]%Z y_four
             [Fin (2 / 3); Fin (2 / 3)]);
    [|done|done|done|done|apply su_label_pair].
  rewrite argsort_pair. run. reflexivity.
Qed.

Lemma fcbs_thresholds_witness :
  ∃ r1 r2,
    get_results (fcbs np.argsort X_pair y_four (Fin (1 / 2)) __init__).2 =
      Some r1 ∧
    get_results (fcbs np.argsort X_pair y_four (Fin (3 / 4)) __init__).2 =
      Some r2 ∧
    r2 `prefix_of` r1 ∧
    get_scores (fcbs np.argsort X_pair y_four (Fin (3 / 4)) __init__).2
      `prefix_of`
    get_scores (fcbs np.argsort X_pair y_four (Fin (1 / 2)) __init__).2.
Proof.
  apply (fcbs_thresholds np.argsort X_pair y_four (Fin (1 / 2)) (Fin (3 / 4))
           __init__).
  - intros [| | |v]; simpl; try done.
    rewrite !bool_decide_eq_true. lra.
  - by rewrite fcbs_pair_run.
  - by rewrite fcbs_pair_run_high.
Defined.


(** ** Runs of the forward search on three data sets *)

(** A pass of the loop of [cfs] in which the scan of the merits selects
    the feature at index [i] of the pool. *)
Lemma cfs_while_selects (n : nat) (rows : list (list Z)) (l : list float)
    (fuel : nat) (c fo : list nat) (ms : list float) (m : float) (i f : nat)
    (s : t) :
  cfs_ready n rows l s →
  Forall2 (λ f m, merit_value (Mat n rows) l (c ++ [f]) = Ok m) fo ms →
  best 0 float_info.min None ms = (m, Some i) → fo !! i = Some f →
  ∃ s1, cfs_ready n rows l s1 ∧ _scores s1 = _scores s ++ [m] ∧
        _result s1 = _result s ∧ y_ s1 = y_ s ∧
        cfs_while fuel c fo s =
          if continue_after (delete i fo) (_scores s ++ [m]) then
            match fuel with
            | 0 => (Raise OutOfFuel, s1)
            | S fuel' => cfs_while fuel' (c ++ [f]) (delete i fo) s1
            end
          else (Ok (c ++ [f]), s1).
Proof.
  intros Hs Hms Hb Hf.
  destruct (cfs_expand_spec n rows l c fo ms 0 float_info.min None s Hs Hms)
    as (se & Hrun & Hfr & Hse).
  rewrite Hb in Hrun. destruct Hfr as (Hr & Hsc & Hl1 & HX1 & Hy1).
  destruct Hse as (HX & Hl & Hlen & Hc1).
  exists (mk (_result se) (_scores se ++ [m]) (_su_labels se)
             (_su_features se) (X_ se) (y_ se)).
  split; [by repeat split|]. simpl.
  split; [by rewrite Hsc|]. split; [by rewrite Hr|]. split; [by rewrite Hy1|].
  rewrite cfs_while_unfold, bind_unfold. unfold cfs_iteration.
  rewrite bind_unfold, Hrun. rewrite bind_unfold. unfold lift at 1, getitem.
  rewrite Hf. rewrite bind_unfold. unfold scores_append.
  rewrite !bind_unfold. simpl. rewrite <- Hsc.
  fold (continue_after (delete i fo) (_scores se ++ [m])).
  destruct (continue_after _ _); [destruct fuel|]; reflexivity.
Qed.

(** A pass in which no merit is above [float_info.min]. *)
Lemma cfs_while_selects_nothing (n : nat) (rows : list (list Z))
    (l : list float) (fuel : nat) (c fo : list nat) (ms : list float)
    (m : float) (s : t) :
  cfs_ready n rows l s →
  Forall2 (λ f m, merit_value (Mat n rows) l (c ++ [f]) = Ok m) fo ms →
  best 0 float_info.min None ms = (m, None) →
  ∃ s1, cfs_while fuel c fo s = (Raise none_index_error, s1) ∧
        _scores s1 = _scores s ∧ _result s1 = _result s.
Proof.
  intros Hs Hms Hb.
  destruct (cfs_expand_spec n rows l c fo ms 0 float_info.min None s Hs Hms)
    as (s1 & Hrun & Hfr & Hs1).
  rewrite Hb in Hrun. destruct Hfr as (Hr & Hsc & _).
  exists s1. split; [|by split].
  rewrite cfs_while_unfold, bind_unfold. unfold cfs_iteration.
  by rewrite bind_unfold, Hrun.
Qed.

(** [cfs] up to its loop, from the label correlations and the order of
    the features. *)
Lemma cfs_to_loop (n : nat) (rows : list (list Z)) (y : ndarray)
    (l : list float) (first : nat) (fo : list nat) (s0 : float) (s : t) :
  length l = n →
  (∀ col v, l !! col = Some v → su_label_of (Mat n rows) y col = Ok v) →
  np.argsort (Float.neg <$> l) = first :: fo → l !! first = Some s0 →
  cfs np.argsort (Mat n rows) y s =
  (candidates ← cfs_while (length fo) [first] fo;
   set_result (Some candidates))
    (mk None [s0] (Some l) ∅ (Some (Mat n rows)) (Some y)) ∧
  cfs_ready n rows l (mk None [s0] (Some l) ∅ (Some (Mat n rows)) (Some y)).
Proof.
  intros Hlen Hval Hord Hs0. split.
  - rewrite cfs_unfold, bind_unfold.
    rewrite (compute_su_labels_exact n rows y l); [|done..].
    rewrite Hord. rewrite bind_unfold. unfold su_labels_getitem, su_labels_array.
    rewrite !bind_unfold. simpl. unfold getitem. rewrite Hs0.
    rewrite bind_unfold. unfold scores_append. rewrite !bind_unfold. simpl.
    reflexivity.
  - split; [done|]. split; [done|]. split; [done|]. apply cache_ok_empty.
Qed.

(** The merit from the values it is made of. *)
Lemma merit_value_from (X : ndarray) (l : list float) (features : list nat)
    (sel vals : list float) :
  Forall2 (λ f v, getitem l f = Ok v) features sel →
  Forall2 (λ p v, su_features_of X p.1 p.2 = Ok v)
    (combinations2 features) vals →
  merit_value X l features =
  (d ← math.sqrt (Float.of_nat (length features) +
                  Float.of_nat (length features ^ 2 - length features) *
                  np.sum vals)%fl;
   Ok (np.sum sel / d)%fl).
Proof.
  intros Hsel Hvals. unfold merit_value.
  rewrite (mapM_result_spec _ _ _ Hsel), result_bind_Ok.
  by rewrite (mapM_result_spec _ _ _ Hvals), result_bind_Ok.
Qed.

(** *** One feature, and one feature with two constant ones *)

(** A binary feature against a constant one: nothing gained. *)
Lemma su_binary_flat :
  Metrics.symmetrical_uncertainty y_binary (Vec [0; 0]%Z) = Ok (Fin 0).
Proof.
  unfold Metrics.symmetrical_uncertainty, Metrics.information_gain,
    Metrics.conditional_entropy.
  rewrite (entropy_one_symbol (Vec [0; 0]%Z)) by reflexivity.
  change (np.c_ y_binary (Vec [0; 0]%Z)) with (Ok (Mat 2 [[0; 0]; [1; 0]]%Z)).
  rewrite !result_bind_Ok.
  rewrite (entropy_two_symbols (Mat 2 _)) by reflexivity.
  rewrite (entropy_two_symbols y_binary) by reflexivity.
  rewrite !result_bind_Ok. simpl. rewrite decide_False by lra.
  do 2 f_equal. lra.
Qed.

Lemma su_label_single (col : nat) (v : float) :
  [Fin 1] !! col = Some v → su_label_of X_single y_binary col = Ok v.
Proof.
  destruct col as [|col]; intros [= <-]; unfold su_label_of.
  change (np.column X_single 0) with (Ok (Vec [0; 1]%Z)).
  rewrite result_bind_Ok. apply su_binary_same.
Qed.

Lemma su_label_three (col : nat) (v : float) :
  [Fin 1; Fin 0; Fin 0] !! col = Some v →
  su_label_of X_three y_binary col = Ok v.
Proof.
  destruct col as [|[|[|col]]]; intros [= <-]; unfold su_label_of.
  - change (np.column X_three 0) with (Ok (Vec [0; 1]%Z)).
    rewrite result_bind_Ok. apply su_binary_same.
  - change (np.column X_three 1) with (Ok (Vec [0; 0]%Z)).
    rewrite result_bind_Ok. apply su_flat_binary.
  - change (np.column X_three 2) with (Ok (Vec [0; 0]%Z)).
    rewrite result_bind_Ok. apply su_flat_binary.
Qed.

Lemma su_features_three :
  su_features_of X_three 0 1 = Ok (Fin 0) ∧
  su_features_of X_three 0 2 = Ok (Fin 0) ∧
  su_features_of X_three 1 2 = Ok NaN.
Proof.
  unfold su_features_of.
  change (np.column X_three 0) with (Ok (Vec [0; 1]%Z)).
  change (np.column X_three 1) with (Ok (Vec [0; 0]%Z)).
  change (np.column X_three 2) with (Ok (Vec [0; 0]%Z)).
  rewrite !result_bind_Ok.
  split; [apply su_binary_flat|]. split; [apply su_binary_flat|].
  apply su_constant_constant.
Qed.

Lemma key_le_Fin (a b : R) : (a <= b)%R → np.key_le (Fin a) (Fin b) = true.
Proof.
  intros [Hab| ->]; unfold np.key_le, Float.leb; simpl.
  - by rewrite bool_decide_true.
  - rewrite (bool_decide_true (_ = _)) by done. by rewrite orb_true_r.
Qed.

Ltac argsort_eval :=
  unfold np.argsort; repeat (progress (simpl; rewrite ?key_le_Fin by lra)).

Lemma argsort_three :
  np.argsort (Float.neg <$> [Fin 1; Fin 0; Fin 0]) = [0; 1; 2].
Proof. by argsort_eval. Qed.

(** Evaluation of a merit whose radicand is the number [r]. *)
Ltac merit_eval r :=
  simpl;
  match goal with
  | |- context [decide (?x < 0)%R] => replace x with r by lra
  end;
  rewrite decide_False by lra; rewrite result_bind_Ok;
  rewrite decide_False by (apply Rgt_not_eq, sqrt_lt_R0; lra);
  do 2 f_equal; f_equal; lra.

Lemma merit_three_pair (f : nat) :
  f = 1 ∨ f = 2 →
  merit_value X_three [Fin 1; Fin 0; Fin 0] [0; f] = Ok (Fin (1 / sqrt 2)).
Proof.
  destruct su_features_three as (H01 & H02 & _).
  intros [-> | ->];
    (rewrite (merit_value_from _ _ _ [Fin 1; Fin 0] [Fin 0]);
      [|by repeat constructor..]); merit_eval 2%R.
Qed.

Lemma merit_three_all :
  merit_value X_three [Fin 1; Fin 0; Fin 0] [0; 1; 2] = Ok NaN.
Proof.
  destruct su_features_three as (H01 & H02 & H12).
  rewrite (merit_value_from _ _ _ [Fin 1; Fin 0; Fin 0] [Fin 0; Fin 0; NaN]);
    [|by repeat constructor..].
  reflexivity.
Qed.

Lemma inv_sqrt_2_min : (Fin (1 / sqrt 2) >? float_info.min)%fl = true.
Proof.
  apply FloatFacts.gtb_min_Fin.
  assert (sqrt 2 <= 2)%R as H.
  { rewrite <- (sqrt_square 2) at 2 by lra. apply sqrt_le_1_alt. lra. }
  assert (0 < sqrt 2)%R as Hpos by (apply sqrt_lt_R0; lra).
  apply (Rmult_le_reg_r (sqrt 2)); [done|]. field_simplify; lra.
Qed.

Lemma gtb_irrefl (r : R) : (Fin r >? Fin r)%fl = false.
Proof. unfold Float.gtb. simpl. apply bool_decide_eq_false. lra. Qed.

#[local] Arguments cfs_while : simpl never.

(** On one column the pool is empty after the first feature; the body of
    the loop runs all the same and raises. *)
Lemma cfs_single_run :
  ∃ s', cfs np.argsort X_single y_binary __init__ =
          (Raise none_index_error, s') ∧
        get_scores s' = [Fin 1] ∧ get_results s' = None.
Proof.
  destruct (cfs_to_loop 1 [[0]; [1]]%Z y_binary [Fin 1] 0 [] (Fin 1) __init__)
    as [Hrun Hready]; [done|apply su_label_single|by argsort_eval|done|].
  destruct (cfs_while_selects_nothing 1 _ _ 0 [0] [] [] float_info.min _ Hready)
    as (s1 & Hloop & Hsc & Hr); [constructor|reflexivity|].
  exists s1. unfold X_single. rewrite Hrun, bind_unfold. simpl length.
  rewrite Hloop. done.
Qed.

(** On the three columns the search takes feature 0, then feature 1, and
    raises in its third pass, feature 2 still in the pool. *)
Lemma cfs_three_run :
  ∃ s', cfs np.argsort X_three y_binary __init__ =
          (Raise none_index_error, s') ∧
        get_scores s' = [Fin 1; Fin (1 / sqrt 2)] ∧ get_results s' = None.
Proof.
  destruct (cfs_to_loop 3 [[0; 0; 0]; [1; 0; 0]]%Z y_binary
              [Fin 1; Fin 0; Fin 0] 0 [1; 2] (Fin 1) __init__)
    as [Hrun Hready]; [done|apply su_label_three|apply argsort_three|done|].
  destruct (cfs_while_selects 3 _ _ 2 [0] [1; 2]
              [Fin (1 / sqrt 2); Fin (1 / sqrt 2)] (Fin (1 / sqrt 2)) 0 1
              _ Hready)
    as (s1 & Hready1 & Hsc1 & Hr1 & _ & Hloop1).
  { repeat constructor; apply merit_three_pair; auto. }
  { cbn [best]. by rewrite inv_sqrt_2_min, gtb_irrefl. }
  { done. }
  destruct (cfs_while_selects_nothing 3 _ _ 1 [0; 1] [2] [NaN]
              float_info.min _ Hready1)
    as (s2 & Hloop2 & Hsc2 & Hr2).
  { repeat constructor. apply merit_three_all. }
  { reflexivity. }
  exists s2. unfold X_three. rewrite Hrun, bind_unfold. simpl length.
  rewrite Hloop1. simpl. rewrite Hloop2.
  unfold get_scores, get_results. by rewrite Hsc2, Hsc1, Hr2, Hr1.
Qed.

(** *** Six copies of one feature *)

Lemma column_six (col : nat) :
  col < 6 → np.column X_six col = Ok (Vec [0; 1]%Z).
Proof.
  intros Hcol. unfold X_six. rewrite column_ok by done.
  by destruct col as [|[|[|[|[|[|col]]]]]]; [..|lia].
Qed.

Lemma getitem_six (f : nat) :
  f < 6 → getitem (replicate 6 (Fin 1)) f = Ok (Fin 1).
Proof.
  intros Hf. unfold getitem. by rewrite lookup_replicate_2.
Qed.

Lemma su_label_six (col : nat) (v : float) :
  replicate 6 (Fin 1) !! col = Some v → su_label_of X_six y_binary col = Ok v.
Proof.
  intros [-> Hcol]%lookup_replicate. unfold su_label_of.
  rewrite column_six by done. rewrite result_bind_Ok. apply su_binary_same.
Qed.

Lemma su_features_six (a b : nat) :
  a < 6 → b < 6 → su_features_of X_six a b = Ok (Fin 1).
Proof.
  intros Ha Hb. unfold su_features_of. rewrite !column_six by done.
  rewrite !result_bind_Ok. apply su_binary_same.
Qed.

Lemma argsort_six :
  np.argsort (Float.neg <$> replicate 6 (Fin 1)) = [0; 1; 2; 3; 4; 5].
Proof. by argsort_eval. Qed.

Ltac six_values :=
  repeat constructor; simpl;
  first [apply getitem_six | apply su_features_six]; lia.

Lemma merit_six_2 (f : nat) :
  f < 6 →
  merit_value X_six (replicate 6 (Fin 1)) [0; f] = Ok (Fin (2 / sqrt 4)).
Proof.
  intros Hf.
  rewrite (merit_value_from _ _ _ (replicate 2 (Fin 1)) (replicate 1 (Fin 1)));
    [|six_values..].
  merit_eval 4%R.
Qed.

Lemma merit_six_3 (f : nat) :
  f < 6 →
  merit_value X_six (replicate 6 (Fin 1)) [0; 1; f] = Ok (Fin (3 / sqrt 21)).
Proof.
  intros Hf.
  rewrite (merit_value_from _ _ _ (replicate 3 (Fin 1)) (replicate 3 (Fin 1)));
    [|six_values..].
  merit_eval 21%R.
Qed.

Lemma merit_six_4 (f : nat) :
  f < 6 →
  merit_value X_six (replicate 6 (Fin 1)) [0; 1; 2; f] =
  Ok (Fin (4 / sqrt 76)).
Proof.
  intros Hf.
  rewrite (merit_value_from _ _ _ (replicate 4 (Fin 1)) (replicate 6 (Fin 1)));
    [|six_values..].
  merit_eval 76%R.
Qed.

Lemma merit_six_5 (f : nat) :
  f < 6 →
  merit_value X_six (replicate 6 (Fin 1)) [0; 1; 2; 3; f] =
  Ok (Fin (5 / sqrt 205)).
Proof.
  intros Hf.
  rewrite (merit_value_from _ _ _ (replicate 5 (Fin 1)) (replicate 10 (Fin 1)));
    [|six_values..].
  merit_eval 205%R.
Qed.

(** Quotients by square roots compare as their squares do. *)
Lemma ratio_le (a b c d : R) :
  (0 < a)%R → (0 < b)%R → (0 < c)%R → (0 < d)%R →
  (a * a * d <= c * c * b)%R → (a / sqrt b <= c / sqrt d)%R.
Proof.
  intros Ha Hb Hc Hd Hle.
  assert (0 < sqrt b)%R as Hsb by by apply sqrt_lt_R0.
  assert (0 < sqrt d)%R as Hsd by by apply sqrt_lt_R0.
  assert (a * sqrt d <= c * sqrt b)%R as H.
  { rewrite <- (sqrt_square a), <- (sqrt_square c) by lra.
    rewrite <- !sqrt_mult by nra. by apply sqrt_le_1_alt. }
  apply (Rmult_le_reg_r (sqrt b * sqrt d)); [by apply Rmult_lt_0_compat|].
  replace (a / sqrt b * (sqrt b * sqrt d))%R with (a * sqrt d)%R
    by (field; lra).
  replace (c / sqrt d * (sqrt b * sqrt d))%R with (c * sqrt b)%R
    by (field; lra).
  done.
Qed.

Lemma ratio_pos (a b : R) : (0 < a)%R → (0 < b)%R → (0 < a / sqrt b)%R.
Proof. intros Ha Hb. apply Rdiv_lt_0_compat; [done|by apply sqrt_lt_R0]. Qed.

Lemma ratio_min (a b : R) :
  (0 < a)%R → (0 < b)%R → (b <= 16 * (a * a))%R →
  (Fin (a / sqrt b) >? float_info.min)%fl = true.
Proof.
  intros Ha Hb Hle.
  pose proof (ratio_le 1 16 a b) as H.
  assert (sqrt 16 = 4)%R as H16.
  { replace 16%R with (4 * 4)%R by lra. apply sqrt_square. lra. }
  rewrite H16 in H.
  unfold Float.gtb, float_info.min. simpl. apply bool_decide_eq_true.
  assert (/ 2 ^ 1022 <= / 2 ^ 3)%R as Hp.
  { apply Rinv_le_contravar; [apply pow_lt; lra|]. apply Rle_pow; [lra|lia]. }
  assert (/ 2 ^ 3 = 1 / 8)%R as Hp' by (simpl; lra).
  assert (1 / 4 <= a / sqrt b)%R by (apply H; lra).
  lra.
Qed.

Lemma sqrt_4 : sqrt 4 = 2%R.
Proof. replace 4%R with (2 * 2)%R by lra. apply sqrt_square. lra. Qed.

(** The scan of the stagnation check over a pair that does not rise. *)
Lemma stagnation_scan_first (b : R) (items : list float) :
  stagnation_scan (Fin (-1)) (Fin b :: items) = stagnation_scan (Fin b) items.
Proof.
  cbn [stagnation_scan]. unfold Float.eqb at 1.
  rewrite bool_decide_true by done. by rewrite gtb_irrefl.
Qed.

Lemma stagnation_scan_next (a b : R) (items : list float) :
  (-1 < a)%R → (b <= a)%R →
  stagnation_scan (Fin a) (Fin b :: items) = stagnation_scan (Fin b) items.
Proof.
  intros Ha Hb. cbn [stagnation_scan]. unfold Float.eqb at 1.
  rewrite bool_decide_false by lra. unfold Float.gtb, Float.ltb.
  by rewrite bool_decide_false by lra.
Qed.

(** With five scores, none above the one before, the search goes no
    further, whatever is left in the pool. *)
Lemma six_stagnant (fo : list nat) :
  continue_after fo
    [Fin 1; Fin (2 / sqrt 4); Fin (3 / sqrt 21); Fin (4 / sqrt 76);
     Fin (5 / sqrt 205)] = false.
Proof.
  assert (stagnation_scan (Fin (-1))
            [Fin 1; Fin (2 / sqrt 4); Fin (3 / sqrt 21); Fin (4 / sqrt 76);
             Fin (5 / sqrt 205)] = true) as Hscan.
  { pose proof (ratio_pos 2 4). pose proof (ratio_pos 3 21).
    pose proof (ratio_pos 4 76). pose proof (ratio_pos 5 205).
    rewrite stagnation_scan_first.
    rewrite stagnation_scan_next by (rewrite ?sqrt_4; lra).
    rewrite stagnation_scan_next by (try apply ratio_le; lra).
    rewrite stagnation_scan_next by (try apply ratio_le; lra).
    rewrite stagnation_scan_next by (try apply ratio_le; lra).
    reflexivity. }
  unfold continue_after. cbn [length]. rewrite (decide_True (P := 5 ≤ 5)) by lia.
  change (drop (5 - 5) ?l) with l. by rewrite Hscan.
Qed.

(** On the six copies the search takes five features, the merit falling
    with each, and stops on the stagnation check with feature 5 left in
    the pool. *)
Lemma cfs_six_run :
  ∃ s', cfs np.argsort X_six y_binary __init__ = (Ok (), s') ∧
        get_results s' = Some [0; 1; 2; 3; 4] ∧
        get_scores s' =
          [Fin 1; Fin (2 / sqrt 4); Fin (3 / sqrt 21); Fin (4 / sqrt 76);
           Fin (5 / sqrt 205)].
Proof.
  destruct (cfs_to_loop 6 [[0; 0; 0; 0; 0; 0]; [1; 1; 1; 1; 1; 1]]%Z y_binary
              (replicate 6 (Fin 1)) 0 [1; 2; 3; 4; 5] (Fin 1) __init__)
    as [Hrun Hready]; [done|apply su_label_six|apply argsort_six|done|].
  destruct (cfs_while_selects 6 _ _ 5 [0] [1; 2; 3; 4; 5]
              (replicate 5 (Fin (2 / sqrt 4))) (Fin (2 / sqrt 4)) 0 1
              _ Hready)
    as (s1 & Hready1 & Hsc1 & Hr1 & _ & Hloop1).
  { repeat constructor; apply merit_six_2; lia. }
  { cbn [best replicate]. rewrite ratio_min by lra. by rewrite !gtb_irrefl. }
  { done. }
  destruct (cfs_while_selects 6 _ _ 4 [0; 1] [2; 3; 4; 5]
              (replicate 4 (Fin (3 / sqrt 21))) (Fin (3 / sqrt 21)) 0 2
              _ Hready1)
    as (s2 & Hready2 & Hsc2 & Hr2 & _ & Hloop2).
  { repeat constructor; apply merit_six_3; lia. }
  { cbn [best replicate]. rewrite ratio_min by lra. by rewrite !gtb_irrefl. }
  { done. }
  destruct (cfs_while_selects 6 _ _ 3 [0; 1; 2] [3; 4; 5]
              (replicate 3 (Fin (4 / sqrt 76))) (Fin (4 / sqrt 76)) 0 3
              _ Hready2)
    as (s3 & Hready3 & Hsc3 & Hr3 & _ & Hloop3).
  { repeat constructor; apply merit_six_4; lia. }
  { cbn [best replicate]. rewrite ratio_min by lra. by rewrite !gtb_irrefl. }
  { done. }
  destruct (cfs_while_selects 6 _ _ 2 [0; 1; 2; 3] [4; 5]
              (replicate 2 (Fin (5 / sqrt 205))) (Fin (5 / sqrt 205)) 0 4
              _ Hready3)
    as (s4 & Hready4 & Hsc4 & Hr4 & _ & Hloop4).
  { repeat constructor; apply merit_six_5; lia. }
  { cbn [best replicate]. rewrite ratio_min by lra. by rewrite !gtb_irrefl. }
  { done. }
  rewrite Hsc1 in Hsc2, Hloop2. rewrite Hsc2 in Hsc3, Hloop3.
  rewrite Hsc3 in Hsc4, Hloop4. simpl in Hsc4, Hloop4.
  rewrite six_stagnant in Hloop4.
  eexists. unfold X_six. rewrite Hrun, bind_unfold. simpl length.
  rewrite Hloop1. simpl. rewrite Hloop2. simpl. rewrite Hloop3. simpl.
  rewrite Hloop4. split; [reflexivity|]. unfold get_results, get_scores.
  simpl. by rewrite Hsc4.
Qed.



End MFSMore.
